(** * A Boolean retrieval engine: tokenizer, stemmer, index builder, index
      codec and query evaluator.

    Shallow embedding of
      - lab3_text/cpp/tokenizer.cpp   (module [Tokenizer])
      - lab4_bool/stemmer.hpp         (module [Stemmer])
      - lab4_bool/builder.cpp         (modules [Builder], [Codec], [Query])

    A [std::string] is a list of bytes ([ascii]); an unsigned char is read
    through [code]; a [uint32_t] is an [N] whose wrap-around is written out;
    a [size_t] length is a [nat]; an [unordered_map] is a [gmap]. *)

From Stdlib Require Import Ascii String NArith Lia.
From stdpp Require Import gmap strings list fin_maps sorting.

Local Open Scope nat_scope.

(** ** Bytes and strings *)

Abbreviation str := (list ascii).

(** [static_cast<unsigned char>(c)] *)
Definition code (c : ascii) : nat := nat_of_ascii c.

(** [static_cast<char>(n)]: keeps the low eight bits. *)
Definition chr (n : nat) : ascii := ascii_of_nat n.

(** A string literal of the source, as its bytes. *)
Definition lit (s : string) : str := list_ascii_of_string s.

(** The double quote and the backslash. *)
Definition quote : ascii := "034"%char.
Definition backslash : ascii := "092"%char.

(** A literal in which each apostrophe stands for a double quote. *)
Definition json (s : string) : str :=
  map (λ c, if bool_decide (c = "'"%char) then quote else c) (lit s).

(** ** Outcomes of code that indexes and loops

    [OutOfBounds] stands for what C++ leaves undefined (an index past the
    end, [back()] or [pop_back()] on an empty vector) or answers with
    [std::out_of_range]; [OutOfFuel] marks a loop that did not finish within
    its iteration budget. *)

Inductive outcome (A : Type) : Type :=
| Done (a : A)
| OutOfBounds
| OutOfFuel.

Arguments Done {A} a.
Arguments OutOfBounds {A}.
Arguments OutOfFuel {A}.

Definition obind {A B} (m : outcome A) (k : A → outcome B) : outcome B :=
  match m with
  | Done a => k a
  | OutOfBounds => OutOfBounds
  | OutOfFuel => OutOfFuel
  end.

Notation "x ←! m ; k" := (obind m (fun x => k))
  (at level 20, m at level 100, k at level 200, right associativity,
   format "x  ←!  m ;  '/' k").
Notation "' p ←! m ; k" := (obind m (fun p => k))
  (at level 20, p pattern, m at level 100, k at level 200,
   right associativity, format "' p  ←!  m ;  '/' k").

(** [s[i]] *)
Definition at_ (s : str) (i : nat) : outcome ascii :=
  match s !! i with
  | Some c => Done c
  | None => OutOfBounds
  end.

(** [s.substr(pos, n)]: throws [std::out_of_range] when [pos > s.size()]. *)
Definition substr (s : str) (pos n : nat) : outcome str :=
  if length s <? pos then OutOfBounds else Done (take n (drop pos s)).

(** ** The suffix-stripping stemmer (stemmer.hpp) *)

Module Stemmer.

Fixpoint has_cyrillic (s : str) : bool :=
  match s with
  | [] => false
  | c :: rest => if 0xD0 <=? code c then true else has_cyrillic rest
  end.

(** Does [suf] occur in [word] at byte offset [p]? *)
Definition occurs_at (word suf : str) (p : nat) : bool :=
  bool_decide (take (length suf) (drop p word) = suf).

(** [word.rfind(suf)]: the highest offset at which [suf] occurs, [None] for
    [npos]. The search starts at [word.size() - suf.size()] and walks down. *)
Fixpoint rfind_from (word suf : str) (p : nat) : option nat :=
  if occurs_at word suf p then Some p
  else match p with
       | 0 => None
       | S p' => rfind_from word suf p'
       end.

Definition rfind (word suf : str) : option nat :=
  if length word <? length suf then None
  else rfind_from word suf (length word - length suf).

(** The test of [strip_suffix]'s loop body. *)
Definition strippable (word suf : str) : bool :=
  (length suf + 1 <? length word) &&
  match rfind word suf with
  | Some p => p =? length word - length suf
  | None => false
  end.

Fixpoint strip_suffix (word : str) (suffixes : list str) : str :=
  match suffixes with
  | [] => word
  | suf :: rest =>
      if strippable word suf then take (length word - length suf) word
      else strip_suffix word rest
  end.

Definition ru : list str :=
  map lit
    ["иями";"ями";"ами";"ией";"ой";"ей";"ии";"ий";"ый";"ия";"ья";"я";"ию";"ью";"ю";
     "ов";"ев";"ем";"ам";"ом";"ах";"ях";"иям";"ям";"ею";"ие";"ые";"ое";"иею";"ией"]%string.

Definition en : list str :=
  map lit
    ["ingly";"edly";"ness";"ment";"ious";"tion";"sion";"able";"ible";"ally";"less";
     "ful";"est";"ers";"ies";"ing";"ed";"ly";"es";"s"]%string.

Definition stem_token (token : str) : str :=
  if length token <=? 2 then token
  else if has_cyrillic token then strip_suffix token ru
  else strip_suffix token en.

(** The table [stem_token] scans for a given term. *)
Definition table_for (token : str) : list str :=
  if has_cyrillic token then ru else en.

(** A suffix qualifies when the term ends with it and more than one byte
    remains in front of it. *)
Definition qualifies (word suf : str) : Prop :=
  length suf + 1 < length word ∧ suf `suffix_of` word.

End Stemmer.

(** ** The tokenizer (lab3_text/cpp/tokenizer.cpp) *)

Module Tokenizer.

(** The private fields of [class Tokenizer]. *)
Record config : Type := Config {
  lowercase_ : bool;
  keep_dashes_ : bool;
  keep_apostrophes_ : bool;
  min_token_length_ : nat
}.

(** [Tokenizer::Tokenizer()] *)
Definition default : config :=
  {| lowercase_ := true; keep_dashes_ := true; keep_apostrophes_ := true;
     min_token_length_ := 1 |}.

Definition set_lowercase (value : bool) (t : config) : config :=
  {| lowercase_ := value; keep_dashes_ := keep_dashes_ t;
     keep_apostrophes_ := keep_apostrophes_ t;
     min_token_length_ := min_token_length_ t |}.

Definition set_min_token_length (value : nat) (t : config) : config :=
  {| lowercase_ := lowercase_ t; keep_dashes_ := keep_dashes_ t;
     keep_apostrophes_ := keep_apostrophes_ t;
     min_token_length_ := value |}.

Definition is_ascii_letter (c : ascii) : bool :=
  ((code "A" <=? code c) && (code c <=? code "Z")) ||
  ((code "a" <=? code c) && (code c <=? code "z")).

Definition is_digit (c : ascii) : bool :=
  (code "0" <=? code c) && (code c <=? code "9").

Definition is_cyrillic_start (c1 c2 : ascii) : bool :=
  ((code c1 =? 0xD0) && (0x80 <=? code c2) && (code c2 <=? 0xBF)) ||
  ((code c1 =? 0xD1) && (0x80 <=? code c2) && (code c2 <=? 0xBF)).

(** [is_token_char(text, pos, advance, keep_dashes, keep_apostrophes)]:
    the returned pair is the result and the value left in [advance]. *)
Definition is_token_char (text : str) (pos : nat)
    (keep_dashes keep_apostrophes : bool) : outcome (bool * nat) :=
  if length text <=? pos then Done (false, 0)
  else
    c ←! at_ text pos;
    if is_ascii_letter c || is_digit c then Done (true, 1)
    else
      cyr ←! (if pos + 1 <? length text
              then c2 ←! at_ text (pos + 1); Done (is_cyrillic_start c c2)
              else Done false);
      if cyr then Done (true, 2)
      else if keep_dashes && bool_decide (c = "-"%char) then Done (true, 1)
      else if keep_apostrophes && bool_decide (c = "'"%char) then Done (true, 1)
      else Done (false, 1).

(** The width [utf8_char_count] gives to a sequence led by byte [c]. *)
Definition utf8_width (c : ascii) : nat :=
  if code c <? 0x80 then 1
  else if Nat.land (code c) 0xE0 =? 0xC0 then 2
  else if Nat.land (code c) 0xF0 =? 0xE0 then 3
  else if Nat.land (code c) 0xF8 =? 0xF0 then 4
  else 1.

(** The loop of [utf8_char_count], from index [i] on. *)
Fixpoint utf8_count_from (fuel : nat) (s : str) (i : nat) : outcome nat :=
  if i <? length s then
    match fuel with
    | 0 => OutOfFuel
    | S fuel' =>
        c ←! at_ s i;
        n ←! utf8_count_from fuel' s (i + utf8_width c);
        Done (S n)
    end
  else Done 0.

Definition utf8_char_count (s : str) : outcome nat :=
  utf8_count_from (length s) s 0.

(** [c >= 'A' && c <= 'Z'] *)
Definition is_upper (c : ascii) : bool :=
  (code "A" <=? code c) && (code c <=? code "Z").

(** The loop of [Tokenizer::to_lower] from index [i] on; [result] is what
    has been pushed so far. [str[i + 1]] is read only where the source
    reads it: after [i + 1 < str.size()] and [str[i] == 0xD0] held. *)
Fixpoint to_lower_from (fuel : nat) (s : str) (i : nat) (result : str)
    : outcome str :=
  if i <? length s then
    match fuel with
    | 0 => OutOfFuel
    | S fuel' =>
        c ←! at_ s i;
        if is_upper c
        then to_lower_from fuel' s (i + 1) (result ++ [chr (code c + 32)])
        else
          capital ←! (if (i + 1 <? length s) && (code c =? 0xD0)
                      then c2 ←! at_ s (i + 1);
                           Done ((0x90 <=? code c2) && (code c2 <=? 0xAF))
                      else Done false);
          if capital then
            c2 ←! at_ s (i + 1);
            to_lower_from fuel' s (i + 2)
              (result ++ [chr 0xD0; chr (code c2 + 0x20)])
          else
            yo ←! (if (i + 1 <? length s) && (code c =? 0xD0)
                   then c2 ←! at_ s (i + 1); Done (code c2 =? 0x81)
                   else Done false);
            if yo
            then to_lower_from fuel' s (i + 2) (result ++ [chr 0xD1; chr 0x91])
            else to_lower_from fuel' s (i + 1) (result ++ [c])
    end
  else Done result.

(** [Tokenizer::to_lower] *)
Definition to_lower (s : str) : outcome str :=
  to_lower_from (length s) s 0 [].

(** The last loop of [is_valid_token], from index [i] on. *)
Fixpoint has_word_char_from (fuel : nat) (token : str) (i : nat)
    : outcome bool :=
  if i <? length token then
    match fuel with
    | 0 => OutOfFuel
    | S fuel' =>
        c ←! at_ token i;
        if is_ascii_letter c || is_digit c then Done true
        else
          cyr ←! (if i + 1 <? length token
                  then c2 ←! at_ token (i + 1); Done (is_cyrillic_start c c2)
                  else Done false);
          if cyr then Done true
          else has_word_char_from fuel' token (S i)
    end
  else Done false.

Definition is_valid_token (t : config) (token : str) : outcome bool :=
  match token with
  | [] => Done false
  | _ =>
      char_count ←! utf8_char_count token;
      if char_count <? min_token_length_ t then Done false
      else has_word_char_from (length token) token 0
  end.

Definition is_dash_or_apostrophe (c : ascii) : bool :=
  bool_decide (c = "-"%char) || bool_decide (c = "'"%char).

(** [while (!token.empty() && (token.front() == '-' || ...)) token.erase(token.begin());] *)
Fixpoint trim_front (token : str) : str :=
  match token with
  | c :: rest => if is_dash_or_apostrophe c then trim_front rest else token
  | [] => []
  end.

(** [while (!token.empty() && (token.back() == '-' || ...)) token.pop_back();] *)
Definition trim_back (token : str) : str := rev (trim_front (rev token)).

(** First inner loop of [tokenize]: [while (i < text.size() &&
    !is_token_char(...)) ++i;] *)
Fixpoint skip_separators (fuel : nat) (t : config) (text : str) (i : nat)
    : outcome nat :=
  if i <? length text then
    '(tc, _) ←! is_token_char text i (keep_dashes_ t) (keep_apostrophes_ t);
    if tc then Done i
    else match fuel with
         | 0 => OutOfFuel
         | S fuel' => skip_separators fuel' t text (S i)
         end
  else Done i.

(** Second inner loop: [while (i < text.size() && is_token_char(...))
    i += advance;] where [advance] is what the test just stored. *)
Fixpoint scan_token (fuel : nat) (t : config) (text : str) (i : nat)
    : outcome nat :=
  if i <? length text then
    '(tc, advance) ←! is_token_char text i (keep_dashes_ t) (keep_apostrophes_ t);
    if tc then
      match fuel with
      | 0 => OutOfFuel
      | S fuel' => scan_token fuel' t text (i + advance)
      end
    else Done i
  else Done i.

(** One turn of the outer loop of [tokenize], entered with [i <
    text.size()]: the new [i] and the token pushed, if any. *)
Definition next_token (t : config) (text : str) (i : nat)
    : outcome (nat * option str) :=
  i ←! skip_separators (length text) t text i;
  if i <? length text then
    let token_start := i in
    i ←! scan_token (length text) t text i;
    token ←! substr text token_start (i - token_start);
    let token := trim_back (trim_front token) in
    token ←! (if lowercase_ t then to_lower token else Done token);
    valid ←! is_valid_token t token;
    Done (i, if valid then Some token else None)
  else Done (i, None).

Fixpoint tokenize_from (fuel : nat) (t : config) (text : str) (i : nat)
    (tokens : list str) : outcome (list str) :=
  if i <? length text then
    match fuel with
    | 0 => OutOfFuel
    | S fuel' =>
        '(i', tok) ←! next_token t text i;
        tokenize_from fuel' t text i' (tokens ++ option_list tok)
    end
  else Done tokens.

(** [Tokenizer::tokenize] *)
Definition tokenize (t : config) (text : str) : outcome (list str) :=
  tokenize_from (length text) t text 0 [].

(** The tokens handed to a caller; [tokenize] always finishes. *)
Definition tokens_of (t : config) (text : str) : list str :=
  match tokenize t text with
  | Done tokens => tokens
  | _ => []
  end.

End Tokenizer.

(** ** Tokens with their positions ([Tokenizer::tokenize_with_positions]) *)

Module Positions.
Import Tokenizer.

(** [struct Token] of tokenizer.h. *)
Record Token : Type := MkToken {
  text : str;
  position : nat;
  length : nat
}.

(** [while (trim_start < raw.size() && (raw[trim_start] == '-' ||
    raw[trim_start] == '\'')) ++trim_start;] *)
Fixpoint trim_start_from (fuel : nat) (raw : str) (trim_start : nat)
    : outcome nat :=
  if trim_start <? Datatypes.length raw then
    c ←! at_ raw trim_start;
    if is_dash_or_apostrophe c then
      match fuel with
      | 0 => OutOfFuel
      | S fuel' => trim_start_from fuel' raw (S trim_start)
      end
    else Done trim_start
  else Done trim_start.

(** [while (trim_end < raw.size() - trim_start && (raw[raw.size() - 1 -
    trim_end] == '-' || ...)) ++trim_end;] The first loop leaves
    [trim_start <= raw.size()], so the unsigned subtraction is exact. *)
Fixpoint trim_end_from (fuel : nat) (raw : str) (trim_start trim_end : nat)
    : outcome nat :=
  if trim_end <? Datatypes.length raw - trim_start then
    c ←! at_ raw (Datatypes.length raw - 1 - trim_end);
    if is_dash_or_apostrophe c then
      match fuel with
      | 0 => OutOfFuel
      | S fuel' => trim_end_from fuel' raw trim_start (S trim_end)
      end
    else Done trim_end
  else Done trim_end.

(** One turn of the outer loop, entered with [i < text.size()]: the new
    [i] and the token pushed, if any. *)
Definition next_token (t : config) (text : str) (i : nat)
    : outcome (nat * option Token) :=
  i ←! skip_separators (Datatypes.length text) t text i;
  if i <? Datatypes.length text then
    let token_start := i in
    i ←! scan_token (Datatypes.length text) t text i;
    raw ←! substr text token_start (i - token_start);
    trim_start ←! trim_start_from (Datatypes.length raw) raw 0;
    trim_end ←! trim_end_from (Datatypes.length raw) raw trim_start 0;
    token_text ←!
      substr raw trim_start (Datatypes.length raw - trim_start - trim_end);
    token_text ←!
      (if lowercase_ t then to_lower token_text else Done token_text);
    valid ←! is_valid_token t token_text;
    Done (i,
          if valid
          then Some {| text := token_text;
                       position := token_start + trim_start;
                       length := Datatypes.length raw - trim_start - trim_end |}
          else None)
  else Done (i, None).

Fixpoint tokenize_from (fuel : nat) (t : config) (text : str) (i : nat)
    (tokens : list Token) : outcome (list Token) :=
  if i <? Datatypes.length text then
    match fuel with
    | 0 => OutOfFuel
    | S fuel' =>
        '(i', tok) ←! next_token t text i;
        tokenize_from fuel' t text i' (tokens ++ option_list tok)
    end
  else Done tokens.

(** [Tokenizer::tokenize_with_positions] *)
Definition tokenize_with_positions (t : config) (text : str)
    : outcome (list Token) :=
  tokenize_from (Datatypes.length text) t text 0 [].

End Positions.

(** ** The inverted index (lab4_bool/builder.cpp) *)

(** [uint32_t] arithmetic wraps modulo [2^32]. *)
Definition u32 (n : N) : N := (n mod 2 ^ 32)%N.

(** [struct Index]. The builder wraps each document id in a one-field
    [DocEntry]; the search program stores the string itself. *)
Record Index : Type := MkIndex {
  docs : list str;
  postings : gmap str (list N)
}.

Module Builder.

(** The loop of [add_postings]; [seen] is the local [unordered_set]. *)
Fixpoint add_postings_from (postings : gmap str (list N)) (doc_id : N)
    (tokens : list str) (use_stem : bool) (seen : gset str)
    : gmap str (list N) :=
  match tokens with
  | [] => postings
  | tok :: rest =>
      let term := if use_stem then Stemmer.stem_token tok else tok in
      match term with
      | [] => add_postings_from postings doc_id rest use_stem seen
      | _ =>
          if decide (term ∈ seen)
          then add_postings_from postings doc_id rest use_stem seen
          else
            (* idx.postings[term] default-constructs an absent entry *)
            let vec := default [] (postings !! term) in
            add_postings_from (<[term := vec ++ [doc_id]]> postings) doc_id
              rest use_stem ({[term]} ∪ seen)
      end
  end.

Definition add_postings (idx : Index) (doc_id : N) (tokens : list str)
    (use_stem : bool) : Index :=
  {| docs := docs idx;
     postings := add_postings_from (postings idx) doc_id tokens use_stem ∅ |}.

(** *** The corpus reader *)

(** The [switch] over the escaped character. *)
Definition unescape (esc : ascii) : ascii :=
  if bool_decide (esc = quote) then quote
  else if bool_decide (esc = backslash) then backslash
  else if bool_decide (esc = "n"%char) then "010"%char
  else if bool_decide (esc = "t"%char) then "009"%char
  else if bool_decide (esc = "r"%char) then "013"%char
  else esc.

(** The loop of [decode_json_string]; [rest] is [src] from [pos] on. *)
Fixpoint decode_from (rest : str) (out : str) : option str :=
  match rest with
  | [] => None
  | c :: rest1 =>
      if bool_decide (c = backslash) then
        match rest1 with
        | [] => None
        | esc :: rest2 => decode_from rest2 (out ++ [unescape esc])
        end
      else if bool_decide (c = quote) then Some out
      else decode_from rest1 (out ++ [c])
  end.

(** [decode_json_string(src, pos, out)]: [Some out] when it returns true. *)
Definition decode_json_string (src : str) (pos : nat) : option str :=
  match drop pos src with
  | c :: rest => if bool_decide (c = quote) then decode_from rest [] else None
  | [] => None
  end.

Fixpoint starts_with (s pat : str) : bool :=
  match pat, s with
  | [], _ => true
  | p :: pat', c :: s' => bool_decide (c = p) && starts_with s' pat'
  | _ :: _, [] => false
  end.

(** [s] is the searched string from offset [p] on. *)
Fixpoint find_in (s pat : str) (p : nat) : option nat :=
  if starts_with s pat then Some p
  else match s with
       | [] => None
       | _ :: s' => find_in s' pat (S p)
       end.

(** [line.find(pat, pos)], [None] for [npos]. *)
Definition find (line pat : str) (pos : nat) : option nat :=
  if length line <? pos then None else find_in (drop pos line) pat pos.

(** [std::isspace] in the C locale. *)
Definition isspace (c : ascii) : bool :=
  (code c =? 32) || ((9 <=? code c) && (code c <=? 13)).

(** [while (p < line.size() && f(line[p])) ++p;] with [rest] the line from
    [p] on. *)
Fixpoint advance_while (f : ascii → bool) (rest : str) (p : nat) : nat :=
  match rest with
  | c :: rest' => if f c then advance_while f rest' (S p) else p
  | [] => p
  end.

(** [extract_field(line, key, value)]: [Some value] when it returns true. *)
Definition extract_field (line key : str) : option str :=
  let pattern := [quote] ++ key ++ [quote] in
  match find line pattern 0 with
  | None => None
  | Some p =>
      match find line [":"%char] (p + length pattern) with
      | None => None
      | Some p =>
          let p := advance_while isspace (drop p line) p in
          if length line <=? p then None
          else
            let p :=
              advance_while (λ c, negb (bool_decide (c = quote)))
                (drop p line) p in
            if length line <=? p then None
            else decode_json_string line p
      end
  end.

(** The tokenizer [main] configures. *)
Definition tok : Tokenizer.config :=
  Tokenizer.set_min_token_length 2
    (Tokenizer.set_lowercase true Tokenizer.default).

(** The state of the read loop of [main]: the index and [doc_id]. *)
Definition state : Type := Index * N.

Definition start : state := ({| docs := []; postings := ∅ |}, 0%N).

(** Lines 137 to 140: the work done for a record whose two fields were
    extracted. *)
Definition ingest (use_stem : bool) (st : state) (record : str * str) : state :=
  let '(idx, doc_id) := st in
  let '(id, text) := record in
  let idx := {| docs := docs idx ++ [id]; postings := postings idx |} in
  let tokens := Tokenizer.tokens_of tok text in
  (add_postings idx doc_id tokens use_stem, u32 (doc_id + 1)).

(** The two fields of a line, when both can be extracted. *)
Definition parse_line (line : str) : option (str * str) :=
  match line with
  | [] => None
  | _ =>
      match extract_field line (lit "id") with
      | None => None
      | Some id =>
          match extract_field line (lit "text") with
          | None => None
          | Some text => Some (id, text)
          end
      end
  end.

(** The body of [while (std::getline(in, line))]. *)
Definition read_line (use_stem : bool) (st : state) (line : str) : state :=
  match parse_line line with
  | None => st
  | Some record => ingest use_stem st record
  end.

Definition read_corpus (use_stem : bool) (lines : list str) : state :=
  foldl (read_line use_stem) start lines.

(** [std::unique] over a range: an element equal to the last one kept is
    dropped. [prev] is that last kept element. *)
Fixpoint unique_after (prev : N) (v : list N) : list N :=
  match v with
  | [] => []
  | x :: rest =>
      if (x =? prev)%N then unique_after prev rest
      else x :: unique_after x rest
  end.

Definition unique (v : list N) : list N :=
  match v with
  | [] => []
  | x :: rest => x :: unique_after x rest
  end.

(** [std::sort(v.begin(), v.end())] on unsigned integers. *)
Definition sort (v : list N) : list N := merge_sort N.le v.

(** The finalization loop of [main]. *)
Definition finalize (idx : Index) : Index :=
  {| docs := docs idx;
     postings := (λ v, unique (sort v)) <$> postings idx |}.

(** The index [main] holds when it calls [save_index], for a corpus given
    as its extracted records. *)
Definition build (documents : list (str * str)) (use_stem : bool) : Index :=
  finalize (foldl (ingest use_stem) start documents).1.

(** The same, from the lines of the corpus file. *)
Definition build_from_lines (lines : list str) (use_stem : bool) : Index :=
  finalize (read_corpus use_stem lines).1.

End Builder.

(** ** The index codec ([save_index] and [load_index]) *)

Module Codec.

Definition magic : str := lit "BIDX1".

(** [write_uint32]: the four bytes of [v], least significant first. *)
Definition write_uint32 (v : N) : str :=
  [ascii_of_N (v mod 256); ascii_of_N (v / 256 mod 256);
   ascii_of_N (v / 65536 mod 256); ascii_of_N (v / 16777216 mod 256)]%N.

(** [static_cast<uint32_t>] of a [size_t]. *)
Definition size_u32 (n : nat) : N := u32 (N.of_nat n).

(** [write_string]: the length is cut to 32 bits and as many bytes follow. *)
Definition write_string (s : str) : str :=
  let len := size_u32 (length s) in
  write_uint32 len ++ take (N.to_nat len) s.

(** One turn of the postings loop of [save_index]; the whole list is
    written whatever its 32-bit length field says. *)
Definition write_entry (kv : str * list N) : str :=
  write_string kv.1 ++ write_uint32 (size_u32 (length kv.2)) ++
  flat_map write_uint32 kv.2.

(** [save_index]. [order] is the sequence in which the range-for visits
    [idx.postings]; an [unordered_map] leaves it unspecified. *)
Definition save_index (idx : Index) (order : list (str * list N)) : str :=
  magic ++
  write_uint32 (size_u32 (length (docs idx))) ++
  write_uint32 (size_u32 (size (postings idx))) ++
  flat_map write_string (docs idx) ++
  flat_map write_entry order.

(** The orders in which a map can be visited: each entry once. *)
Definition visits (m : gmap str (list N)) (order : list (str * list N)) : Prop :=
  order ≡ₚ map_to_list m.

(** The input stream of [load_index]: the bytes not read yet, what
    [in.good()] answers, and how many reads have come short so far. *)
Record stream : Type := Stream {
  bytes : str;
  good : bool;
  short : nat
}.

(** [std::ifstream in(path, std::ios::binary)] on a file that opens. *)
Definition open (file : str) : stream :=
  {| bytes := file; good := true; short := 0 |}.

(** [in.read(buf, n)] for a buffer of [n] bytes that holds [prior] before
    the call. A stream that is not good extracts nothing; a stream that
    ends before [n] bytes stores the bytes it has and is no longer good;
    the bytes of the buffer that are not overwritten keep what they held.
    No function of builder.cpp tests the stream after a read. *)
Definition read (prior : str) (s : stream) : str * stream :=
  if good s then
    if length prior <=? length (bytes s)
    then (take (length prior) (bytes s),
          {| bytes := drop (length prior) (bytes s); good := true;
             short := short s |})
    else (bytes s ++ drop (length (bytes s)) prior,
          {| bytes := []; good := false; short := S (short s) |})
  else (prior, {| bytes := bytes s; good := false; short := S (short s) |}).

(** What an automatic variable holds before anything is stored in it:
    [char magic[5]] and [uint32_t v] are read into as they are. [junk k j]
    is byte [j] of the buffer handed to the read that comes short when [k]
    reads have come short before it. *)
Definition uninitialized (junk : nat → nat → ascii) (s : stream) (n : nat)
    : str :=
  map (junk (short s)) (seq 0 n).

(** [std::string s(len, '\0')] and [std::vector<uint32_t> plist(len)] as
    bytes; the allocation is taken to succeed. *)
Definition zeros (n : nat) : str := replicate n "000"%char.

(** The value of an unsigned integer stored least significant byte
    first. *)
Definition le32 (buf : str) : N :=
  foldr (λ b v, (N_of_ascii b + 256 * v)%N) 0%N buf.

(** [read_uint32]: [v] is returned whatever the read stored in it. *)
Definition read_uint32 (junk : nat → nat → ascii) (s : stream) : N * stream :=
  let '(buf, s) := read (uninitialized junk s 4) s in
  (le32 buf, s).

(** [read_string] *)
Definition read_string (junk : nat → nat → ascii) (s : stream)
    : str * stream :=
  let '(len, s) := read_uint32 junk s in
  read (zeros (N.to_nat len)) s.

(** [count] calls of [item], results in order. *)
Fixpoint read_many {A} (item : stream → A * stream) (count : nat) (s : stream)
    : list A * stream :=
  match count with
  | 0 => ([], s)
  | S count' =>
      let '(x, s) := item s in
      let '(xs, s) := read_many item count' s in
      (x :: xs, s)
  end.

(** The elements of a [std::vector<uint32_t>] whose storage holds [buf]. *)
Fixpoint words (buf : str) : list N :=
  match buf with
  | b0 :: b1 :: b2 :: b3 :: rest => le32 [b0; b1; b2; b3] :: words rest
  | _ => []
  end.

(** One turn of the terms loop: the term and its posting list, read by a
    single [in.read] of [len * sizeof(uint32_t)] bytes. *)
Definition read_entry (junk : nat → nat → ascii) (s : stream)
    : (str * list N) * stream :=
  let '(term, s) := read_string junk s in
  let '(len, s) := read_uint32 junk s in
  let '(buf, s) := read (zeros (4 * N.to_nat len)) s in
  ((term, words buf), s).

(** [postings.emplace(term, plist)]: an existing key keeps its value. *)
Definition emplace (m : gmap str (list N)) (kv : str * list N)
    : gmap str (list N) :=
  match m !! kv.1 with
  | Some _ => m
  | None => <[kv.1 := kv.2]> m
  end.

(** What [load_index] ends with: the index it returns, with the stream as
    it leaves it, or the exception "bad index file". *)
Inductive loaded : Type :=
| Loaded (idx : Index) (s : stream)
| BadIndexFile.

Definition load_index (junk : nat → nat → ascii) (file : str) : loaded :=
  let s := open file in
  let '(magic', s) := read (uninitialized junk s 5) s in
  if bool_decide (magic' = magic) then
    let '(doc_count, s) := read_uint32 junk s in
    let '(term_count, s) := read_uint32 junk s in
    let '(ds, s) := read_many (read_string junk) (N.to_nat doc_count) s in
    let '(entries, s) := read_many (read_entry junk) (N.to_nat term_count) s in
    Loaded {| docs := ds; postings := foldl emplace ∅ entries |} s
  else BadIndexFile.

End Codec.

(** ** The query engine (the search program of lab4_bool/builder.cpp) *)

Module Query.

(** [set_and]: [a] and [b] are the vectors from [i] and from [j] on. *)
Fixpoint set_and (a b : list N) {struct a} : list N :=
  match a with
  | [] => []
  | x :: a' =>
      (fix scan_b (b : list N) : list N :=
         match b with
         | [] => []
         | y :: b' =>
             if (x =? y)%N then x :: set_and a' b'
             else if (x <? y)%N then set_and a' b
             else scan_b b'
         end) b
  end.

(** [if (out.empty() || out.back() != v) out.push_back(v);] where [back] is
    [out.back()], [None] while [out] is empty, and [rest] is what the
    following turns append. *)
Definition push_new (back : option N) (v : N) (rest : list N) : list N :=
  match back with
  | Some w => if (w =? v)%N then rest else v :: rest
  | None => v :: rest
  end.

(** [set_or] once one side is used up. *)
Fixpoint set_or_tail (l : list N) (back : option N) : list N :=
  match l with
  | [] => []
  | v :: l' => push_new back v (set_or_tail l' (Some v))
  end.

Fixpoint set_or_from (a b : list N) (back : option N) {struct a} : list N :=
  match a with
  | [] => set_or_tail b back
  | x :: a' =>
      (fix scan_b (b : list N) (back : option N) {struct b} : list N :=
         match b with
         | [] => push_new back x (set_or_from a' [] (Some x))
         | y :: b' =>
             if (x <=? y)%N then push_new back x (set_or_from a' b (Some x))
             else push_new back y (scan_b b' (Some y))
         end) b back
  end.

Definition set_or (a b : list N) : list N := set_or_from a b None.

(** [set_not]: once [b] is used up the rest of [universe] is appended. *)
Fixpoint set_not (universe b : list N) {struct universe} : list N :=
  match universe with
  | [] => []
  | u :: universe' =>
      (fix scan_b (b : list N) : list N :=
         match b with
         | [] => universe
         | y :: b' =>
             if (u =? y)%N then set_not universe' b'
             else if (u <? y)%N then u :: set_not universe' b
             else scan_b b'
         end) b
  end.

Inductive Op : Type := TERM | AND | OR | NOT.

Record Token : Type := MkToken { type : Op; term : str }.

Definition parse_query (raw : str) (tokenizer : Tokenizer.config)
    (use_stem : bool) : list Token :=
  map (λ w,
         if bool_decide (w = lit "and") then MkToken AND []
         else if bool_decide (w = lit "or") then MkToken OR []
         else if bool_decide (w = lit "not") then MkToken NOT []
         else MkToken TERM (if use_stem then Stemmer.stem_token w else w))
      (Tokenizer.tokens_of tokenizer raw).

Definition precedence (op : Op) : nat :=
  match op with
  | NOT => 2
  | AND => 1
  | _ => 0
  end.

(** The inner [while] of [to_postfix]; the head of [ops] is [ops.top()]. *)
Fixpoint pop_higher (ops : list Op) (incoming : Op) (output : list Token)
    : list Op * list Token :=
  match ops with
  | top :: ops' =>
      if precedence incoming <=? precedence top
      then pop_higher ops' incoming (output ++ [MkToken top []])
      else (ops, output)
  | [] => ([], output)
  end.

Fixpoint to_postfix_from (infix : list Token) (ops : list Op)
    (output : list Token) : list Token :=
  match infix with
  | [] => output ++ map (λ op, MkToken op []) ops
  | t :: infix' =>
      match type t with
      | TERM => to_postfix_from infix' ops (output ++ [t])
      | _ =>
          let '(ops, output) := pop_higher ops (type t) output in
          to_postfix_from infix' (type t :: ops) output
      end
  end.

Definition to_postfix (infix : list Token) : list Token :=
  to_postfix_from infix [] [].

Definition postings_for (idx : Index) (term : str) : list N :=
  default [] (postings idx !! term).

(** The first loop of [evaluate]. Its counter is a [uint32_t]: over a
    document table of [2^32] entries or more it wraps before it reaches
    the bound and the loop does not end. *)
Definition fill_universe (doc_count : nat) : outcome (list N) :=
  if (2 ^ 32 <=? N.of_nat doc_count)%N then OutOfFuel
  else Done (map N.of_nat (seq 0 doc_count)).

(** The second loop of [evaluate]; the head of [stack] is [stack.back()]. *)
Fixpoint run (idx : Index) (universe : list N) (postfix : list Token)
    (stack : list (list N)) : outcome (list (list N)) :=
  match postfix with
  | [] => Done stack
  | t :: postfix' =>
      match type t with
      | TERM => run idx universe postfix' (postings_for idx (term t) :: stack)
      | NOT =>
          match stack with
          | a :: stack' => run idx universe postfix' (set_not universe a :: stack')
          | [] => OutOfBounds
          end
      | op =>
          match stack with
          | b :: a :: stack' =>
              run idx universe postfix'
                ((match op with AND => set_and a b | _ => set_or a b end) :: stack')
          | _ => OutOfBounds
          end
      end
  end.

Definition evaluate (idx : Index) (postfix : list Token) : outcome (list N) :=
  universe ←! fill_universe (length (docs idx));
  stack ←! run idx universe postfix [];
  Done (match stack with [] => [] | top :: _ => top end).

(** The tokenizer the search [main] configures. *)
Definition tokenizer : Tokenizer.config :=
  Tokenizer.set_min_token_length 2
    (Tokenizer.set_lowercase true Tokenizer.default).

(** What [main] computes for one query line. *)
Definition answer (idx : Index) (use_stem : bool) (query : str)
    : outcome (list N) :=
  evaluate idx (to_postfix (parse_query query tokenizer use_stem)).

(** A postfix program never pops more than it pushed: [depth] is the
    height of the stack before the program runs. *)
Fixpoint well_formed (postfix : list Token) (depth : nat) : bool :=
  match postfix with
  | [] => true
  | t :: postfix' =>
      match type t with
      | TERM => well_formed postfix' (S depth)
      | NOT => (1 <=? depth) && well_formed postfix' depth
      | _ => (2 <=? depth) && well_formed postfix' (depth - 1)
      end
  end.

End Query.

(** The stemmer as the specification words it: the remainder is measured
    in characters (code points, counted the way the tokenizer counts
    them), not in bytes. *)
Module StemmerAsStated.

Definition chars (s : str) : nat :=
  match Tokenizer.utf8_char_count s with
  | Done n => n
  | _ => 0
  end.

Definition ends_with (word suf : str) : bool :=
  (length suf <=? length word) &&
  bool_decide (drop (length word - length suf) word = suf).

Fixpoint strip_suffix (word : str) (suffixes : list str) : str :=
  match suffixes with
  | [] => word
  | suf :: rest =>
      let remainder := take (length word - length suf) word in
      if ends_with word suf && (1 <? chars remainder) then remainder
      else strip_suffix word rest
  end.

Definition stem (term : str) : str :=
  if length term <=? 2 then term
  else strip_suffix term (Stemmer.table_for term).

End StemmerAsStated.

(** ** Vocabulary of the properties *)

(** Strictly increasing document ids below [doc_count]: a posting list
    that is in order and indexes the document table. *)
Definition posting_list (doc_count : nat) (l : list N) : Prop :=
  StronglySorted N.lt l ∧ Forall (λ d, (d < N.of_nat doc_count)%N) l.

(** [out.back()] against a value: [None] is the empty [out]. *)
Definition below (back : option N) (v : N) : Prop :=
  match back with
  | Some w => (w < v)%N
  | None => True
  end.

Definition not_above (back : option N) (v : N) : Prop :=
  match back with
  | Some w => (w <= v)%N
  | None => True
  end.

(** The bytes of a corpus given as records: every id, every text and one
    line end per record. *)
Definition corpus_size (documents : list (str * str)) : nat :=
  foldr (λ record n, length record.1 + length record.2 + 1 + n) 0 documents.

(** The bytes of its texts alone. *)
Definition text_size (documents : list (str * str)) : nat :=
  foldr (λ record n, length record.2 + n) 0 documents.

(** Terms of at most [L] bytes whose posting lists hold ids below [B]. *)
Definition within (L : nat) (B : N) (m : gmap str (list N)) : Prop :=
  map_Forall (λ term plist, length term ≤ L ∧ Forall (λ d, (d < B)%N) plist) m.

(** An index whose every length and document id fits the 32-bit fields of
    the file format. *)
Definition fits (idx : Index) : Prop :=
  (N.of_nat (length (docs idx)) < 2 ^ 32)%N ∧
  (N.of_nat (size (postings idx)) < 2 ^ 32)%N ∧
  Forall (λ id : str, (N.of_nat (length id) < 2 ^ 32)%N) (docs idx) ∧
  map_Forall (λ (term : str) (plist : list N),
                (N.of_nat (length term) < 2 ^ 32)%N ∧
                (N.of_nat (length plist) < 2 ^ 32)%N ∧
                Forall (λ d, (d < 2 ^ 32)%N) plist) (postings idx).

(** The corpus of the end-to-end scenario and its index, stemming on. *)
Module Scenario.

Definition corpus : list (str * str) :=
  [(lit "d1", lit "Cats run fast"); (lit "d2", lit "Dogs run slow")].

Definition index : Index := Builder.build corpus true.

End Scenario.

(** ** Vocabulary of the further properties *)

(** *** What a query means *)

Module Meaning.

(** The truth value of a postfix program at document [d]: the stack
    machine of [evaluate] run on truth values instead of posting lists;
    [None] when an operator lacks an operand. *)
Fixpoint sat (idx : Index) (d : N) (postfix : list Query.Token)
    (stack : list bool) : option (list bool) :=
  match postfix with
  | [] => Some stack
  | t :: postfix' =>
      match Query.type t with
      | Query.TERM =>
          sat idx d postfix'
            (bool_decide (d ∈ Query.postings_for idx (Query.term t)) :: stack)
      | Query.NOT =>
          match stack with
          | a :: stack' => sat idx d postfix' (negb a :: stack')
          | [] => None
          end
      | Query.AND =>
          match stack with
          | b :: a :: stack' => sat idx d postfix' ((a && b) :: stack')
          | _ => None
          end
      | Query.OR =>
          match stack with
          | b :: a :: stack' => sat idx d postfix' ((a || b) :: stack')
          | _ => None
          end
      end
  end.

(** The truth value at [d] of a query read from left to right with NOT
    binding tighter than AND and AND tighter than OR: [disj] is the value
    of the alternatives closed by an OR so far, [conj] the value of the
    current run of ANDed terms, [negated] whether a NOT waits for its
    term. *)
Fixpoint holds_from (idx : Index) (d : N) (infix : list Query.Token)
    (disj conj negated : bool) : bool :=
  match infix with
  | [] => disj || conj
  | t :: infix' =>
      match Query.type t with
      | Query.TERM =>
          holds_from idx d infix' disj
            (conj && xorb negated
                       (bool_decide (d ∈ Query.postings_for idx (Query.term t))))
            false
      | Query.NOT => holds_from idx d infix' disj conj true
      | Query.AND => holds_from idx d infix' disj conj false
      | Query.OR => holds_from idx d infix' (disj || conj) true false
      end
  end.

Definition holds (idx : Index) (infix : list Query.Token) (d : N) : bool :=
  holds_from idx d infix false true false.

(** What the reader of a query waits for. *)
Inductive expecting : Type := Operand | TermAfterNot | Operator.

(** The queries of the form [x AND y OR NOT z]: terms, each with at most
    one NOT in front, joined by AND and OR. *)
Fixpoint simple_from (state : expecting) (infix : list Query.Token) : bool :=
  match infix with
  | [] => match state with Operator => true | _ => false end
  | t :: infix' =>
      match state, Query.type t with
      | Operand, Query.TERM => simple_from Operator infix'
      | Operand, Query.NOT => simple_from TermAfterNot infix'
      | TermAfterNot, Query.TERM => simple_from Operator infix'
      | Operator, Query.AND => simple_from Operand infix'
      | Operator, Query.OR => simple_from Operand infix'
      | _, _ => false
      end
  end.

Definition simple_query (infix : list Query.Token) : bool :=
  simple_from Operand infix.

(** The operator stack of [to_postfix] between two tokens of a simple
    query, top first: a NOT, an AND and an OR, each present or not. *)
Definition pending_ops (has_not has_and has_or : bool) : list Query.Op :=
  (if has_not then [Query.NOT] else []) ++
  (if has_and then [Query.AND] else []) ++
  (if has_or then [Query.OR] else []).

(** The truth values the output so far leaves for the pending AND and OR. *)
Definition pending_values (has_and has_or c v : bool) : list bool :=
  (if has_and then [c] else []) ++ (if has_or then [v] else []).


End Meaning.

(** *** What an index holds *)

Module Contents.

(** The terms [add_postings] enters for a text: its tokens, stemmed when
    asked, the empty ones left out. *)
Definition terms_of (use_stem : bool) (text : str) : list str :=
  filter (λ term, term ≠ [])
    (map (λ tok, if use_stem then Stemmer.stem_token tok else tok)
       (Tokenizer.tokens_of Builder.tok text)).

(** The ids, counted from [d] on, of the documents whose text has the
    term. *)
Fixpoint containing_from (use_stem : bool) (term : str)
    (documents : list (str * str)) (d : nat) : list N :=
  match documents with
  | [] => []
  | record :: documents' =>
      if bool_decide (term ∈ terms_of use_stem record.2)
      then N.of_nat d :: containing_from use_stem term documents' (S d)
      else containing_from use_stem term documents' (S d)
  end.

Definition containing (use_stem : bool) (documents : list (str * str))
    (term : str) : list N :=
  containing_from use_stem term documents 0.

(** A posting list [old] once the ids [new] follow it; no entry at all
    when there was none and nothing follows. *)
Definition extend (old : option (list N)) (new : list N) : option (list N) :=
  match new with
  | [] => old
  | _ => Some (default [] old ++ new)
  end.

End Contents.

(** *** What a token is *)

Module Words.
Import Tokenizer.

(** Does a letter, a digit or a Cyrillic pair start the string? *)
Definition starts_word (s : str) : bool :=
  match s with
  | c :: rest =>
      is_ascii_letter c || is_digit c ||
      match rest with
      | c2 :: _ => is_cyrillic_start c c2
      | [] => false
      end
  | [] => false
  end.

(** Does one start somewhere in the string? *)
Fixpoint has_word (s : str) : bool :=
  starts_word s ||
  match s with
  | _ :: rest => has_word rest
  | [] => false
  end.

(** The number of leading dashes and apostrophes. *)
Fixpoint leading (s : str) : nat :=
  match s with
  | c :: rest => if is_dash_or_apostrophe c then S (leading rest) else 0
  | [] => 0
  end.

(** The bytes of [text] that a token covers. *)
Definition slice (text : str) (tok : Positions.Token) : str :=
  take (Positions.length tok) (drop (Positions.position tok) text).

(** Tokens in reading order, none before offset [i], none overlapping the
    next. *)
Fixpoint in_order (i : nat) (tokens : list Positions.Token) : Prop :=
  match tokens with
  | [] => True
  | tok :: rest =>
      i ≤ Positions.position tok ∧
      in_order (Positions.position tok + Positions.length tok) rest
  end.

(** A token covers bytes of the text, at least one, and its text is what
    those bytes are, lowered when lowercasing is on. *)
Definition covers (t : config) (text : str) (tok : Positions.Token) : Prop :=
  Positions.position tok + Positions.length tok ≤ length text ∧
  0 < Positions.length tok ∧
  (if lowercase_ t then to_lower (slice text tok) else Done (slice text tok))
  = Done (Positions.text tok).

End Words.

(** *** Readers of a byte stream *)

(** The stream with more bytes behind it. *)
Definition followed_by (s : Codec.stream) (more : str) : Codec.stream :=
  {| Codec.bytes := Codec.bytes s ++ more; Codec.good := Codec.good s;
     Codec.short := Codec.short s |}.

(** A reader that, whenever it leaves the stream good, found it good and
    looked at no byte beyond those it consumed: with more bytes behind the
    stream it returns the same value and leaves those bytes unread. *)
Definition reads_forward {A} (reader : Codec.stream → A * Codec.stream)
    : Prop :=
  ∀ s, Codec.good (reader s).2 = true →
       Codec.good s = true ∧
       ∀ more, reader (followed_by s more) = ((reader s).1, followed_by (reader s).2 more).

(** * Properties *)

(** ** Bytes *)

Lemma code_lt_256 c : code c < 256.
Proof. apply nat_ascii_bounded. Qed.

Lemma chr_code c : chr (code c) = c.
Proof. apply ascii_nat_embedding. Qed.

Lemma code_chr n : n < 256 → code (chr n) = n.
Proof. apply nat_ascii_embedding. Qed.

Lemma at_lt (s : str) i : i < length s → ∃ c, at_ s i = Done c.
Proof.
  intros Hi. unfold at_.
  destruct (lookup_lt_is_Some_2 s i Hi) as [c Hc]. rewrite Hc. eauto.
Qed.

(** ** The stemmer *)

Section StemmerFacts.
Import Stemmer.

Lemma rfind_from_le word suf p q : rfind_from word suf p = Some q → q ≤ p.
Proof.
  revert q. induction p as [|p IH]; intros q; simpl.
  - destruct (occurs_at word suf 0); [|done]. intros [= <-]. lia.
  - destruct (occurs_at word suf (S p)).
    + intros [= <-]. lia.
    + intros H. apply IH in H. lia.
Qed.

Lemma rfind_from_top word suf p :
  rfind_from word suf p = Some p ↔ occurs_at word suf p = true.
Proof.
  destruct p as [|p]; simpl.
  - destruct (occurs_at word suf 0); naive_solver.
  - destruct (occurs_at word suf (S p)) eqn:E; [naive_solver|].
    split; [|done]. intros H. apply rfind_from_le in H. lia.
Qed.

Lemma occurs_at_end (word suf : str) :
  length suf ≤ length word →
  occurs_at word suf (length word - length suf) = true ↔ suf `suffix_of` word.
Proof.
  intros Hlen. unfold occurs_at. rewrite bool_decide_eq_true.
  rewrite take_ge by (rewrite length_drop; lia).
  split.
  - intros H. exists (take (length word - length suf) word).
    rewrite <- H at 2. by rewrite take_drop.
  - intros [k ->]. rewrite length_app.
    replace (length k + length suf - length suf) with (length k) by lia.
    by rewrite drop_app_length.
Qed.

Lemma strippable_qualifies word suf :
  strippable word suf = true ↔ qualifies word suf.
Proof.
  unfold strippable, qualifies, rfind.
  rewrite andb_true_iff, Nat.ltb_lt.
  split; intros [Hlen H]; (split; [done|]).
  - destruct (Nat.ltb_spec (length word) (length suf)); [lia|].
    apply occurs_at_end; [lia|]. apply rfind_from_top.
    destruct (rfind_from _ _ _) as [q|] eqn:E; [|done].
    apply Nat.eqb_eq in H. by subst q.
  - destruct (Nat.ltb_spec (length word) (length suf)); [lia|].
    apply occurs_at_end in H; [|lia]. apply rfind_from_top in H.
    rewrite H. apply Nat.eqb_refl.
Qed.

Lemma strip_suffix_first word pre suf post :
  Forall (λ s, ¬ qualifies word s) pre → qualifies word suf →
  strip_suffix word (pre ++ suf :: post) = take (length word - length suf) word.
Proof.
  intros Hpre Hsuf. induction Hpre as [|s pre Hs _ IH]; simpl.
  - apply strippable_qualifies in Hsuf. by rewrite Hsuf.
  - destruct (strippable word s) eqn:E; [|done].
    apply strippable_qualifies in E. contradiction.
Qed.

Lemma strip_suffix_none word table :
  Forall (λ s, ¬ qualifies word s) table → strip_suffix word table = word.
Proof.
  induction 1 as [|s table Hs _ IH]; simpl; [done|].
  destruct (strippable word s) eqn:E; [|done].
  apply strippable_qualifies in E. contradiction.
Qed.

Lemma has_cyrillic_spec s :
  has_cyrillic s = true ↔ ∃ c, c ∈ s ∧ 0xD0 ≤ code c.
Proof.
  induction s as [|c s IH]; cbn [has_cyrillic].
  - split; [done|]. intros (c & Hc & _). by apply elem_of_nil in Hc.
  - destruct (Nat.leb_spec 0xD0 (code c)) as [Hc|Hc].
    + split; [|done]. intros _. exists c. split; [left|done].
    + rewrite IH. split.
      * intros (d & Hd & Hcode). exists d. split; [by right|done].
      * intros (d & Hd & Hcode). apply elem_of_cons in Hd as [->|Hd]; [lia|].
        eauto.
Qed.

Lemma stem_token_table token :
  2 < length token → stem_token token = strip_suffix token (table_for token).
Proof.
  intros H. unfold stem_token, table_for.
  destruct (Nat.leb_spec (length token) 2); [lia|].
  by destruct (has_cyrillic token).
Qed.

End StemmerFacts.

(** C7, as amended: a term of at most two bytes is returned unchanged; a
    longer term loses the first suffix, in the declared order of its table
    (the Russian table when some byte is at least 0xD0, the English one
    otherwise), that ends the term and leaves more than one BYTE in front
    of it, and is returned unchanged when no suffix of the table does. The
    stem of "a" is "a" and the stem of "running" is "runn". *)
Theorem stem_token_spec (token : str) :
  (length token ≤ 2 → Stemmer.stem_token token = token) ∧
  (2 < length token →
     ∀ pre suf post,
       Stemmer.table_for token = pre ++ suf :: post →
       Forall (λ s, ¬ Stemmer.qualifies token s) pre →
       Stemmer.qualifies token suf →
       Stemmer.stem_token token = take (length token - length suf) token ∧
       1 < length (Stemmer.stem_token token)) ∧
  (2 < length token →
     Forall (λ s, ¬ Stemmer.qualifies token s) (Stemmer.table_for token) →
     Stemmer.stem_token token = token) ∧
  ((Stemmer.table_for token = Stemmer.ru ∧ ∃ c, c ∈ token ∧ 0xD0 ≤ code c) ∨
   (Stemmer.table_for token = Stemmer.en ∧ ∀ c, c ∈ token → code c < 0xD0)) ∧
  Stemmer.stem_token (lit "a") = lit "a" ∧
  Stemmer.stem_token (lit "running") = lit "runn".
Proof.
  repeat split.
  - intros H. unfold Stemmer.stem_token.
    by destruct (Nat.leb_spec (length token) 2); [|lia].
  - rewrite stem_token_table, H0 by done. by apply strip_suffix_first.
  - rewrite stem_token_table, H0 by done.
    rewrite strip_suffix_first by done.
    destruct H2 as [Hlen _]. rewrite length_take. lia.
  - intros H Hnone. rewrite stem_token_table by done.
    by apply strip_suffix_none.
  - unfold Stemmer.table_for.
    destruct (Stemmer.has_cyrillic token) eqn:E.
    + left. split; [done|]. by apply has_cyrillic_spec.
    + right. split; [done|]. intros c Hc.
      destruct (Nat.lt_ge_cases (code c) 0xD0) as [|Hge]; [done|].
      assert (Stemmer.has_cyrillic token = true) as E'
        by (apply has_cyrillic_spec; eauto).
      congruence.
Qed.


Lemma running_long : 2 < length (lit "running").
Proof. vm_compute. lia. Qed.
Lemma running_table : Stemmer.table_for (lit "running") = take 15 Stemmer.en ++ lit "ing" :: drop 16 Stemmer.en.
Proof. vm_compute. reflexivity. Qed.
Lemma running_not_strippable : Forall (λ s, Stemmer.strippable (lit "running") s = false) (take 15 Stemmer.en).
Proof. vm_compute. repeat constructor. Qed.
Lemma running_not_qualified : Forall (λ s, ¬ Stemmer.qualifies (lit "running") s) (take 15 Stemmer.en).
Proof.
  apply (Forall_impl _ _ _ running_not_strippable).
  intros s Hs Hq. apply strippable_qualifies in Hq. congruence.
Qed.
Lemma running_ing : Stemmer.qualifies (lit "running") (lit "ing").
Proof. apply strippable_qualifies. vm_compute. reflexivity. Qed.
Lemma stem_token_spec_witness :
  Stemmer.stem_token (lit "running")
  = take (length (lit "running") - length (lit "ing")) (lit "running") ∧
  1 < length (Stemmer.stem_token (lit "running")).
Proof.
  exact (proj1 (proj2 (stem_token_spec (lit "running"))) running_long
            (take 15 Stemmer.en) (lit "ing") (drop 16 Stemmer.en) running_table running_not_qualified running_ing).
Defined.

(** C7 as stated fails on Cyrillic terms: "мой" loses "ой" although the
    remainder "м" is a single character, where a stemmer that counts the
    remainder in characters keeps the term whole. *)
Lemma stem_token_leaves_one_character :
  2 < length (lit "мой") ∧
  Stemmer.table_for (lit "мой") = Stemmer.ru ∧
  Stemmer.stem_token (lit "мой") = lit "м" ∧
  Tokenizer.utf8_char_count (Stemmer.stem_token (lit "мой")) = Done 1 ∧
  StemmerAsStated.stem (lit "мой") = lit "мой" ∧
  Stemmer.stem_token (lit "мой") ≠ StemmerAsStated.stem (lit "мой").
Proof.
  split; [vm_compute; lia|].
  split; [vm_compute; reflexivity|].
  split; [vm_compute; reflexivity|].
  split; [vm_compute; reflexivity|].
  split; [vm_compute; reflexivity|].
  intros H. apply (f_equal length) in H. vm_compute in H. discriminate H.
Qed.
(** ** The tokenizer *)

Section TokenizerFacts.
Import Tokenizer.

Lemma is_token_char_done text pos kd ka :
  ∃ tc advance, is_token_char text pos kd ka = Done (tc, advance) ∧
    (pos < length text →
     1 ≤ advance ≤ 2 ∧ (tc = true → pos + advance ≤ length text)).
Proof.
  unfold is_token_char.
  destruct (Nat.leb_spec (length text) pos) as [Hge|Hlt].
  { eexists _, _. split; [done|]. intros; split; [lia|]. intros; lia. }
  destruct (at_lt text pos Hlt) as [c ->]. cbn [obind].
  destruct (is_ascii_letter c || is_digit c).
  { eexists _, _. split; [done|]. intros; split; [lia|]. intros; lia. }
  destruct (Nat.ltb_spec (pos + 1) (length text)) as [Hlt2|Hge2].
  - destruct (at_lt text (pos + 1) Hlt2) as [c2 ->]. cbn [obind].
    destruct (is_cyrillic_start c c2).
    { eexists _, _. split; [done|]. intros; split; [lia|]. intros; lia. }
    destruct (kd && bool_decide (c = "-"%char));
      [eexists _, _; split; [done|intros; split; [lia|intros; lia]]|].
    destruct (ka && bool_decide (c = "'"%char));
      eexists _, _; (split; [done|intros; split; [lia|intros; lia]]).
  - cbn [obind].
    destruct (kd && bool_decide (c = "-"%char));
      [eexists _, _; split; [done|intros; split; [lia|intros; lia]]|].
    destruct (ka && bool_decide (c = "'"%char));
      eexists _, _; (split; [done|intros; split; [lia|intros; lia]]).
Qed.

Lemma skip_separators_done t text fuel i :
  length text - i ≤ fuel →
  ∃ i', skip_separators fuel t text i = Done i' ∧ i ≤ i' ∧
    (i ≤ length text → i' ≤ length text) ∧
    (i' < length text →
       ∃ advance, is_token_char text i' (keep_dashes_ t) (keep_apostrophes_ t)
                  = Done (true, advance)).
Proof.
  revert i. induction fuel as [|fuel IH]; intros i Hfuel;
    cbn [skip_separators];
    (destruct (Nat.ltb_spec i (length text)) as [Hlt|Hge];
      [|exists i; repeat split; [lia..|intros; lia]]);
    destruct (is_token_char_done text i (keep_dashes_ t) (keep_apostrophes_ t))
      as (tc & advance & Htc & _); rewrite Htc; cbn [obind];
    (destruct tc; [exists i; repeat split; [lia..|eauto]|]).
  - lia.
  - destruct (IH (S i)) as (i' & -> & Hle & Hbound & Hchar); [lia|].
    exists i'. repeat split; [lia|intros; apply Hbound; lia|done].
Qed.

Lemma scan_token_done t text fuel i :
  length text - i ≤ fuel → i ≤ length text →
  ∃ i', scan_token fuel t text i = Done i' ∧ i ≤ i' ≤ length text ∧
    (i < length text →
     (∃ advance, is_token_char text i (keep_dashes_ t) (keep_apostrophes_ t)
                 = Done (true, advance)) →
     i < i').
Proof.
  revert i. induction fuel as [|fuel IH]; intros i Hfuel Hi;
    cbn [scan_token];
    (destruct (Nat.ltb_spec i (length text)) as [Hlt|Hge];
      [|exists i; repeat split; [lia..|intros; lia]]);
    destruct (is_token_char_done text i (keep_dashes_ t) (keep_apostrophes_ t))
      as (tc & advance & Htc & Hadv); rewrite Htc; cbn [obind];
    (destruct tc;
      [|exists i; repeat split; [lia..|intros _ [a Ha]; congruence]]).
  - lia.
  - destruct (Hadv Hlt) as [Hadv1 Hadv2]. specialize (Hadv2 eq_refl).
    destruct (IH (i + advance)) as (i' & -> & Hle & _); [lia..|].
    exists i'. repeat split; [lia..|intros; lia].
Qed.

Lemma utf8_width_pos c : 1 ≤ utf8_width c.
Proof.
  unfold utf8_width.
  destruct (code c <? 0x80); [lia|].
  destruct (Nat.land (code c) 0xE0 =? 0xC0); [lia|].
  destruct (Nat.land (code c) 0xF0 =? 0xE0); [lia|].
  destruct (Nat.land (code c) 0xF8 =? 0xF0); lia.
Qed.

Lemma utf8_count_from_done fuel s i :
  length s - i ≤ fuel → ∃ n, utf8_count_from fuel s i = Done n.
Proof.
  revert i. induction fuel as [|fuel IH]; intros i Hfuel;
    cbn [utf8_count_from];
    (destruct (Nat.ltb_spec i (length s)) as [Hlt|Hge]; [|eauto]).
  - lia.
  - destruct (at_lt s i Hlt) as [c ->]. cbn [obind].
    pose proof (utf8_width_pos c).
    destruct (IH (i + utf8_width c)) as [n ->]; [lia|].
    cbn [obind]. eauto.
Qed.

Lemma has_word_char_from_done fuel token i :
  length token - i ≤ fuel → ∃ found, has_word_char_from fuel token i = Done found.
Proof.
  revert i. induction fuel as [|fuel IH]; intros i Hfuel;
    cbn [has_word_char_from];
    (destruct (Nat.ltb_spec i (length token)) as [Hlt|Hge]; [|eauto]).
  - lia.
  - destruct (at_lt token i Hlt) as [c ->]. cbn [obind].
    destruct (is_ascii_letter c || is_digit c); [eauto|].
    destruct (Nat.ltb_spec (i + 1) (length token)) as [Hlt2|Hge2].
    + destruct (at_lt token (i + 1) Hlt2) as [c2 ->]. cbn [obind].
      destruct (is_cyrillic_start c c2); [eauto|]. apply IH. lia.
    + cbn [obind]. apply IH. lia.
Qed.

Lemma is_valid_token_done t token : ∃ valid, is_valid_token t token = Done valid.
Proof.
  unfold is_valid_token, utf8_char_count. destruct token as [|c token]; [eauto|].
  destruct (utf8_count_from_done (length (c :: token)) (c :: token) 0) as [n ->];
    [lia|].
  cbn [obind]. destruct (n <? min_token_length_ t); [eauto|].
  apply has_word_char_from_done. lia.
Qed.

Lemma to_lower_from_done fuel s i result :
  length s - i ≤ fuel → i ≤ length s →
  ∃ r, to_lower_from fuel s i result = Done r ∧
       length r = length result + (length s - i).
Proof.
  revert i result. induction fuel as [|fuel IH]; intros i result Hfuel Hi;
    cbn [to_lower_from];
    (destruct (Nat.ltb_spec i (length s)) as [Hlt|Hge];
      [|exists result; split; [done|lia]]).
  - lia.
  - destruct (at_lt s i Hlt) as [c ->]. cbn [obind].
    assert (∀ x : ascii, ∃ r,
              to_lower_from fuel s (i + 1) (result ++ [x]) = Done r ∧
              length r = length result + (length s - i)) as Hone.
    { intros x. destruct (IH (i + 1) (result ++ [x])) as (r & -> & Hr); [lia..|].
      exists r. split; [done|]. rewrite length_app in Hr. cbn [length] in Hr. lia. }
    assert (i + 1 < length s → ∀ x y : ascii, ∃ r,
              to_lower_from fuel s (i + 2) (result ++ [x; y]) = Done r ∧
              length r = length result + (length s - i)) as Htwo.
    { intros Hlt2 x y.
      destruct (IH (i + 2) (result ++ [x; y])) as (r & -> & Hr); [lia..|].
      exists r. split; [done|]. rewrite length_app in Hr. cbn [length] in Hr. lia. }
    destruct (is_upper c); [apply Hone|].
    destruct (Nat.ltb_spec (i + 1) (length s)) as [Hlt2|Hge2]; cbn [andb];
      [|cbn [obind]; apply Hone].
    destruct (code c =? 0xD0); [|cbn [obind]; apply Hone].
    destruct (at_lt s (i + 1) Hlt2) as [c2 ->]. cbn [obind].
    destruct ((0x90 <=? code c2) && (code c2 <=? 0xAF)); [by apply Htwo|].
    destruct (code c2 =? 0x81); [by apply Htwo|apply Hone].
Qed.

Lemma to_lower_done s : ∃ r, to_lower s = Done r ∧ length r = length s.
Proof.
  destruct (to_lower_from_done (length s) s 0 []) as (r & H & Hr); [lia..|].
  exists r. split; [done|]. cbn [length] in Hr. lia.
Qed.

Lemma trim_front_length token : length (trim_front token) ≤ length token.
Proof.
  induction token as [|c token IH]; cbn [trim_front length]; [lia|].
  destruct (is_dash_or_apostrophe c); cbn [length]; lia.
Qed.

Lemma trim_back_length token : length (trim_back token) ≤ length token.
Proof.
  unfold trim_back. rewrite length_rev.
  etrans; [apply trim_front_length|]. by rewrite length_rev.
Qed.

Lemma next_token_done t text i :
  i < length text →
  ∃ i' tok, next_token t text i = Done (i', tok) ∧ i < i' ≤ length text ∧
    ∀ w, tok = Some w → length w ≤ length text.
Proof.
  intros Hi. unfold next_token.
  destruct (skip_separators_done t text (length text) i)
    as (i1 & -> & Hle1 & Hbound1 & Hchar1); [lia|]. cbn [obind].
  destruct (Nat.ltb_spec i1 (length text)) as [Hlt1|Hge1].
  - destruct (scan_token_done t text (length text) i1)
      as (i2 & -> & Hle2 & Hadv2); [lia..|]. cbn [obind].
    unfold substr. destruct (Nat.ltb_spec (length text) i1); [lia|].
    cbn [obind].
    set (raw := take (i2 - i1) (drop i1 text)).
    assert (length (trim_back (trim_front raw)) ≤ length text) as Htrim.
    { etrans; [apply trim_back_length|]. etrans; [apply trim_front_length|].
      subst raw. rewrite length_take, length_drop. lia. }
    assert (∃ token,
              (if lowercase_ t then to_lower (trim_back (trim_front raw))
               else Done (trim_back (trim_front raw))) = Done token ∧
              length token ≤ length text) as (token & -> & Htoken).
    { destruct (lowercase_ t); [|eauto].
      destruct (to_lower_done (trim_back (trim_front raw))) as (r & -> & Hr).
      exists r. split; [done|lia]. }
    cbn [obind]. destruct (is_valid_token_done t token) as [valid ->].
    cbn [obind]. eexists _, _. split; [done|].
    split; [specialize (Hadv2 Hlt1 (Hchar1 Hlt1)); lia|].
    intros w Hw. destruct valid; [|done]. by injection Hw as <-.
  - eexists _, _. split; [done|]. split; [specialize (Hbound1 ltac:(lia)); lia|done].
Qed.

Lemma tokenize_from_done t text fuel i tokens :
  length text - i ≤ fuel →
  ∃ new, tokenize_from fuel t text i tokens = Done (tokens ++ new) ∧
    length new ≤ fuel ∧ Forall (λ w, length w ≤ length text) new.
Proof.
  revert i tokens. induction fuel as [|fuel IH]; intros i tokens Hfuel;
    cbn [tokenize_from];
    (destruct (Nat.ltb_spec i (length text)) as [Hlt|Hge];
      [|exists []; rewrite app_nil_r; repeat split; [cbn; lia|constructor]]).
  - lia.
  - destruct (next_token_done t text i Hlt) as (i' & tok & -> & Hi' & Htok).
    cbn [obind].
    destruct (IH i' (tokens ++ option_list tok)) as (new & -> & Hlen & Hall);
      [lia|].
    exists (option_list tok ++ new). rewrite app_assoc. split; [done|].
    split.
    + rewrite length_app. destruct tok; cbn; lia.
    + apply Forall_app. split; [|done].
      destruct tok as [w|]; cbn; [|constructor].
      constructor; [by apply Htok|constructor].
Qed.

Lemma tokenize_done t text :
  ∃ tokens, tokenize t text = Done tokens ∧ tokens_of t text = tokens ∧
    length tokens ≤ length text ∧ Forall (λ w, length w ≤ length text) tokens.
Proof.
  unfold tokens_of, tokenize.
  destruct (tokenize_from_done t text (length text) 0 []) as (new & -> & ? & ?);
    [lia|].
  exists new. done.
Qed.

End TokenizerFacts.

(** C9: [tokenize] returns a token list for every byte string and every
    configuration, with no access out of bounds and within its iteration
    budget; every turn of its outer loop moves the scan forward by at least
    one byte without leaving the text; and at every position of the text
    [is_token_char] answers without reading past the end, leaves an advance
    of one or two bytes, and never lets a token character reach beyond the
    end of the text. *)
Theorem tokenize_total (t : Tokenizer.config) (text : str) :
  (∃ tokens, Tokenizer.tokenize t text = Done tokens) ∧
  (∀ i, i < length text →
     ∃ i' tok, Tokenizer.next_token t text i = Done (i', tok) ∧
               i < i' ≤ length text) ∧
  (∀ pos, pos < length text →
     ∃ tc advance,
       Tokenizer.is_token_char text pos (Tokenizer.keep_dashes_ t)
         (Tokenizer.keep_apostrophes_ t) = Done (tc, advance) ∧
       1 ≤ advance ≤ 2 ∧ (tc = true → pos + advance ≤ length text)).
Proof.
  split; [|split].
  - destruct (tokenize_done t text) as (tokens & H & _). eauto.
  - intros i Hi.
    destruct (next_token_done t text i Hi) as (i' & tok & H & Hi' & _). eauto.
  - intros pos Hpos.
    destruct (is_token_char_done text pos (Tokenizer.keep_dashes_ t)
                (Tokenizer.keep_apostrophes_ t)) as (tc & advance & H & Hadv).
    destruct (Hadv Hpos) as [? ?]. eauto.
Qed.

Lemma tokenize_total_witness :
  ∃ i' tok, Tokenizer.next_token Tokenizer.default (lit "a-Б ") 0 = Done (i', tok) ∧
            0 < i' ≤ length (lit "a-Б ").
Proof.
  apply (proj1 (proj2 (tokenize_total Tokenizer.default (lit "a-Б "))) 0).
  vm_compute. lia.
Defined.

(** C3: on the capital letters Р to Я (lead byte 0xD0, trail byte 0xA0 to
    0xAF) [to_lower] keeps the lead byte and adds 0x20 to the trail byte.
    The result (0xD0 followed by 0xC0 to 0xCF) is not the lowercase letter,
    which has lead byte 0xD1 and trail byte 0x80 to 0x8F, and is not UTF-8
    at all: "Р" becomes D0 C0 where "р" is D1 80, and "Я" becomes D0 CF
    where "я" is D1 8F. The letters А to П, the letter Ё and the ASCII
    letters are lowered as claimed. *)
Theorem to_lower_capital_er :
  Tokenizer.to_lower (lit "Р") = Done [chr 0xD0; chr 0xC0] ∧
  lit "р" = [chr 0xD1; chr 0x80] ∧
  Tokenizer.to_lower (lit "Я") = Done [chr 0xD0; chr 0xCF] ∧
  lit "я" = [chr 0xD1; chr 0x8F] ∧
  Tokenizer.to_lower (lit "АП") = Done (lit "ап") ∧
  Tokenizer.to_lower (lit "Ё") = Done (lit "ё") ∧
  Tokenizer.to_lower (lit "AZ") = Done (lit "az") ∧
  Tokenizer.tokenize Tokenizer.default (lit "Р") = Done [].
Proof. repeat split; vm_compute; reflexivity. Qed.

(** ** The query engine *)

Section SetAlgebra.
Import Query.

Lemma set_and_step x a y b :
  set_and (x :: a) (y :: b) =
  if (x =? y)%N then x :: set_and a b
  else if (x <? y)%N then set_and a (y :: b)
  else set_and (x :: a) b.
Proof. reflexivity. Qed.

Lemma set_and_nil_r a : set_and a [] = [].
Proof. by destruct a. Qed.

Lemma set_not_step u us y b :
  set_not (u :: us) (y :: b) =
  if (u =? y)%N then set_not us b
  else if (u <? y)%N then u :: set_not us (y :: b)
  else set_not (u :: us) b.
Proof. reflexivity. Qed.

Lemma set_not_nil_r us : set_not us [] = us.
Proof. by destruct us. Qed.

Lemma set_or_step x a y b back :
  set_or_from (x :: a) (y :: b) back =
  if (x <=? y)%N then push_new back x (set_or_from a (y :: b) (Some x))
  else push_new back y (set_or_from (x :: a) b (Some y)).
Proof. reflexivity. Qed.

Lemma set_or_nil_r x a back :
  set_or_from (x :: a) [] back = push_new back x (set_or_from a [] (Some x)).
Proof. reflexivity. Qed.

Lemma set_and_sublist a b : set_and a b `sublist_of` a.
Proof.
  revert b. induction a as [|x a IHa]; intros b; [constructor|].
  induction b as [|y b IHb]; [rewrite set_and_nil_r; apply sublist_nil_l|].
  rewrite set_and_step.
  destruct (x =? y)%N; [by constructor|].
  destruct (x <? y)%N; [by constructor|done].
Qed.

Lemma set_and_elem_of_r a b v : v ∈ set_and a b → v ∈ b.
Proof.
  revert b. induction a as [|x a IHa]; intros b; [by intros ?%elem_of_nil|].
  induction b as [|y b IHb]; [by rewrite set_and_nil_r|].
  rewrite set_and_step.
  destruct (N.eqb_spec x y) as [->|Hne].
  - intros [->|Hv]%elem_of_cons; [left|right; by apply IHa].
  - destruct (x <? y)%N; [apply IHa|]. intros Hv. right. by apply IHb.
Qed.

Lemma set_not_sublist universe b : set_not universe b `sublist_of` universe.
Proof.
  revert b. induction universe as [|u us IHu]; intros b; [constructor|].
  induction b as [|y b IHb]; [by rewrite set_not_nil_r|].
  rewrite set_not_step.
  destruct (u =? y)%N; [by constructor|].
  destruct (u <? y)%N; [by constructor|done].
Qed.

Lemma StronglySorted_sublist {A} (R : relation A) (l k : list A) :
  l `sublist_of` k → StronglySorted R k → StronglySorted R l.
Proof.
  induction 1 as [|x l k Hsub IH|x l k Hsub IH];
    rewrite ?StronglySorted_cons; [done|..].
  - intros [Hall Hk]. split; [|by apply IH].
    rewrite Forall_forall in *. intros y Hy. apply Hall.
    by apply (sublist_subseteq _ _ Hsub).
  - intros [_ Hk]. by apply IH.
Qed.

Lemma posting_list_sublist n (l k : list N) :
  l `sublist_of` k → posting_list n k → posting_list n l.
Proof.
  intros Hsub [Hsorted Hbound]. split.
  - by apply (StronglySorted_sublist _ _ _ Hsub).
  - rewrite Forall_forall in *. intros d Hd. apply Hbound.
    by apply (sublist_subseteq _ _ Hsub).
Qed.

(** What [set_or_from] appends: every element of either side, unless it
    is the element just pushed. *)
Lemma push_new_head back v rest : v ∈ push_new back v rest ∨ back = Some v.
Proof.
  unfold push_new. destruct back as [u|]; [|left; left].
  destruct (N.eqb_spec u v) as [->|Hne]; [by right|left; left].
Qed.

Lemma push_new_rest back u rest v : v ∈ rest → v ∈ push_new back u rest.
Proof.
  intros Hv. unfold push_new. destruct back as [w|]; [|by right].
  destruct (w =? u)%N; [done|by right].
Qed.

Lemma push_new_covers back u rest v :
  v ∈ rest ∨ Some u = Some v → v ∈ push_new back u rest ∨ back = Some v.
Proof.
  intros [Hv|[= <-]]; [left; by apply push_new_rest|apply push_new_head].
Qed.

Lemma set_or_tail_covers l back v :
  v ∈ l → v ∈ set_or_tail l back ∨ back = Some v.
Proof.
  revert back. induction l as [|x l IH]; intros back; [by intros ?%elem_of_nil|].
  cbn [set_or_tail]. intros Hv. apply push_new_covers.
  apply elem_of_cons in Hv as [Hv|Hv]; [right; by rewrite Hv|by apply IH].
Qed.

Lemma set_or_from_covers a b back v :
  v ∈ a ∨ v ∈ b → v ∈ set_or_from a b back ∨ back = Some v.
Proof.
  revert b back. induction a as [|x a IHa]; intros b back.
  { intros [?%elem_of_nil|Hv]; [done|]. by apply set_or_tail_covers. }
  revert back. induction b as [|y b IHb]; intros back Hv.
  - rewrite set_or_nil_r. apply push_new_covers.
    destruct Hv as [Hv|?%elem_of_nil]; [|done].
    apply elem_of_cons in Hv as [Hv|Hv]; [right; by rewrite Hv|].
    apply IHa. by left.
  - rewrite set_or_step. destruct (x <=? y)%N; apply push_new_covers.
    + destruct Hv as [Hv|Hv]; [|apply IHa; by right].
      apply elem_of_cons in Hv as [Hv|Hv]; [right; by rewrite Hv|].
      apply IHa. by left.
    + destruct Hv as [Hv|Hv]; [apply IHb; by left|].
      apply elem_of_cons in Hv as [Hv|Hv]; [right; by rewrite Hv|].
      apply IHb. by right.
Qed.

Lemma set_or_superset a b v : v ∈ a ∨ v ∈ b → v ∈ set_or a b.
Proof.
  intros Hv. by destruct (set_or_from_covers a b None v Hv).
Qed.

Lemma push_new_sorted back x rest :
  StronglySorted N.lt rest → Forall (N.lt x) rest → not_above back x →
  StronglySorted N.lt (push_new back x rest) ∧
  Forall (below back) (push_new back x rest).
Proof.
  intros Hsorted Hrest Hback. unfold push_new.
  destruct back as [w|]; cbn [not_above below] in *.
  - destruct (N.eqb_spec w x) as [->|Hne]; [done|].
    assert (w < x)%N by lia. split; [by constructor|].
    constructor; [done|]. eapply Forall_impl; [exact Hrest|]. cbn. lia.
  - split; [by constructor|]. by apply Forall_forall.
Qed.

Lemma push_new_subseteq back x rest : push_new back x rest ⊆ x :: rest.
Proof.
  intros v Hv. unfold push_new in Hv. destruct back as [w|]; [|done].
  destruct (w =? x)%N; [by right|done].
Qed.

Lemma push_new_incl back x rest (k : list N) :
  rest ⊆ k → push_new back x rest ⊆ x :: k.
Proof.
  intros Hsub v Hv%push_new_subseteq.
  apply elem_of_cons in Hv as [->|Hv]; [left|right; by apply Hsub].
Qed.

Lemma push_new_incl_middle back y rest (a b : list N) :
  rest ⊆ a ++ b → push_new back y rest ⊆ a ++ y :: b.
Proof.
  intros Hsub v Hv%push_new_subseteq. apply elem_of_app.
  apply elem_of_cons in Hv as [->|Hv]; [right; left|].
  apply Hsub, elem_of_app in Hv as [?|?]; [by left|right; by right].
Qed.

Lemma set_or_tail_sorted l back :
  StronglySorted N.lt l → Forall (not_above back) l →
  StronglySorted N.lt (set_or_tail l back) ∧
  Forall (below back) (set_or_tail l back) ∧
  set_or_tail l back ⊆ l.
Proof.
  revert back. induction l as [|x l IH]; intros back Hsorted Hback.
  { cbn. repeat split; [constructor..|done]. }
  apply StronglySorted_cons in Hsorted as [Hx Hsorted].
  apply Forall_cons in Hback as [Hbx Hback].
  destruct (IH (Some x) Hsorted) as (IH1 & IH2 & IH3).
  { eapply Forall_impl; [exact Hx|]. cbn. lia. }
  cbn [set_or_tail].
  destruct (push_new_sorted back x _ IH1 IH2 Hbx) as [? ?].
  repeat split; [done..|]. by apply push_new_incl.
Qed.

Lemma set_or_from_sorted a b back :
  StronglySorted N.lt a → StronglySorted N.lt b →
  Forall (not_above back) a → Forall (not_above back) b →
  StronglySorted N.lt (set_or_from a b back) ∧
  Forall (below back) (set_or_from a b back) ∧
  set_or_from a b back ⊆ a ++ b.
Proof.
  revert b back. induction a as [|x a IHa]; intros b back Ha Hb Hba Hbb.
  { by apply set_or_tail_sorted. }
  apply StronglySorted_cons in Ha as [Hx Ha].
  apply Forall_cons in Hba as [Hbx Hba].
  revert back Hb Hbx Hba Hbb.
  induction b as [|y b IHb]; intros back Hb Hbx Hba Hbb.
  - rewrite set_or_nil_r.
    destruct (IHa [] (Some x) Ha Hb) as (IH1 & IH2 & IH3);
      [eapply Forall_impl; [exact Hx|]; cbn; lia|constructor|].
    destruct (push_new_sorted back x _ IH1 IH2 Hbx) as [? ?].
    repeat split; [done..|]. by apply (push_new_incl _ _ _ (a ++ [])).
  - rewrite set_or_step.
    apply StronglySorted_cons in Hb as [Hy Hb].
    apply Forall_cons in Hbb as [Hby Hbb].
    destruct (N.leb_spec x y) as [Hxy|Hxy].
    + destruct (IHa (y :: b) (Some x) Ha) as (IH1 & IH2 & IH3).
      * by constructor.
      * eapply Forall_impl; [exact Hx|]. cbn. lia.
      * constructor; [done|]. eapply Forall_impl; [exact Hy|]. cbn. lia.
      * destruct (push_new_sorted back x _ IH1 IH2 Hbx) as [? ?].
        repeat split; [done..|]. by apply (push_new_incl _ _ _ (a ++ y :: b)).
    + destruct (IHb (Some y) Hb) as (IH1 & IH2 & IH3).
      * cbn. lia.
      * eapply Forall_impl; [exact Hx|]. cbn. lia.
      * eapply Forall_impl; [exact Hy|]. cbn. lia.
      * destruct (push_new_sorted back y _ IH1 IH2 Hby) as [? ?].
        repeat split; [done..|]. by apply (push_new_incl_middle _ _ _ (x :: a)).
Qed.

Lemma set_and_posting_list n a b :
  posting_list n a → posting_list n (set_and a b).
Proof. apply posting_list_sublist, set_and_sublist. Qed.

Lemma set_not_posting_list n universe b :
  posting_list n universe → posting_list n (set_not universe b).
Proof. apply posting_list_sublist, set_not_sublist. Qed.

Lemma set_or_posting_list n a b :
  posting_list n a → posting_list n b → posting_list n (set_or a b).
Proof.
  intros [Ha Hna] [Hb Hnb].
  destruct (set_or_from_sorted a b None Ha Hb) as (Hsorted & _ & Hsub);
    [by apply Forall_forall..|].
  split; [done|]. rewrite Forall_forall in *. intros d Hd.
  apply Hsub, elem_of_app in Hd as [?|?]; eauto.
Qed.

Lemma seq_increasing i n : StronglySorted lt (seq i n).
Proof.
  revert i. induction n as [|n IH]; intros i; cbn [seq]; constructor; [done|].
  apply Forall_forall. intros j Hj%elem_of_seq. lia.
Qed.

Lemma universe_posting_list n :
  posting_list n (map N.of_nat (seq 0 n)).
Proof.
  split.
  - apply (StronglySorted_fmap _ lt); [lia|]. apply seq_increasing.
  - apply Forall_forall. intros d (i & -> & Hi%elem_of_seq)%list_elem_of_fmap.
    lia.
Qed.

End SetAlgebra.

Section Evaluator.
Import Query.

Lemma fill_universe_done n :
  (N.of_nat n < 2 ^ 32)%N → fill_universe n = Done (map N.of_nat (seq 0 n)).
Proof.
  intros Hn. unfold fill_universe.
  by destruct (N.leb_spec (2 ^ 32) (N.of_nat n)); [lia|].
Qed.

Lemma run_well_formed idx n universe postfix stack :
  posting_list n universe →
  (∀ term, posting_list n (postings_for idx term)) →
  Forall (posting_list n) stack →
  well_formed postfix (length stack) = true →
  ∃ stack', run idx universe postfix stack = Done stack' ∧
            Forall (posting_list n) stack'.
Proof.
  intros Huniverse Hidx. revert stack.
  induction postfix as [|[op term] postfix IH]; intros stack Hstack Hwf;
    [by exists stack|].
  cbn [run well_formed type] in *. destruct op.
  - apply IH; [|done]. by constructor.
  - apply andb_true_iff in Hwf as [Hdepth Hwf]. apply Nat.leb_le in Hdepth.
    destruct stack as [|b [|a stack]]; cbn [length Nat.sub] in *; [lia..|].
    apply Forall_cons in Hstack as [Hb [Ha Hstack]%Forall_cons].
    apply IH; [|done].
    constructor; [by apply set_and_posting_list|done].
  - apply andb_true_iff in Hwf as [Hdepth Hwf]. apply Nat.leb_le in Hdepth.
    destruct stack as [|b [|a stack]]; cbn [length Nat.sub] in *; [lia..|].
    apply Forall_cons in Hstack as [Hb [Ha Hstack]%Forall_cons].
    apply IH; [|done].
    constructor; [by apply set_or_posting_list|done].
  - apply andb_true_iff in Hwf as [Hdepth Hwf]. apply Nat.leb_le in Hdepth.
    destruct stack as [|a stack]; cbn [length] in *; [lia|].
    apply Forall_cons in Hstack as [Ha Hstack].
    apply IH; [|done].
    constructor; [by apply set_not_posting_list|done].
Qed.

End Evaluator.

(** ** The builder *)

Section BuilderFacts.
Import Builder.

Lemma sort_sorted v : StronglySorted N.le (sort v).
Proof. apply StronglySorted_merge_sort; apply _. Qed.

Lemma sort_elem_of v x : x ∈ sort v ↔ x ∈ v.
Proof. unfold sort. by rewrite merge_sort_Permutation. Qed.

Lemma unique_after_sorted prev v :
  StronglySorted N.le v → Forall (N.le prev) v →
  StronglySorted N.lt (unique_after prev v) ∧
  Forall (N.lt prev) (unique_after prev v) ∧
  ∀ x, x ∈ unique_after prev v → x ∈ v.
Proof.
  revert prev. induction v as [|y v IH]; intros prev Hsorted Hprev.
  { cbn. repeat split; [constructor..|done]. }
  apply StronglySorted_cons in Hsorted as [Hy Hsorted].
  apply Forall_cons in Hprev as [Hpy Hprev].
  cbn [unique_after]. destruct (N.eqb_spec y prev) as [->|Hne].
  - destruct (IH prev Hsorted Hprev) as (? & ? & Hsub).
    repeat split; [done..|]. intros x Hx. right. by apply Hsub.
  - destruct (IH y Hsorted Hy) as (Hs & Hlt & Hsub).
    repeat split.
    + by constructor.
    + constructor; [lia|]. eapply Forall_impl; [exact Hlt|]. cbn. lia.
    + intros x [->|Hx]%elem_of_cons; [left|right; by apply Hsub].
Qed.

Lemma unique_sorted v :
  StronglySorted N.le v →
  StronglySorted N.lt (unique v) ∧ ∀ x, x ∈ unique v → x ∈ v.
Proof.
  destruct v as [|y v]; [intros _; split; [constructor|done]|].
  intros [Hy Hsorted]%StronglySorted_cons.
  destruct (unique_after_sorted y v Hsorted Hy) as (Hs & Hlt & Hsub).
  cbn [unique]. split; [by constructor|].
  intros x [->|Hx]%elem_of_cons; [left|right; by apply Hsub].
Qed.

Lemma finalize_lookup idx term plist :
  postings (finalize idx) !! term = Some plist →
  ∃ v, postings idx !! term = Some v ∧ plist = unique (sort v).
Proof.
  unfold finalize. cbn [postings]. rewrite lookup_fmap.
  destruct (postings idx !! term) as [v|]; [|done].
  intros [= <-]. eauto.
Qed.

Lemma finalize_sorted idx term plist :
  postings (finalize idx) !! term = Some plist →
  StronglySorted N.lt plist ∧
  ∃ v, postings idx !! term = Some v ∧ ∀ x, x ∈ plist → x ∈ v.
Proof.
  intros (v & Hv & ->)%finalize_lookup.
  destruct (unique_sorted (sort v) (sort_sorted v)) as [Hs Hsub].
  split; [done|]. exists v. split; [done|].
  intros x Hx. by apply sort_elem_of, Hsub.
Qed.

Lemma StronglySorted_lt_NoDup (l : list N) : StronglySorted N.lt l → NoDup l.
Proof.
  induction 1 as [|x l _ IH Hx]; constructor; [|done].
  intros Hin. rewrite Forall_forall in Hx. specialize (Hx x Hin). lia.
Qed.

(** Skipped lines leave no trace: reading the lines is ingesting the
    records that parse. *)
Lemma read_lines_ingest use_stem st lines :
  foldl (read_line use_stem) st lines
  = foldl (ingest use_stem) st (omap parse_line lines).
Proof.
  revert st. induction lines as [|line lines IH]; intros st; [done|].
  change (omap parse_line (line :: lines))
    with (match parse_line line with
          | Some record => record :: omap parse_line lines
          | None => omap parse_line lines
          end).
  change (foldl (read_line use_stem) st (line :: lines))
    with (foldl (read_line use_stem)
            (match parse_line line with
             | None => st
             | Some record => ingest use_stem st record
             end) lines).
  destruct (parse_line line) as [record|]; cbn [foldl]; apply IH.
Qed.

Lemma ingest_docs use_stem st record :
  docs (ingest use_stem st record).1 = docs st.1 ++ [record.1] ∧
  (ingest use_stem st record).2 = u32 (st.2 + 1).
Proof. by destruct st as [idx doc_id], record as [id text]. Qed.

Lemma ingest_all_docs use_stem st records :
  docs (foldl (ingest use_stem) st records).1 = docs st.1 ++ records.*1.
Proof.
  revert st. induction records as [|record records IH]; intros st;
    cbn [foldl fmap list_fmap]; [by rewrite app_nil_r|].
  rewrite IH. destruct (ingest_docs use_stem st record) as [-> _].
  by rewrite <- app_assoc.
Qed.

Lemma u32_succ n : u32 (u32 n + 1) = u32 (n + 1).
Proof.
  unfold u32. rewrite <- (N.Div0.add_mod_idemp_l n 1). done.
Qed.

Lemma ingest_all_doc_id use_stem st records :
  st.2 = u32 (N.of_nat (length (docs st.1))) →
  (foldl (ingest use_stem) st records).2
  = u32 (N.of_nat (length (docs (foldl (ingest use_stem) st records).1))).
Proof.
  revert st. induction records as [|record records IH]; intros st Hst;
    cbn [foldl]; [done|].
  apply IH. destruct (ingest_docs use_stem st record) as [-> ->].
  rewrite Hst, u32_succ, length_app. cbn [length]. f_equal. lia.
Qed.

End BuilderFacts.

(** C8: a line from which the id field or the text field cannot be
    extracted leaves the state of the read loop as it was (no new entry in
    the document table, the same next document id), and reading goes on:
    wherever the line stands in the corpus, the corpus is read as if the
    line were not there, the document table lists the ids of the lines
    that parse, in order, and the next document id is their number. *)
Theorem malformed_line_skipped (use_stem : bool) (st : Builder.state)
    (line : str) (before after : list str) :
  Builder.extract_field line (lit "id") = None ∨
  Builder.extract_field line (lit "text") = None →
  Builder.read_line use_stem st line = st ∧
  Builder.read_corpus use_stem (before ++ line :: after)
  = Builder.read_corpus use_stem (before ++ after) ∧
  docs (Builder.read_corpus use_stem (before ++ line :: after)).1
  = (omap Builder.parse_line (before ++ after)).*1 ∧
  (Builder.read_corpus use_stem (before ++ line :: after)).2
  = u32 (N.of_nat (length (omap Builder.parse_line (before ++ after)))).
Proof.
  intros Hfield.
  assert (Builder.parse_line line = None) as Hparse.
  { unfold Builder.parse_line. destruct line; [done|].
    destruct Hfield as [-> | Hfield]; [done|].
    destruct (Builder.extract_field _ (lit "id")); [|done]. by rewrite Hfield. }
  assert (∀ st', Builder.read_line use_stem st' line = st') as Hskip.
  { intros st'. unfold Builder.read_line. by rewrite Hparse. }
  assert (Builder.read_corpus use_stem (before ++ line :: after)
          = Builder.read_corpus use_stem (before ++ after)) as Hread.
  { unfold Builder.read_corpus. rewrite !foldl_app. cbn [foldl].
    by rewrite Hskip. }
  split; [done|]. split; [done|]. rewrite Hread.
  unfold Builder.read_corpus. rewrite read_lines_ingest. split.
  - by rewrite ingest_all_docs.
  - rewrite ingest_all_doc_id by done. rewrite ingest_all_docs.
    change (docs Builder.start.1) with (@nil str).
    by rewrite app_nil_l, length_fmap.
Qed.

Lemma malformed_line_skipped_witness :
  let line := json "{'id': 'd7', 'body': 'no text field'}" in
  let before := [json "{'id': 'd1', 'text': 'Cats run fast'}"] in
  let after := [json "{'id': 'd2', 'text': 'Dogs run slow'}"] in
  Builder.read_line true Builder.start line = Builder.start ∧
  Builder.read_corpus true (before ++ line :: after)
  = Builder.read_corpus true (before ++ after) ∧
  docs (Builder.read_corpus true (before ++ line :: after)).1
  = (omap Builder.parse_line (before ++ after)).*1 ∧
  (Builder.read_corpus true (before ++ line :: after)).2
  = u32 (N.of_nat (length (omap Builder.parse_line (before ++ after)))).
Proof.
  apply malformed_line_skipped. right. vm_compute. reflexivity.
Defined.

(** ** What the builder leaves in the index *)

Section BuilderInvariant.
Import Builder.

Lemma strip_suffix_length word suffixes :
  length (Stemmer.strip_suffix word suffixes) ≤ length word.
Proof.
  induction suffixes as [|suf suffixes IH]; cbn [Stemmer.strip_suffix]; [done|].
  destruct (Stemmer.strippable word suf); [|done].
  rewrite length_take. lia.
Qed.

Lemma stem_token_length token :
  length (Stemmer.stem_token token) ≤ length token.
Proof.
  unfold Stemmer.stem_token.
  destruct (length token <=? 2); [done|].
  destruct (Stemmer.has_cyrillic token); apply strip_suffix_length.
Qed.

Lemma add_postings_from_within L B m doc_id tokens use_stem seen :
  (doc_id < B)%N → Forall (λ w : str, length w ≤ L) tokens → within L B m →
  within L B (add_postings_from m doc_id tokens use_stem seen) ∧
  size (add_postings_from m doc_id tokens use_stem seen)
  ≤ size m + length tokens.
Proof.
  intros Hid Htokens. revert m seen.
  induction Htokens as [|tok tokens Htok _ IH]; intros m seen Hm;
    cbn [add_postings_from length]; [split; [done|lia]|].
  set (term := if use_stem then Stemmer.stem_token tok else tok).
  assert (length term ≤ L) as Hterm.
  { subst term. destruct use_stem; [|done].
    etrans; [apply stem_token_length|done]. }
  clearbody term. destruct term as [|c rest].
  { destruct (IH m seen Hm). split; [done|lia]. }
  cbv iota. remember (c :: rest) as term eqn:E. clear E c rest.
  destruct (decide (term ∈ seen)).
  { destruct (IH m seen Hm). split; [done|lia]. }
  destruct (IH (<[term := default [] (m !! term) ++ [doc_id]]> m)
              ({[term]} ∪ seen)) as [IH1 IH2].
  { apply map_Forall_insert_2; [|done]. split; [done|].
    apply Forall_app. split; [|by repeat constructor].
    destruct (m !! term) as [v|] eqn:Ev; [|constructor].
    by destruct (Hm term v Ev). }
  split; [done|].
  etrans; [exact IH2|]. rewrite map_size_insert.
  destruct (m !! term); unfold id; lia.
Qed.

Lemma u32_small n : (n < 2 ^ 32)%N → u32 n = n.
Proof. intros H. unfold u32. by apply N.mod_small. Qed.

Lemma ingest_all_within L B use_stem documents st :
  st.2 = N.of_nat (length (docs st.1)) →
  length (docs st.1) + length documents ≤ B → (N.of_nat B < 2 ^ 32)%N →
  Forall (λ record : str * str, length record.2 ≤ L) documents →
  within L (N.of_nat B) (postings st.1) →
  within L (N.of_nat B) (postings (foldl (ingest use_stem) st documents).1) ∧
  size (postings (foldl (ingest use_stem) st documents).1)
  ≤ size (postings st.1) + text_size documents.
Proof.
  intros Hid Hcount HB Htexts. revert st Hid Hcount.
  induction Htexts as [|[id text] documents Htext _ IH];
    intros [idx doc_id] Hid Hcount Hm;
    cbn [foldl fst snd length] in *;
    [split; [done|lia]|].
  destruct (tokenize_done tok text) as (tokens & _ & Htokens & Hlen & Hall).
  destruct (add_postings_from_within L (N.of_nat B) (postings idx) doc_id
              tokens use_stem ∅) as [Hw Hsize]; [lia| |done|].
  { eapply Forall_impl; [exact Hall|]. cbn. lia. }
  assert (ingest use_stem (idx, doc_id) (id, text)
          = ({| docs := docs idx ++ [id];
                postings := add_postings_from (postings idx) doc_id tokens
                              use_stem ∅ |}, u32 (doc_id + 1))) as Hstep.
  { unfold ingest, add_postings. cbn [docs postings]. by rewrite Htokens. }
  rewrite Hstep.
  destruct (IH ({| docs := docs idx ++ [id];
                   postings := add_postings_from (postings idx) doc_id tokens
                                 use_stem ∅ |}, u32 (doc_id + 1)))
    as [IH1 IH2]; cbn [fst snd docs postings].
  - rewrite length_app. cbn [length]. clear -Hid Hcount HB.
    rewrite u32_small; lia.
  - rewrite length_app. cbn [length]. clear -Hcount. lia.
  - done.
  - split; [done|]. cbn [fst snd docs postings] in IH2.
    change (text_size ((id, text) :: documents))
      with (length text + text_size documents).
    clear -IH2 Hsize Hlen. lia.
Qed.

Lemma increasing_length (n : nat) (l : list N) :
  StronglySorted N.lt l → Forall (λ d, (d < N.of_nat n)%N) l → length l ≤ n.
Proof.
  intros Hsorted Hbound.
  transitivity (length (map N.of_nat (seq 0 n)));
    [|by rewrite length_map, length_seq].
  apply submseteq_length, NoDup_submseteq.
  - by apply StronglySorted_lt_NoDup.
  - intros d Hd. rewrite Forall_forall in Hbound. specialize (Hbound d Hd).
    apply list_elem_of_fmap. exists (N.to_nat d).
    split; [lia|]. apply elem_of_seq. lia.
Qed.

Lemma corpus_size_bounds documents :
  length documents ≤ corpus_size documents ∧
  text_size documents ≤ corpus_size documents ∧
  Forall (λ record : str * str,
            length record.1 ≤ corpus_size documents ∧
            length record.2 ≤ corpus_size documents) documents.
Proof.
  unfold corpus_size, text_size.
  induction documents as [|[id text] documents (IH1 & IH2 & IH3)];
    cbn [foldr length fst snd]; [repeat split; [lia..|constructor]|].
  repeat split; [lia..|].
  constructor; [cbn [fst snd]; lia|].
  eapply Forall_impl; [exact IH3|]. cbn. lia.
Qed.

(** The index of a corpus of less than [2^32] bytes fits the file format,
    and its posting lists are in order and index the document table. *)
Lemma build_fits documents use_stem :
  (N.of_nat (corpus_size documents) < 2 ^ 32)%N →
  fits (build documents use_stem) ∧
  docs (build documents use_stem) = documents.*1 ∧
  ∀ term plist, postings (build documents use_stem) !! term = Some plist →
    posting_list (length (docs (build documents use_stem))) plist.
Proof.
  intros Hsize.
  destruct (corpus_size_bounds documents) as (Hcount & Htexts & Heach).
  destruct (ingest_all_within (corpus_size documents) (length documents)
              use_stem documents start) as [Hw Hterms];
    [done|cbn; lia|lia| |done|].
  { eapply Forall_impl; [exact Heach|]. cbn. lia. }
  assert (docs (build documents use_stem) = documents.*1) as Hdocs.
  { unfold build, finalize. cbn [docs]. by rewrite ingest_all_docs. }
  assert (∀ term plist,
            postings (build documents use_stem) !! term = Some plist →
            length term ≤ corpus_size documents ∧
            posting_list (length documents) plist) as Hpost.
  { intros term plist Hlookup.
    apply finalize_sorted in Hlookup as (Hsorted & v & Hv & Hsub).
    destruct (Hw term v Hv) as [Hterm Hbound].
    repeat split; [done..|].
    rewrite Forall_forall in *. intros d Hd. by apply Hbound, Hsub. }
  split; [|split; [done|]].
  - split; [rewrite Hdocs, length_fmap; lia|].
    split.
    { unfold build, finalize. cbn [postings]. rewrite map_size_fmap.
      change (size (postings start.1)) with 0 in Hterms. lia. }
    split.
    { rewrite Hdocs. apply Forall_fmap.
      eapply Forall_impl; [exact Heach|]. cbn. lia. }
    intros term plist Hlookup.
    destruct (Hpost term plist Hlookup) as (Hterm & Hsorted & Hbound).
    pose proof (increasing_length _ _ Hsorted Hbound).
    split; [lia|]. split; [lia|].
    eapply Forall_impl; [exact Hbound|]. cbn. lia.
  - intros term plist Hlookup. rewrite Hdocs, length_fmap.
    by destruct (Hpost term plist Hlookup).
Qed.

End BuilderInvariant.

(** C5: in the index the builder holds after its finalization loop,
    whether the corpus is given as records or as the lines of the corpus
    file, every posting list is strictly increasing and free of
    duplicates; so is every posting list of any index once finalized. *)
Theorem postings_strictly_increasing (documents : list (str * str))
    (lines : list str) (use_stem : bool) (raw : Index) (term : str)
    (plist : list N) :
  (postings (Builder.build documents use_stem) !! term = Some plist →
   StronglySorted N.lt plist ∧ NoDup plist) ∧
  (postings (Builder.build_from_lines lines use_stem) !! term = Some plist →
   StronglySorted N.lt plist ∧ NoDup plist) ∧
  (postings (Builder.finalize raw) !! term = Some plist →
   StronglySorted N.lt plist ∧ NoDup plist).
Proof.
  split; [|split]; intros Hlookup;
    apply finalize_sorted in Hlookup as [Hsorted _];
    (split; [done|by apply StronglySorted_lt_NoDup]).
Qed.

Lemma postings_strictly_increasing_witness :
  StronglySorted N.lt [0; 1]%N ∧ NoDup [0; 1]%N.
Proof.
  apply (proj1 (postings_strictly_increasing Scenario.corpus [] true
                  Scenario.index (lit "run") [0; 1]%N)).
  vm_compute. reflexivity.
Defined.

(** ** The codec *)

Section CodecFacts.
Import Codec.

Lemma uninitialized_length junk s n : length (uninitialized junk s n) = n.
Proof. unfold uninitialized. by rewrite length_map, length_seq. Qed.

Lemma zeros_length n : length (zeros n) = n.
Proof. apply length_replicate. Qed.

(** A read that the stream can fill. *)
Lemma read_app (prior buf rest : str) k :
  length prior = length buf →
  read prior (Stream (buf ++ rest) true k) = (buf, Stream rest true k).
Proof.
  intros Hlen. unfold read. cbn [good bytes short]. rewrite Hlen, length_app.
  destruct (Nat.leb_spec (length buf) (length buf + length rest)); [|lia].
  by rewrite take_app_length, drop_app_length.
Qed.

Lemma le_bytes v :
  (v < 2 ^ 32)%N →
  (v mod 256 + 256 * (v / 256 mod 256) + 65536 * (v / 65536 mod 256)
   + 16777216 * (v / 16777216 mod 256) = v)%N.
Proof.
  intros Hv.
  change 65536%N with (256 * 256)%N.
  change 16777216%N with (256 * 256 * 256)%N.
  rewrite <- !N.Div0.div_div.
  pose proof (N.Div0.div_mod v 256) as H1.
  pose proof (N.Div0.div_mod (v / 256) 256) as H2.
  pose proof (N.Div0.div_mod (v / 256 / 256) 256) as H3.
  assert (v / 256 / 256 / 256 < 256)%N as H4.
  { rewrite !N.Div0.div_div. apply N.Div0.div_lt_upper_bound.
    change (2 ^ 32)%N with (256 * 256 * 256 * 256)%N in Hv. lia. }
  rewrite (N.mod_small (v / 256 / 256 / 256)) by done.
  set (q1 := (v / 256)%N) in *. set (q2 := (q1 / 256)%N) in *.
  set (q3 := (q2 / 256)%N) in *.
  set (r1 := (v mod 256)%N) in *. set (r2 := (q1 mod 256)%N) in *.
  set (r3 := (q2 mod 256)%N) in *. clearbody q1 q2 q3 r1 r2 r3. lia.
Qed.

Lemma le32_write v : (v < 2 ^ 32)%N → le32 (write_uint32 v) = v.
Proof.
  intros Hv. unfold write_uint32, le32. cbn [foldr].
  rewrite !N_ascii_embedding by (apply N.mod_upper_bound; lia).
  pose proof (le_bytes v Hv) as H.
  set (r0 := (v mod 256)%N) in *. set (r1 := (v / 256 mod 256)%N) in *.
  set (r2 := (v / 65536 mod 256)%N) in *.
  set (r3 := (v / 16777216 mod 256)%N) in *. clearbody r0 r1 r2 r3. lia.
Qed.

Lemma read_uint32_write junk v rest k :
  (v < 2 ^ 32)%N →
  read_uint32 junk (Stream (write_uint32 v ++ rest) true k)
  = (v, Stream rest true k).
Proof.
  intros Hv. unfold read_uint32.
  rewrite read_app by (by rewrite uninitialized_length).
  by rewrite le32_write.
Qed.

Lemma size_u32_small n : (N.of_nat n < 2 ^ 32)%N → size_u32 n = N.of_nat n.
Proof. intros H. unfold size_u32, u32. by apply N.mod_small. Qed.

Lemma read_string_write junk (s rest : str) k :
  (N.of_nat (length s) < 2 ^ 32)%N →
  read_string junk (Stream (write_string s ++ rest) true k)
  = (s, Stream rest true k).
Proof.
  intros Hs. unfold read_string, write_string.
  rewrite size_u32_small by done. rewrite <- app_assoc.
  rewrite read_uint32_write by done.
  rewrite Nat2N.id, firstn_all. apply read_app. apply zeros_length.
Qed.

Lemma read_many_write {A} (item : stream → A * stream) (enc : A → str)
    xs rest k :
  Forall (λ x, ∀ rest', item (Stream (enc x ++ rest') true k)
                        = (x, Stream rest' true k)) xs →
  read_many item (length xs) (Stream (flat_map enc xs ++ rest) true k)
  = (xs, Stream rest true k).
Proof.
  induction 1 as [|x xs Hx _ IH]; [done|].
  cbn [length read_many flat_map]. rewrite <- app_assoc, Hx.
  by rewrite IH.
Qed.

Lemma words_write (ids : list N) :
  Forall (λ d, (d < 2 ^ 32)%N) ids →
  words (flat_map write_uint32 ids) = ids ∧
  length (flat_map write_uint32 ids) = 4 * length ids.
Proof.
  induction 1 as [|d ids Hd _ [IHw IHl]]; [done|].
  cbn [flat_map length]. rewrite length_app, IHl.
  split; [|cbn; lia].
  pose proof (le32_write d Hd) as Hle. unfold write_uint32 in *.
  cbn [app words]. by rewrite Hle, IHw.
Qed.

Lemma read_entry_write junk (kv : str * list N) rest k :
  (N.of_nat (length kv.1) < 2 ^ 32)%N →
  (N.of_nat (length kv.2) < 2 ^ 32)%N →
  Forall (λ d, (d < 2 ^ 32)%N) kv.2 →
  read_entry junk (Stream (write_entry kv ++ rest) true k)
  = (kv, Stream rest true k).
Proof.
  intros Hterm Hlen Hids. unfold read_entry, write_entry.
  rewrite <- !app_assoc, read_string_write by done.
  rewrite size_u32_small, read_uint32_write by done.
  destruct (words_write kv.2 Hids) as [Hwords Hbytes].
  rewrite Nat2N.id, read_app by (by rewrite zeros_length).
  rewrite Hwords. by destruct kv.
Qed.

Lemma emplace_all m0 (entries : list (str * list N)) :
  foldl emplace m0 entries = m0 ∪ list_to_map entries.
Proof.
  revert m0. induction entries as [|[k v] entries IH]; intros m0.
  { cbn. by rewrite (right_id ∅ (∪)). }
  cbn [foldl]. rewrite IH.
  change (list_to_map ((k, v) :: entries) : gmap str (list N))
    with (<[k:=v]> (list_to_map entries : gmap str (list N))).
  unfold emplace. cbn [fst snd].
  destruct (m0 !! k) as [w|] eqn:Hk.
  - apply map_eq. intros j. destruct (decide (j = k)) as [->|Hne].
    + by rewrite !(lookup_union_Some_l _ _ k w Hk).
    + by rewrite !lookup_union, lookup_insert_ne.
  - by rewrite <- insert_union_l, insert_union_r.
Qed.

Lemma emplace_visits m order :
  visits m order → foldl emplace ∅ order = m.
Proof.
  intros Hvisit. rewrite emplace_all, (left_id ∅ (∪)).
  rewrite <- (list_to_map_to_list m). apply list_to_map_proper; [|done].
  unfold visits in Hvisit. rewrite Hvisit. apply NoDup_fst_map_to_list.
Qed.

(** What is saved is what is loaded, every byte read and no read short,
    for an index that fits the format. *)
Lemma load_save junk idx order :
  fits idx → visits (postings idx) order →
  load_index junk (save_index idx order) = Loaded idx (Stream [] true 0).
Proof.
  intros (Hdocs & Hterms & Hids & Hpost) Hvisit.
  unfold load_index, save_index, open.
  rewrite read_app by (by rewrite uninitialized_length).
  rewrite bool_decide_eq_true_2 by done.
  rewrite !size_u32_small by done.
  rewrite read_uint32_write by done.
  rewrite read_uint32_write by done.
  rewrite !Nat2N.id, read_many_write.
  2:{ eapply Forall_impl; [exact Hids|]. cbv beta. intros s Hs rest'.
      by apply read_string_write. }
  assert (size (postings idx) = length order) as ->.
  { unfold visits in Hvisit. by rewrite Hvisit, length_map_to_list. }
  rewrite <- (app_nil_r (flat_map write_entry order)), read_many_write.
  - rewrite (emplace_visits (postings idx)) by done. by destruct idx.
  - apply Forall_forall. intros [k v] Hkv rest'.
    unfold visits in Hvisit. rewrite Hvisit in Hkv.
    apply elem_of_map_to_list in Hkv.
    destruct (Hpost k v Hkv) as (? & ? & ?).
    by apply read_entry_write.
Qed.

(** Records without text leave the postings as they are. *)
Lemma ingest_empty_texts use_stem n st :
  postings (foldl (Builder.ingest use_stem) st (replicate n ([], []))).1
  = postings st.1.
Proof.
  revert st. induction n as [|n IH]; intros st; [done|].
  cbn [replicate foldl]. rewrite IH. by destruct st as [idx doc_id].
Qed.

Lemma build_empty_records use_stem n :
  docs (Builder.build (replicate n ([], [])) use_stem) = replicate n [] ∧
  postings (Builder.build (replicate n ([], [])) use_stem) = ∅.
Proof.
  unfold Builder.build, Builder.finalize. cbn [docs postings]. split.
  - rewrite ingest_all_docs. cbn [Builder.start fst docs app].
    by rewrite fmap_replicate.
  - rewrite ingest_empty_texts. apply fmap_empty.
Qed.

(** A document count that is a multiple of 2^32 is written as 0. *)
Lemma load_save_wrapped junk idx :
  u32 (N.of_nat (length (docs idx))) = 0%N → postings idx = ∅ →
  load_index junk (save_index idx [])
  = Loaded {| docs := []; postings := ∅ |}
      (Stream (flat_map write_string (docs idx)) true 0).
Proof.
  intros Hcount Hpost. unfold load_index, save_index, open.
  rewrite read_app by (by rewrite uninitialized_length).
  rewrite bool_decide_eq_true_2 by done.
  unfold size_u32. rewrite Hcount, Hpost, map_size_empty.
  change (u32 (N.of_nat 0)) with 0%N.
  rewrite read_uint32_write by done.
  rewrite read_uint32_write by done.
  cbn [flat_map]. by rewrite app_nil_r.
Qed.

End CodecFacts.

(** C1: for every corpus of records and either stemming flag, if the built
    and finalized index fits the 32-bit count, length and id fields of the
    file format (as the index of every corpus smaller than 4 GiB does),
    then loading what [save_index] wrote for it gives back that very
    index, every byte of the file read and no read short: the same
    document table in the same order, which is the list of the external
    ids, and the same posting list for every term, in whatever order the
    terms were written and whatever the uninitialized buffers held. *)
Theorem load_save_build (junk : nat → nat → ascii)
    (documents : list (str * str)) (use_stem : bool)
    (order : list (str * list N)) :
  Codec.visits (postings (Builder.build documents use_stem)) order →
  (fits (Builder.build documents use_stem) →
   Codec.load_index junk
     (Codec.save_index (Builder.build documents use_stem) order)
   = Codec.Loaded (Builder.build documents use_stem) (Codec.Stream [] true 0) ∧
   docs (Builder.build documents use_stem) = documents.*1) ∧
  ((N.of_nat (corpus_size documents) < 2 ^ 32)%N →
   fits (Builder.build documents use_stem)).
Proof.
  intros Hvisit. split.
  - intros Hfits. split; [by apply load_save|].
    unfold Builder.build, Builder.finalize. cbn [docs].
    by rewrite ingest_all_docs.
  - intros Hsize. by destruct (build_fits documents use_stem Hsize).
Qed.

Lemma load_save_build_witness :
  Codec.load_index (λ _ _, "000"%char)
    (Codec.save_index (Builder.build Scenario.corpus true)
       (reverse (map_to_list (postings (Builder.build Scenario.corpus true)))))
  = Codec.Loaded (Builder.build Scenario.corpus true) (Codec.Stream [] true 0) ∧
  docs (Builder.build Scenario.corpus true) = Scenario.corpus.*1.
Proof.
  destruct (load_save_build (λ _ _, "000"%char) Scenario.corpus true
              (reverse (map_to_list (postings (Builder.build Scenario.corpus true)))))
    as [Hload Hfits].
  - unfold Codec.visits. apply reverse_Permutation.
  - apply Hload, Hfits. vm_compute. reflexivity.
Defined.

(** C1 as first stated, for every corpus, fails on 2^32 records of empty id
    and empty text: the built index has 2^32 documents and no term,
    [save_index] writes its document count through [uint32_t] as 0, and
    [load_index] returns an index without documents, the length fields of
    the ids left unread. *)
Lemma save_index_wraps_document_count :
  let documents : list (str * str) := replicate (N.to_nat (2 ^ 32)) ([], []) in
  let idx := Builder.build documents false in
  Codec.visits (postings idx) [] ∧
  docs idx = replicate (N.to_nat (2 ^ 32)) [] ∧
  docs idx ≠ [] ∧
  Codec.load_index (λ _ _, "000"%char) (Codec.save_index idx [])
  = Codec.Loaded {| docs := []; postings := ∅ |}
      (Codec.Stream (flat_map Codec.write_string (docs idx)) true 0).
Proof.
  intros documents idx.
  destruct (build_empty_records false (N.to_nat (2 ^ 32))) as [Hdocs Hpost].
  fold documents in Hdocs, Hpost. fold idx in Hdocs, Hpost.
  split; [|split; [exact Hdocs|split]].
  - unfold Codec.visits. rewrite Hpost, map_to_list_empty. reflexivity.
  - rewrite Hdocs. intros H. apply (f_equal length) in H.
    rewrite length_replicate in H. apply (f_equal N.of_nat) in H.
    rewrite N2Nat.id in H. discriminate H.
  - apply load_save_wrapped; [|exact Hpost].
    rewrite Hdocs, length_replicate, N2Nat.id. reflexivity.
Qed.

(** ** Malformed programs and double negation *)
Section DoubleNegation.
Import Query.

Lemma set_not_elem_of universe b x :
  StronglySorted N.lt universe → StronglySorted N.lt b →
  x ∈ set_not universe b ↔ x ∈ universe ∧ x ∉ b.
Proof.
  revert b. induction universe as [|u us IHu]; intros b Hu Hb.
  { cbn. split; [by intros ?%elem_of_nil|by intros [?%elem_of_nil _]]. }
  apply StronglySorted_cons in Hu as [Hus Hu]. rewrite Forall_forall in Hus.
  induction b as [|y b IHb].
  { rewrite set_not_nil_r. split; [|by intros [? _]].
    intros Hx. split; [done|by intros ?%elem_of_nil]. }
  pose proof Hb as Hyb.
  apply StronglySorted_cons in Hb as [Hbs Hb]. rewrite Forall_forall in Hbs.
  rewrite set_not_step. destruct (N.eqb_spec u y) as [<-|Hne].
  - rewrite IHu by done. rewrite !elem_of_cons. split.
    + intros [Hx Hnx]. split; [by right|]. intros [->|?]; [|done].
      specialize (Hus _ Hx). lia.
    + intros [[->|Hx] Hnx]; [by destruct Hnx; left|].
      split; [done|]. intros ?. apply Hnx. by right.
  - destruct (N.ltb_spec u y) as [Hlt|Hge].
    + rewrite !elem_of_cons, IHu by done. rewrite !elem_of_cons. split.
      * intros [->|[Hx Hnx]]; [|split; [by right|done]].
        split; [by left|]. intros [->|Hy]; [lia|]. specialize (Hbs _ Hy). lia.
      * intros [[->|Hx] Hnx]; [by left|right; done].
    + rewrite IHb by done. rewrite !elem_of_cons. split.
      * intros [Hx Hnx]. split; [done|]. intros [->|?]; [|done].
        destruct Hx as [->|Hx]; [lia|]. specialize (Hus _ Hx). lia.
      * intros [Hx Hnx]. split; [done|]. intros ?. apply Hnx. by right.
Qed.

Lemma increasing_unique (l k : list N) :
  StronglySorted N.lt l → StronglySorted N.lt k →
  (∀ x, x ∈ l ↔ x ∈ k) → l = k.
Proof.
  intros Hl Hk Hsame.
  apply (StronglySorted_unique_strong N.lt); [|done..|].
  - intros x y _ _ Hxy Hyx. lia.
  - apply NoDup_Permutation; [by apply StronglySorted_lt_NoDup..|done].
Qed.

(** Over strictly increasing lists within the universe, complementing
    twice gives the list back. *)
Lemma set_not_involutive n p :
  posting_list n p →
  set_not (map N.of_nat (seq 0 n)) (set_not (map N.of_nat (seq 0 n)) p) = p.
Proof.
  intros [Hp Hbound].
  destruct (universe_posting_list n) as [Hu _].
  set (universe := map N.of_nat (seq 0 n)) in *.
  assert (StronglySorted N.lt (set_not universe p)) as Hc
    by apply (StronglySorted_sublist _ _ _ (set_not_sublist _ _) Hu).
  apply increasing_unique; [|done|].
  { apply (StronglySorted_sublist _ _ _ (set_not_sublist _ _) Hu). }
  intros x. rewrite !set_not_elem_of by done. split.
  - intros [Hx Hnx]. destruct (decide (x ∈ p)); [done|]. by destruct Hnx.
  - intros Hx. split; [|by intros [_ ?]].
    rewrite Forall_forall in Hbound. specialize (Hbound x Hx).
    subst universe. apply list_elem_of_fmap. exists (N.to_nat x).
    split; [lia|]. apply elem_of_seq. lia.
Qed.

(** The postfix program X NOT NOT, in which each operator follows its
    operand, does evaluate to the posting list of X. *)
Lemma evaluate_double_negation idx x :
  (N.of_nat (length (docs idx)) < 2 ^ 32)%N →
  posting_list (length (docs idx)) (postings_for idx x) →
  evaluate idx [MkToken TERM x; MkToken NOT []; MkToken NOT []]
  = Done (postings_for idx x).
Proof.
  intros Hdocs Hx. unfold evaluate. rewrite fill_universe_done by done.
  cbn [obind run type term]. by rewrite set_not_involutive.
Qed.

(** A program that pops more than it pushed makes [run] pop an empty
    stack. *)
Lemma run_malformed idx universe postfix stack :
  well_formed postfix (length stack) = false →
  run idx universe postfix stack = OutOfBounds.
Proof.
  revert stack. induction postfix as [|[op w] postfix IH]; intros stack;
    cbn [run well_formed type]; [done|].
  destruct op.
  - intros Hwf. by apply IH.
  - destruct stack as [|b [|a stack]]; [done..|].
    cbn [length Nat.leb andb Nat.sub]. intros Hwf. by apply IH.
  - destruct stack as [|b [|a stack]]; [done..|].
    cbn [length Nat.leb andb Nat.sub]. intros Hwf. by apply IH.
  - destruct stack as [|a stack]; [done|].
    cbn [length Nat.leb andb]. intros Hwf. by apply IH.
Qed.

End DoubleNegation.

(** C2: a query that is the single word "not" or "and", or that ends in an
    operator, reaches [evaluate] as a postfix program whose operator finds
    too few operands; [evaluate] then calls [back()] and [pop_back()] on an
    empty vector, which is undefined, instead of reporting a malformed
    query. *)
Theorem evaluate_pops_empty_stack :
  (∀ idx universe use_stem,
     Query.run idx universe
       (Query.to_postfix (Query.parse_query (lit "not") Query.tokenizer use_stem))
       [] = OutOfBounds) ∧
  (∀ idx universe use_stem,
     Query.run idx universe
       (Query.to_postfix (Query.parse_query (lit "and") Query.tokenizer use_stem))
       [] = OutOfBounds) ∧
  Query.answer Scenario.index true (lit "not") = OutOfBounds ∧
  Query.answer Scenario.index true (lit "and") = OutOfBounds ∧
  Query.answer Scenario.index true (lit "run and") = OutOfBounds.
Proof.
  split; [intros idx universe use_stem; vm_compute; reflexivity|].
  split; [intros idx universe use_stem; vm_compute; reflexivity|].
  repeat split; vm_compute; reflexivity.
Qed.

(** C4: for the query NOT NOT X the shunting-yard pops the first NOT off
    the operator stack when the second arrives (equal precedence), so the
    postfix program is NOT X NOT; its first operator finds an empty stack
    and [evaluate] pops it, which is undefined. In the scenario index the
    term "run" is present with posting list 0, 1 and the query "run"
    answers 0, 1, while "NOT NOT run" has no answer. *)
Theorem double_negation_pops_empty_stack :
  (∀ x, Query.to_postfix
          [Query.MkToken Query.NOT []; Query.MkToken Query.NOT [];
           Query.MkToken Query.TERM x]
        = [Query.MkToken Query.NOT []; Query.MkToken Query.TERM x;
           Query.MkToken Query.NOT []]) ∧
  (∀ idx universe x,
     Query.run idx universe
       (Query.to_postfix
          [Query.MkToken Query.NOT []; Query.MkToken Query.NOT [];
           Query.MkToken Query.TERM x]) [] = OutOfBounds) ∧
  postings Scenario.index !! lit "run" = Some [0; 1]%N ∧
  Query.answer Scenario.index true (lit "run") = Done [0; 1]%N ∧
  Query.parse_query (lit "NOT NOT run") Query.tokenizer true
  = [Query.MkToken Query.NOT []; Query.MkToken Query.NOT [];
     Query.MkToken Query.TERM (lit "run")] ∧
  Query.answer Scenario.index true (lit "NOT NOT run") = OutOfBounds.
Proof.
  split; [done|]. split; [done|].
  repeat split; vm_compute; reflexivity.
Qed.

(** C6: for all terms A and B of an index whose document table a 32-bit
    counter can span, the queries A, B, A AND B and A OR B all have an
    answer; every document id in the answer to A AND B is in the answer to
    A and in the answer to B, and every document id in the answer to A or
    to B is in the answer to A OR B. *)
Theorem and_or_bounds (idx : Index) (a b : str) :
  (N.of_nat (length (docs idx)) < 2 ^ 32)%N →
  ∃ ra rb rand ror,
    Query.evaluate idx (Query.to_postfix [Query.MkToken Query.TERM a]) = Done ra ∧
    Query.evaluate idx (Query.to_postfix [Query.MkToken Query.TERM b]) = Done rb ∧
    Query.evaluate idx
      (Query.to_postfix
         [Query.MkToken Query.TERM a; Query.MkToken Query.AND [];
          Query.MkToken Query.TERM b]) = Done rand ∧
    Query.evaluate idx
      (Query.to_postfix
         [Query.MkToken Query.TERM a; Query.MkToken Query.OR [];
          Query.MkToken Query.TERM b]) = Done ror ∧
    rand ⊆ ra ∧ rand ⊆ rb ∧ ra ⊆ ror ∧ rb ⊆ ror.
Proof.
  intros Hdocs.
  exists (Query.postings_for idx a), (Query.postings_for idx b),
    (Query.set_and (Query.postings_for idx a) (Query.postings_for idx b)),
    (Query.set_or (Query.postings_for idx a) (Query.postings_for idx b)).
  unfold Query.evaluate. rewrite fill_universe_done by done.
  repeat split; try done.
  - intros d Hd. by apply (sublist_subseteq _ _ (set_and_sublist _ _)) in Hd.
  - intros d Hd. by apply set_and_elem_of_r in Hd.
  - intros d Hd. apply set_or_superset. by left.
  - intros d Hd. apply set_or_superset. by right.
Qed.

Lemma and_or_bounds_witness :
  ∃ ra rb rand ror,
    Query.evaluate Scenario.index
      (Query.to_postfix [Query.MkToken Query.TERM (lit "run")]) = Done ra ∧
    Query.evaluate Scenario.index
      (Query.to_postfix [Query.MkToken Query.TERM (lit "fast")]) = Done rb ∧
    Query.evaluate Scenario.index
      (Query.to_postfix
         [Query.MkToken Query.TERM (lit "run"); Query.MkToken Query.AND [];
          Query.MkToken Query.TERM (lit "fast")]) = Done rand ∧
    Query.evaluate Scenario.index
      (Query.to_postfix
         [Query.MkToken Query.TERM (lit "run"); Query.MkToken Query.OR [];
          Query.MkToken Query.TERM (lit "fast")]) = Done ror ∧
    rand ⊆ ra ∧ rand ⊆ rb ∧ ra ⊆ ror ∧ rb ⊆ ror.
Proof.
  apply (and_or_bounds Scenario.index (lit "run") (lit "fast")).
  vm_compute. reflexivity.
Defined.

(** C10: [set_and], [set_or] and [set_not] take strictly increasing lists
    of document ids below the document count to such a list; so, over an
    index whose posting lists all are such lists, [evaluate] answers every
    postfix program that never pops more than it pushed with a strictly
    increasing, duplicate-free list of ids that index the document
    table. *)
Theorem evaluate_posting_list (idx : Index) (postfix : list Query.Token) :
  (N.of_nat (length (docs idx)) < 2 ^ 32)%N →
  (∀ term plist, postings idx !! term = Some plist →
                 posting_list (length (docs idx)) plist) →
  Query.well_formed postfix 0 = true →
  (∀ n a b, posting_list n a → posting_list n b →
            posting_list n (Query.set_and a b) ∧
            posting_list n (Query.set_or a b) ∧
            posting_list n (Query.set_not a b)) ∧
  ∃ result,
    Query.evaluate idx postfix = Done result ∧
    StronglySorted N.lt result ∧ NoDup result ∧
    Forall (λ d, is_Some (docs idx !! N.to_nat d)) result.
Proof.
  intros Hdocs Hidx Hwf. split.
  { intros n a b Ha Hb. split; [by apply set_and_posting_list|].
    split; [by apply set_or_posting_list|by apply set_not_posting_list]. }
  unfold Query.evaluate. rewrite fill_universe_done by done. cbn [obind].
  destruct (run_well_formed idx (length (docs idx))
              (map N.of_nat (seq 0 (length (docs idx)))) postfix [])
    as (stack & -> & Hstack); [apply universe_posting_list| |constructor|done|].
  { intros term. unfold Query.postings_for.
    destruct (postings idx !! term) as [plist|] eqn:E;
      [by apply (Hidx term)|].
    split; constructor. }
  cbn [obind]. eexists. split; [done|].
  assert (posting_list (length (docs idx))
            (match stack with [] => [] | top :: _ => top end)) as [Hs Hb].
  { destruct Hstack; [split; constructor|done]. }
  split; [done|]. split; [by apply StronglySorted_lt_NoDup|].
  eapply Forall_impl; [exact Hb|]. cbn. intros d Hd.
  apply lookup_lt_is_Some. lia.
Qed.

Lemma evaluate_posting_list_witness :
  (∀ n a b, posting_list n a → posting_list n b →
            posting_list n (Query.set_and a b) ∧
            posting_list n (Query.set_or a b) ∧
            posting_list n (Query.set_not a b)) ∧
  ∃ result,
    Query.evaluate Scenario.index
      (Query.to_postfix
         (Query.parse_query (lit "cats OR run AND NOT fast") Query.tokenizer true))
    = Done result ∧
    StronglySorted N.lt result ∧ NoDup result ∧
    Forall (λ d, is_Some (docs Scenario.index !! N.to_nat d)) result.
Proof.
  apply evaluate_posting_list.
  - vm_compute. reflexivity.
  - apply (build_fits Scenario.corpus true). vm_compute. reflexivity.
  - vm_compute. reflexivity.
Defined.

(** * Further properties of the code *)

(** ** The stemmer keeps a prefix *)

Lemma strip_suffix_prefix token table :
  Stemmer.strip_suffix token table `prefix_of` token ∧
  Nat.min 2 (length token) ≤ length (Stemmer.strip_suffix token table).
Proof.
  induction table as [|suf table IH]; cbn [Stemmer.strip_suffix].
  { split; [done|lia]. }
  destruct (Stemmer.strippable token suf) eqn:E; [|done].
  apply strippable_qualifies in E as [Hlen _].
  split; [apply prefix_take|]. rewrite length_take. lia.
Qed.

(** X1: [stem_token] returns a prefix of its argument that keeps at least
    the first two bytes (the whole term when it is shorter): stemming
    never empties a term, so the empty-term test of [add_postings] only
    ever skips tokens that were empty already. *)
Theorem stem_token_prefix (token : str) :
  Stemmer.stem_token token `prefix_of` token ∧
  Nat.min 2 (length token) ≤ length (Stemmer.stem_token token).
Proof.
  unfold Stemmer.stem_token.
  destruct (length token <=? 2); [split; [done|lia]|].
  destruct (Stemmer.has_cyrillic token); apply strip_suffix_prefix.
Qed.

(** ** The codec beyond built indexes *)

Section CodecMore.
Import Codec.

Lemma read_length prior s : length (read prior s).1 = length prior.
Proof.
  unfold read. destruct (good s); [|done].
  destruct (Nat.leb_spec (length prior) (length (bytes s))); cbn [fst].
  - rewrite length_take. lia.
  - rewrite length_app, length_drop. lia.
Qed.

Lemma le32_bound buf : length buf = 4 → (le32 buf < 2 ^ 32)%N.
Proof.
  destruct buf as [|b0 [|b1 [|b2 [|b3 [|? ?]]]]]; try done. intros _.
  unfold le32. cbn [foldr].
  pose proof (N_ascii_bounded b0). pose proof (N_ascii_bounded b1).
  pose proof (N_ascii_bounded b2). pose proof (N_ascii_bounded b3).
  change (2 ^ 32)%N with 4294967296%N. lia.
Qed.

Lemma read_uint32_bound junk s : ((read_uint32 junk s).1 < 2 ^ 32)%N.
Proof.
  unfold read_uint32.
  pose proof (read_length (uninitialized junk s 4) s) as Hlen.
  destruct (read (uninitialized junk s 4) s) as [buf s'].
  cbn [fst] in *. apply le32_bound. by rewrite Hlen, uninitialized_length.
Qed.

Lemma read_string_bound junk s :
  (N.of_nat (length (read_string junk s).1) < 2 ^ 32)%N.
Proof.
  unfold read_string. pose proof (read_uint32_bound junk s) as Hlen.
  destruct (read_uint32 junk s) as [len s']. cbn [fst] in Hlen.
  by rewrite read_length, zeros_length, N2Nat.id.
Qed.

Lemma words_bound n buf :
  length buf = 4 * n →
  length (words buf) = n ∧ Forall (λ d, (d < 2 ^ 32)%N) (words buf).
Proof.
  revert buf. induction n as [|n IH]; intros buf Hlen.
  { destruct buf; [|done]. split; [done|constructor]. }
  destruct buf as [|b0 [|b1 [|b2 [|b3 rest]]]]; cbn [length] in Hlen; try lia.
  destruct (IH rest) as [IHl IHb]; [lia|].
  cbn [words length]. split; [by rewrite IHl|].
  constructor; [by apply le32_bound|done].
Qed.

Lemma read_entry_bound junk s :
  (N.of_nat (length (read_entry junk s).1.1) < 2 ^ 32)%N ∧
  (N.of_nat (length (read_entry junk s).1.2) < 2 ^ 32)%N ∧
  Forall (λ d, (d < 2 ^ 32)%N) (read_entry junk s).1.2.
Proof.
  unfold read_entry. pose proof (read_string_bound junk s) as Hterm.
  destruct (read_string junk s) as [term s1]. cbn [fst] in Hterm.
  pose proof (read_uint32_bound junk s1) as Hlen.
  destruct (read_uint32 junk s1) as [len s2]. cbn [fst] in Hlen.
  pose proof (read_length (zeros (4 * N.to_nat len)) s2) as Hbuf.
  destruct (read (zeros (4 * N.to_nat len)) s2) as [buf s3].
  cbn [fst snd] in *. rewrite zeros_length in Hbuf.
  destruct (words_bound _ _ Hbuf) as [Hwords Hids].
  split; [done|]. split; [|done]. by rewrite Hwords, N2Nat.id.
Qed.

Lemma read_many_Forall {A} (item : stream → A * stream) (P : A → Prop)
    count s :
  (∀ s', P (item s').1) →
  length (read_many item count s).1 = count ∧
  Forall P (read_many item count s).1.
Proof.
  intros Hitem. revert s. induction count as [|count IH]; intros s;
    cbn [read_many]; [split; [done|constructor]|].
  pose proof (Hitem s) as Hx. destruct (item s) as [x s1]. cbn [fst] in Hx.
  destruct (IH s1) as [Hlen Hall].
  destruct (read_many item count s1) as [xs s2]. cbn [fst length] in *.
  split; [by rewrite Hlen|by constructor].
Qed.

Lemma emplace_all_size (entries : list (str * list N)) :
  size (foldl emplace (∅ : gmap str (list N)) entries) ≤ length entries.
Proof.
  rewrite emplace_all, (left_id ∅ (∪)).
  induction entries as [|[k v] entries IH]; [done|].
  change (list_to_map ((k, v) :: entries) : gmap str (list N))
    with (<[k:=v]> (list_to_map entries : gmap str (list N))).
  rewrite map_size_insert. cbn [length].
  destruct (list_to_map entries !! k); unfold id; lia.
Qed.

Lemma emplace_all_Forall (P : str → list N → Prop) (entries : list (str * list N)) :
  Forall (λ kv, P kv.1 kv.2) entries →
  map_Forall P (foldl emplace (∅ : gmap str (list N)) entries).
Proof.
  rewrite emplace_all, (left_id ∅ (∪)).
  induction 1 as [|[k v] entries Hkv _ IH]; [apply map_Forall_empty|].
  change (list_to_map ((k, v) :: entries) : gmap str (list N))
    with (<[k:=v]> (list_to_map entries : gmap str (list N))).
  by apply map_Forall_insert_2.
Qed.

(** The check of the first five bytes, on a file that has them. *)
Lemma load_index_magic junk file :
  5 ≤ length file →
  if bool_decide (take 5 file = magic)
  then ∃ idx s, load_index junk file = Loaded idx s
  else load_index junk file = BadIndexFile.
Proof.
  intros Hlen. unfold load_index, open, read. cbn [good bytes short].
  rewrite uninitialized_length.
  destruct (Nat.leb_spec 5 (length file)); [|lia].
  destruct (bool_decide (take 5 file = magic)); [|done].
  repeat match goal with
         | |- context [let '(_, _) := ?e in _] => destruct e
         end.
  eauto.
Qed.

Lemma load_index_inv junk (file : str) (idx : Index) (s : stream) :
  load_index junk file = Loaded idx s →
  fits idx ∧ (5 ≤ length file → take 5 file = magic).
Proof.
  intros Hload. split.
  2: { intros Hlen. pose proof (load_index_magic junk file Hlen) as H.
       case_bool_decide; [done|congruence]. }
  revert Hload. unfold load_index.
  destruct (read _ (open file)) as [magic' s0].
  destruct (bool_decide (magic' = magic)); [|done].
  pose proof (read_uint32_bound junk s0) as Hd.
  destruct (read_uint32 junk s0) as [doc_count s1]. cbn [fst] in Hd.
  pose proof (read_uint32_bound junk s1) as Ht.
  destruct (read_uint32 junk s1) as [term_count s2]. cbn [fst] in Ht.
  destruct (read_many_Forall (read_string junk)
              (λ id : str, (N.of_nat (length id) < 2 ^ 32)%N)
              (N.to_nat doc_count) s2) as [Hdn Hds];
    [apply read_string_bound|].
  destruct (read_many (read_string junk) (N.to_nat doc_count) s2) as [ds s3].
  destruct (read_many_Forall (read_entry junk)
              (λ kv : str * list N,
                 (N.of_nat (length kv.1) < 2 ^ 32)%N ∧
                 (N.of_nat (length kv.2) < 2 ^ 32)%N ∧
                 Forall (λ d, (d < 2 ^ 32)%N) kv.2)
              (N.to_nat term_count) s3) as [Hen Hes];
    [apply read_entry_bound|].
  destruct (read_many (read_entry junk) (N.to_nat term_count) s3)
    as [entries s4].
  cbn [fst] in *. intros [= <- <-].
  unfold fits. cbn [docs postings]. split; [lia|]. split.
  { pose proof (emplace_all_size entries). lia. }
  split; [done|]. by apply emplace_all_Forall.
Qed.

(** X2: reading back what [write_string] wrote gives the first
    [size mod 2^32] bytes of the string: the string itself when it is shorter
    than 4 GiB, a proper prefix of it otherwise, since the length is cast
    to 32 bits before both the length field and the bytes are written.
    What follows in the stream is left unread and the stream stays good. *)
Theorem read_string_write_truncates (junk : nat → nat → ascii)
    (s rest : str) (k : nat) :
  Codec.read_string junk (Codec.Stream (Codec.write_string s ++ rest) true k)
  = (take (N.to_nat (Codec.size_u32 (length s))) s, Codec.Stream rest true k).
Proof.
  unfold Codec.read_string, Codec.write_string.
  assert (Codec.size_u32 (length s) < 2 ^ 32)%N as Hlen
    by (unfold Codec.size_u32, u32; apply N.mod_upper_bound; lia).
  assert (Codec.size_u32 (length s) <= N.of_nat (length s))%N as Hle
    by (unfold Codec.size_u32, u32; apply N.Div0.mod_le).
  rewrite <- app_assoc, read_uint32_write by done.
  set (n := N.to_nat (Codec.size_u32 (length s))).
  apply read_app. rewrite zeros_length, length_take. lia.
Qed.

(** X3: every index [load_index] returns fits the file format: fewer than
    [2^32] documents and terms, every id, term and posting list shorter
    than [2^32], every document id below [2^32]. This holds also for a
    file that ends early, which the code goes through without noticing.
    A file of five bytes or more is accepted only if it starts with
    "BIDX1". *)
Theorem load_index_fits (junk : nat → nat → ascii) (file : str)
    (idx : Index) (s : Codec.stream) :
  Codec.load_index junk file = Codec.Loaded idx s →
  fits idx ∧ (5 ≤ length file → take 5 file = Codec.magic).
Proof. apply load_index_inv. Qed.

Lemma load_index_fits_witness :
  fits {| docs := [lit "ab" ++ Codec.zeros 3]; postings := ∅ |} ∧
  (5 ≤ length (Codec.magic ++ Codec.write_uint32 1 ++ Codec.write_uint32 0
               ++ Codec.write_uint32 5 ++ lit "ab") →
   take 5 (Codec.magic ++ Codec.write_uint32 1 ++ Codec.write_uint32 0
           ++ Codec.write_uint32 5 ++ lit "ab") = Codec.magic).
Proof.
  apply (load_index_fits (λ _ _, "000"%char) _ _
           (Codec.Stream [] false 1)).
  vm_compute. reflexivity.
Defined.

(** X4: an index that [load_index] returned, from whatever file, can be
    saved again, in any order of its terms, and is then loaded back
    unchanged, every byte read and no read short. *)
Theorem load_save_load (junk junk' : nat → nat → ascii) (file : str)
    (idx : Index) (s : Codec.stream) (order : list (str * list N)) :
  Codec.load_index junk file = Codec.Loaded idx s →
  Codec.visits (postings idx) order →
  Codec.load_index junk' (Codec.save_index idx order)
  = Codec.Loaded idx (Codec.Stream [] true 0).
Proof.
  intros Hload Hvisit. apply load_index_inv in Hload as [Hfits _].
  by apply load_save.
Qed.

Lemma load_save_load_witness :
  Codec.load_index (λ _ _, "000"%char)
    (Codec.save_index {| docs := [lit "ab" ++ Codec.zeros 3]; postings := ∅ |} [])
  = Codec.Loaded {| docs := [lit "ab" ++ Codec.zeros 3]; postings := ∅ |}
      (Codec.Stream [] true 0).
Proof.
  apply (load_save_load (λ _ _, "000"%char) (λ _ _, "000"%char)
           (Codec.magic ++ Codec.write_uint32 1 ++ Codec.write_uint32 0
            ++ Codec.write_uint32 5 ++ lit "ab")
           _ (Codec.Stream [] false 1)).
  - vm_compute. reflexivity.
  - unfold Codec.visits. cbn [postings]. by rewrite map_to_list_empty.
Defined.

End CodecMore.

(** ** The set operations are the set operations *)

Section SetExact.
Import Query.

Lemma set_and_complete a b x :
  StronglySorted N.lt a → StronglySorted N.lt b →
  x ∈ a → x ∈ b → x ∈ set_and a b.
Proof.
  revert b. induction a as [|u a IHa]; intros b Ha Hb; [by intros ?%elem_of_nil|].
  apply StronglySorted_cons in Ha as [Hua Ha]. rewrite Forall_forall in Hua.
  induction b as [|y b IHb]; [by intros _ ?%elem_of_nil|].
  pose proof Hb as Hyb.
  apply StronglySorted_cons in Hb as [Hyb' Hb]. rewrite Forall_forall in Hyb'.
  rewrite set_and_step. intros Hxa Hxb.
  apply elem_of_cons in Hxa as [Hxa|Hxa], Hxb as [Hxb|Hxb].
  - subst. rewrite N.eqb_refl. left.
  - subst x. specialize (Hyb' _ Hxb).
    destruct (N.eqb_spec u y) as [->|_]; [lia|].
    destruct (N.ltb_spec u y); [lia|]. apply IHb; [done|left|done].
  - subst x. specialize (Hua _ Hxa).
    destruct (N.eqb_spec u y) as [->|_]; [lia|].
    destruct (N.ltb_spec u y); [|lia]. apply IHa; [done..|left].
  - pose proof (Hua _ Hxa). pose proof (Hyb' _ Hxb).
    destruct (N.eqb_spec u y) as [->|_]; [right; by apply IHa|].
    destruct (N.ltb_spec u y).
    + apply IHa; [done..|by right].
    + apply IHb; [done|by right|done].
Qed.

End SetExact.

(** X5: on strictly increasing lists [set_and] is the intersection: a
    document id is in the result exactly when it is in both arguments, and
    the result is strictly increasing again. *)
Theorem set_and_intersection (a b : list N) (x : N) :
  StronglySorted N.lt a → StronglySorted N.lt b →
  (x ∈ Query.set_and a b ↔ x ∈ a ∧ x ∈ b) ∧
  StronglySorted N.lt (Query.set_and a b).
Proof.
  intros Ha Hb. split; [split|].
  - intros Hx. split; [|by apply set_and_elem_of_r in Hx].
    by apply (sublist_subseteq _ _ (set_and_sublist a b)).
  - intros [? ?]. by apply set_and_complete.
  - by apply (StronglySorted_sublist _ _ _ (set_and_sublist a b)).
Qed.

Lemma set_and_intersection_witness :
  (3%N ∈ Query.set_and [1; 3; 5]%N [2; 3; 4; 5]%N
   ↔ 3%N ∈ [1; 3; 5]%N ∧ 3%N ∈ [2; 3; 4; 5]%N) ∧
  StronglySorted N.lt (Query.set_and [1; 3; 5]%N [2; 3; 4; 5]%N).
Proof.
  apply set_and_intersection;
    repeat (constructor; [repeat constructor|]); constructor.
Defined.

(** X6: on strictly increasing lists [set_or] is the union: a document id
    is in the result exactly when it is in one of the arguments, and the
    result is strictly increasing, so an id that both arguments hold comes
    out once. *)
Theorem set_or_union (a b : list N) (x : N) :
  StronglySorted N.lt a → StronglySorted N.lt b →
  (x ∈ Query.set_or a b ↔ x ∈ a ∨ x ∈ b) ∧
  StronglySorted N.lt (Query.set_or a b) ∧ NoDup (Query.set_or a b).
Proof.
  intros Ha Hb.
  destruct (set_or_from_sorted a b None Ha Hb) as (Hsorted & _ & Hsub);
    [by apply Forall_forall..|].
  split; [split|].
  - intros Hx. by apply Hsub, elem_of_app in Hx.
  - apply set_or_superset.
  - split; [done|by apply StronglySorted_lt_NoDup].
Qed.

Lemma set_or_union_witness :
  (4%N ∈ Query.set_or [1; 3; 5]%N [2; 3; 4; 5]%N
   ↔ 4%N ∈ [1; 3; 5]%N ∨ 4%N ∈ [2; 3; 4; 5]%N) ∧
  StronglySorted N.lt (Query.set_or [1; 3; 5]%N [2; 3; 4; 5]%N) ∧
  NoDup (Query.set_or [1; 3; 5]%N [2; 3; 4; 5]%N).
Proof.
  apply set_or_union;
    repeat (constructor; [repeat constructor|]); constructor.
Defined.

(** X7: on strictly increasing lists [set_not] is the difference: the
    result holds the ids of the first argument that the second does not
    hold, in the order of the first; against the empty list it is the
    first argument itself. *)
Theorem set_not_difference (universe b : list N) (x : N) :
  StronglySorted N.lt universe → StronglySorted N.lt b →
  (x ∈ Query.set_not universe b ↔ x ∈ universe ∧ x ∉ b) ∧
  Query.set_not universe b `sublist_of` universe ∧
  Query.set_not universe [] = universe.
Proof.
  intros Hu Hb. split; [by apply set_not_elem_of|].
  split; [apply set_not_sublist|apply set_not_nil_r].
Qed.

Lemma set_not_difference_witness :
  (0%N ∈ Query.set_not [0; 1; 2]%N [1]%N ↔ 0%N ∈ [0; 1; 2]%N ∧ 0%N ∉ [1]%N) ∧
  Query.set_not [0; 1; 2]%N [1]%N `sublist_of` [0; 1; 2]%N ∧
  Query.set_not [0; 1; 2]%N [] = [0; 1; 2]%N.
Proof.
  apply set_not_difference;
    repeat (constructor; [repeat constructor|]); constructor.
Defined.

(** ** What a query answers *)

Section QueryMeaning.
Import Query Meaning.

Lemma sat_app idx d l1 l2 stack :
  sat idx d (l1 ++ l2) stack = sat idx d l1 stack ≫= sat idx d l2.
Proof.
  revert stack. induction l1 as [|[op w] l1 IH]; intros stack; [done|].
  cbn [app sat type term]. destruct op; [apply IH|..].
  - destruct stack as [|b [|a stack]]; [done..|apply IH].
  - destruct stack as [|b [|a stack]]; [done..|apply IH].
  - destruct stack as [|a stack]; [done|apply IH].
Qed.

Lemma universe_elem_of n d :
  d ∈ map N.of_nat (seq 0 n) ↔ (d < N.of_nat n)%N.
Proof.
  rewrite list_elem_of_fmap. split.
  - intros (i & -> & Hi%elem_of_seq). lia.
  - intros Hd. exists (N.to_nat d). split; [lia|]. apply elem_of_seq. lia.
Qed.

(** [run] on posting lists and [sat] on truth values go in step. *)
Lemma run_sat idx n d postfix stack vals stack' :
  (d < N.of_nat n)%N →
  (∀ term, posting_list n (postings_for idx term)) →
  Forall2 (λ l b, posting_list n l ∧ (d ∈ l ↔ b = true)) stack vals →
  run idx (map N.of_nat (seq 0 n)) postfix stack = Done stack' →
  ∃ vals', sat idx d postfix vals = Some vals' ∧
    Forall2 (λ l b, posting_list n l ∧ (d ∈ l ↔ b = true)) stack' vals'.
Proof.
  intros Hd Hidx. revert stack vals.
  induction postfix as [|[op w] postfix IH]; intros stack vals Hrel;
    cbn [run sat type term].
  { intros [= <-]. eauto. }
  destruct op.
  - apply IH. constructor; [|done]. split; [apply Hidx|].
    by rewrite bool_decide_eq_true.
  - destruct Hrel as [|b vb ? ? [Hb Hvb] Hrel]; [done|].
    destruct Hrel as [|a va stack vals [Ha Hva] Hrel]; [done|].
    apply IH. constructor; [|done].
    split; [by apply set_and_posting_list|].
    destruct Ha as [Ha _], Hb as [Hb _].
    rewrite andb_true_iff, <- Hva, <- Hvb. split.
    + intros Hx. split; [|by apply set_and_elem_of_r in Hx].
      by apply (sublist_subseteq _ _ (set_and_sublist a b)).
    + intros [? ?]. by apply set_and_complete.
  - destruct Hrel as [|b vb ? ? [Hb Hvb] Hrel]; [done|].
    destruct Hrel as [|a va stack vals [Ha Hva] Hrel]; [done|].
    apply IH. constructor; [|done].
    split; [by apply set_or_posting_list|].
    destruct Ha as [Ha _], Hb as [Hb _].
    rewrite orb_true_iff, <- Hva, <- Hvb.
    destruct (set_or_from_sorted a b None Ha Hb) as (_ & _ & Hsub);
      [by apply Forall_forall..|].
    split; [intros Hx; by apply Hsub, elem_of_app in Hx|apply set_or_superset].
  - destruct Hrel as [|a va stack vals [Ha Hva] Hrel]; [done|].
    apply IH. constructor; [|done].
    split; [apply set_not_posting_list, universe_posting_list|].
    destruct Ha as [Ha _]. destruct (universe_posting_list n) as [Hu _].
    rewrite set_not_elem_of by done. rewrite universe_elem_of, Hva.
    destruct va; cbn [negb]; intuition congruence.
Qed.

Lemma evaluate_sat idx postfix :
  (N.of_nat (length (docs idx)) < 2 ^ 32)%N →
  (∀ term plist, postings idx !! term = Some plist →
                 posting_list (length (docs idx)) plist) →
  well_formed postfix 0 = true →
  ∃ result, evaluate idx postfix = Done result ∧
    ∀ d, d ∈ result ↔
         (d < N.of_nat (length (docs idx)))%N ∧
         ∃ rest, sat idx d postfix [] = Some (true :: rest).
Proof.
  intros Hdocs Hidx Hwf.
  assert (∀ term, posting_list (length (docs idx)) (postings_for idx term))
    as Hterm.
  { intros term. unfold postings_for.
    destruct (postings idx !! term) as [plist|] eqn:E; [by apply (Hidx term)|].
    split; constructor. }
  unfold evaluate. rewrite fill_universe_done by done. cbn [obind].
  destruct (run_well_formed idx (length (docs idx))
              (map N.of_nat (seq 0 (length (docs idx)))) postfix [])
    as (stack & Hrun & Hstack); [apply universe_posting_list|done|constructor|done|].
  rewrite Hrun. cbn [obind]. eexists. split; [done|]. intros d. split.
  - intros Hd.
    assert (d < N.of_nat (length (docs idx)))%N as Hlt.
    { destruct Hstack as [|top stack [_ Hb] _]; [by apply elem_of_nil in Hd|].
      rewrite Forall_forall in Hb. by apply Hb. }
    split; [done|].
    destruct (run_sat idx _ d postfix [] [] stack Hlt Hterm) as (vals & Hsat & Hrel);
      [constructor|done|].
    destruct Hrel as [|top b stack vals [_ Hb] _]; [by apply elem_of_nil in Hd|].
    apply Hb in Hd as ->. eauto.
  - intros [Hlt [rest Hsat]].
    destruct (run_sat idx _ d postfix [] [] stack Hlt Hterm) as (vals & Hsat' & Hrel);
      [constructor|done|].
    rewrite Hsat in Hsat'. injection Hsat' as <-.
    inversion Hrel as [|top b stack' vals' [_ Hb] _]; subst. by apply Hb.
Qed.

End QueryMeaning.

(** X8: over an index of fewer than 2^32 documents whose posting lists
    are strictly increasing lists of ids below the document count,
    [evaluate] answers a postfix program that never pops more than it
    pushed, and a document id is in the answer exactly when it is below
    the document count and the program, run on truth values at that
    document, ends with true on top of its stack: TERM is membership in
    the term's posting list, NOT negates, AND and OR combine the two
    operands below them. *)
Theorem evaluate_selects (idx : Index) (postfix : list Query.Token) :
  (N.of_nat (length (docs idx)) < 2 ^ 32)%N →
  (∀ term plist, postings idx !! term = Some plist →
                 posting_list (length (docs idx)) plist) →
  Query.well_formed postfix 0 = true →
  ∃ result, Query.evaluate idx postfix = Done result ∧
    ∀ d, d ∈ result ↔
         (d < N.of_nat (length (docs idx)))%N ∧
         ∃ rest, Meaning.sat idx d postfix [] = Some (true :: rest).
Proof. apply evaluate_sat. Qed.

Lemma evaluate_selects_witness :
  ∃ result,
    Query.evaluate Scenario.index
      (Query.to_postfix
         (Query.parse_query (lit "cats OR run AND NOT fast") Query.tokenizer true))
    = Done result ∧
    ∀ d, d ∈ result ↔
         (d < N.of_nat (length (docs Scenario.index)))%N ∧
         ∃ rest,
           Meaning.sat Scenario.index d
             (Query.to_postfix
                (Query.parse_query (lit "cats OR run AND NOT fast")
                   Query.tokenizer true)) [] = Some (true :: rest).
Proof.
  apply evaluate_selects.
  - vm_compute. reflexivity.
  - apply (build_fits Scenario.corpus true). vm_compute. reflexivity.
  - vm_compute. reflexivity.
Defined.

(** ** What [to_postfix] makes of a simple query *)

Section ShuntingYard.
Import Query Meaning.

Lemma sat_well_formed idx d postfix stack vals :
  sat idx d postfix stack = Some vals → well_formed postfix (length stack) = true.
Proof.
  revert stack. induction postfix as [|[op w] postfix IH]; intros stack; [done|].
  cbn [sat well_formed type]. destruct op.
  - apply (IH (_ :: stack)).
  - destruct stack as [|b [|a stack]]; [done..|]. apply (IH (_ :: stack)).
  - destruct stack as [|b [|a stack]]; [done..|]. apply (IH (_ :: stack)).
  - destruct stack as [|a stack]; [done|]. apply (IH (_ :: stack)).
Qed.

Ltac sat_output Hsat :=
  rewrite ?sat_app, Hsat; reflexivity.

(** The state of [to_postfix] between two tokens of a simple query, and
    the value the rest of the run arrives at. *)
Lemma shunting idx d infix :
  (∀ has_and has_or c v output,
     sat idx d output [] = Some (pending_values has_and has_or c v) →
     simple_from Operand infix = true →
     sat idx d (to_postfix_from infix (pending_ops false has_and has_or) output) []
     = Some [holds_from idx d infix (if has_or then v else false)
               (if has_and then c else true) false]) ∧
  (∀ has_and has_or c v output,
     sat idx d output [] = Some (pending_values has_and has_or c v) →
     simple_from TermAfterNot infix = true →
     sat idx d (to_postfix_from infix (pending_ops true has_and has_or) output) []
     = Some [holds_from idx d infix (if has_or then v else false)
               (if has_and then c else true) true]) ∧
  (∀ has_not has_and has_or l c v output,
     sat idx d output [] = Some (l :: pending_values has_and has_or c v) →
     simple_from Operator infix = true →
     sat idx d (to_postfix_from infix (pending_ops has_not has_and has_or) output) []
     = Some [holds_from idx d infix (if has_or then v else false)
               ((if has_and then c else true) && xorb has_not l) false]).
Proof.
  induction infix as [|[op w] infix (IHoperand & IHnot & IHoperator)].
  { split; [done|]. split; [done|].
    intros has_not has_and has_or l c v output Hsat _.
    cbn [to_postfix_from holds_from]. rewrite sat_app, Hsat.
    by destruct has_not, has_and, has_or, l, c, v. }
  split; [|split].
  - intros has_and has_or c v output Hsat Hsimple. destruct op; try done.
    + cbn [to_postfix_from holds_from type term].
      apply (IHoperator false has_and has_or _ c v); [|done].
      by rewrite sat_app, Hsat.
    + cbn [holds_from type].
      destruct has_and, has_or; apply (IHnot _ _ c v output Hsat Hsimple).
  - intros has_and has_or c v output Hsat Hsimple. destruct op; try done.
    cbn [to_postfix_from holds_from type term].
    apply (IHoperator true has_and has_or _ c v); [|done].
    by rewrite sat_app, Hsat.
  - intros has_not has_and has_or l c v output Hsat Hsimple.
    destruct op; try done.
    + (* AND *)
      cbn [holds_from type].
      destruct has_not, has_and, has_or;
        (unshelve eapply (IHoperand true true)
         || unshelve eapply (IHoperand true false));
        try exact Hsimple; try exact false; sat_output Hsat.
    + (* OR *)
      cbn [holds_from type].
      destruct has_not, has_and, has_or;
        unshelve eapply (IHoperand false true);
        try exact Hsimple; try exact false; sat_output Hsat.
Qed.

Lemma to_postfix_holds idx d infix :
  simple_query infix = true →
  sat idx d (to_postfix infix) [] = Some [holds idx infix d].
Proof.
  intros Hsimple. by apply (proj1 (shunting idx d infix) false false false false []).
Qed.





End ShuntingYard.

(** X9: for a query of terms joined by AND and OR, each term with at most
    one NOT in front, [to_postfix] gives a program that never pops an empty
    stack and whose truth value at every document is that of the query
    read with NOT binding tighter than AND and AND tighter than OR, both
    from left to right. *)
Theorem to_postfix_precedence (idx : Index) (infix : list Query.Token) (d : N) :
  Meaning.simple_query infix = true →
  Query.well_formed (Query.to_postfix infix) 0 = true ∧
  Meaning.sat idx d (Query.to_postfix infix) [] = Some [Meaning.holds idx infix d].
Proof.
  intros Hsimple. pose proof (to_postfix_holds idx d infix Hsimple) as Hsat.
  split; [|done]. by apply (sat_well_formed idx d _ [] _ Hsat).
Qed.

Lemma to_postfix_precedence_witness :
  Query.well_formed
    (Query.to_postfix
       (Query.parse_query (lit "cats OR run AND NOT fast") Query.tokenizer true))
    0 = true ∧
  Meaning.sat Scenario.index 1
    (Query.to_postfix
       (Query.parse_query (lit "cats OR run AND NOT fast") Query.tokenizer true))
    []
  = Some [Meaning.holds Scenario.index
            (Query.parse_query (lit "cats OR run AND NOT fast")
               Query.tokenizer true) 1%N].
Proof.
  apply to_postfix_precedence. vm_compute. reflexivity.
Defined.

(** X10: the whole answer to a query line. Over an index of fewer than
    2^32 documents whose posting lists are strictly increasing lists of
    ids below the document count, a query line that parses to terms
    joined by AND and OR, each with at most one NOT in front, is answered
    with a strictly increasing list that holds exactly the document ids
    below the document count at which the query is true, NOT binding
    tighter than AND and AND tighter than OR, both from left to right. *)
Theorem answer_simple_query (idx : Index) (use_stem : bool) (query : str) :
  (N.of_nat (length (docs idx)) < 2 ^ 32)%N →
  (∀ term plist, postings idx !! term = Some plist →
                 posting_list (length (docs idx)) plist) →
  Meaning.simple_query (Query.parse_query query Query.tokenizer use_stem) = true →
  ∃ result, Query.answer idx use_stem query = Done result ∧
    StronglySorted N.lt result ∧
    ∀ d, d ∈ result ↔
         (d < N.of_nat (length (docs idx)))%N ∧
         Meaning.holds idx (Query.parse_query query Query.tokenizer use_stem) d
         = true.
Proof.
  intros Hdocs Hidx Hsimple. unfold Query.answer.
  set (infix := Query.parse_query query Query.tokenizer use_stem) in *.
  assert (Query.well_formed (Query.to_postfix infix) 0 = true) as Hwf.
  { apply (sat_well_formed idx 0%N _ [] _ (to_postfix_holds idx 0%N infix Hsimple)). }
  destruct (evaluate_sat idx (Query.to_postfix infix) Hdocs Hidx Hwf)
    as (result & Heval & Hmem).
  exists result. split; [done|]. split.
  - unfold Query.evaluate in Heval. rewrite fill_universe_done in Heval by done.
    cbn [obind] in Heval.
    destruct (run_well_formed idx (length (docs idx))
                (map N.of_nat (seq 0 (length (docs idx))))
                (Query.to_postfix infix) [])
      as (stack & Hrun & Hstack); [apply universe_posting_list| |constructor|done|].
    { intros term. unfold Query.postings_for.
      destruct (postings idx !! term) as [plist|] eqn:E; [by apply (Hidx term)|].
      split; constructor. }
    rewrite Hrun in Heval. cbn [obind] in Heval. injection Heval as <-.
    destruct Hstack as [|top stack [Hs _] _]; [constructor|done].
  - intros d. rewrite Hmem, (to_postfix_holds idx d infix Hsimple).
    split; intros [Hd H]; (split; [done|]).
    + destruct H as [rest [= H]]. done.
    + rewrite H. eauto.
Qed.

Lemma answer_simple_query_witness :
  ∃ result,
    Query.answer Scenario.index true (lit "run AND NOT fast") = Done result ∧
    StronglySorted N.lt result ∧
    ∀ d, d ∈ result ↔
         (d < N.of_nat (length (docs Scenario.index)))%N ∧
         Meaning.holds Scenario.index
           (Query.parse_query (lit "run AND NOT fast") Query.tokenizer true) d
         = true.
Proof.
  apply answer_simple_query.
  - vm_compute. reflexivity.
  - apply (build_fits Scenario.corpus true). vm_compute. reflexivity.
  - vm_compute. reflexivity.
Defined.


(** ** What the builder puts in the index *)

Section IndexContents.
Import Builder Contents.

Lemma add_postings_from_lookup m doc_id tokens use_stem seen term :
  add_postings_from m doc_id tokens use_stem seen !! term
  = if decide (term ∈ filter (λ w, w ≠ [])
                         (map (λ tok, if use_stem then Stemmer.stem_token tok
                                      else tok) tokens)
               ∧ term ∉ seen)
    then Some (default [] (m !! term) ++ [doc_id])
    else m !! term.
Proof.
  revert m seen. induction tokens as [|tok tokens IH]; intros m seen.
  { cbn. case_decide as H; [|done]. destruct H as [H _]. by apply elem_of_nil in H. }
  cbn [add_postings_from map].
  set (w := if use_stem then Stemmer.stem_token tok else tok).
  set (rest := filter (λ w, w ≠ [])
                 (map (λ tok, if use_stem then Stemmer.stem_token tok else tok)
                    tokens)) in *.
  destruct (decide (w = [])) as [Hw|Hw].
  { rewrite Hw. rewrite filter_cons_False by (intros H; by apply H).
    apply IH. }
  rewrite filter_cons_True by done.
  assert (match w with
          | [] => add_postings_from m doc_id tokens use_stem seen
          | _ :: _ =>
              if decide (w ∈ seen)
              then add_postings_from m doc_id tokens use_stem seen
              else add_postings_from (<[w:=default [] (m !! w) ++ [doc_id]]> m)
                     doc_id tokens use_stem ({[w]} ∪ seen)
          end
          = if decide (w ∈ seen)
            then add_postings_from m doc_id tokens use_stem seen
            else add_postings_from (<[w:=default [] (m !! w) ++ [doc_id]]> m)
                   doc_id tokens use_stem ({[w]} ∪ seen)) as ->
    by (by destruct w).
  destruct (decide (w ∈ seen)) as [Hseen|Hseen]; rewrite IH.
  - apply decide_ext. split; intros [H ?]; (split; [|done]).
    + by right.
    + apply elem_of_cons in H as [->|H]; done.
  - destruct (decide (term = w)) as [->|Hne].
    + rewrite lookup_insert_eq.
      rewrite decide_False
        by (intros [_ H]; apply H, elem_of_union; left; by apply elem_of_singleton).
      rewrite decide_True; [done|]. split; [left|done].
    + rewrite lookup_insert_ne by done.
      apply decide_ext. split; intros [H Hseen']; split.
      * by right.
      * intros ?. apply Hseen', elem_of_union. by right.
      * apply elem_of_cons in H as [->|H]; done.
      * by intros [?%elem_of_singleton|?]%elem_of_union.
Qed.

Lemma ingest_lookup use_stem idx doc_id id text term :
  postings (ingest use_stem (idx, doc_id) (id, text)).1 !! term
  = if bool_decide (term ∈ terms_of use_stem text)
    then Some (default [] (postings idx !! term) ++ [doc_id])
    else postings idx !! term.
Proof.
  unfold ingest, add_postings. cbn [fst postings].
  rewrite add_postings_from_lookup. unfold terms_of.
  case_bool_decide as H.
  - rewrite decide_True; [done|]. split; [done|set_solver].
  - rewrite decide_False; [done|]. by intros [? _].
Qed.

Lemma ingest_all_lookup use_stem documents st k B term :
  st.2 = N.of_nat k → k + length documents ≤ B → (N.of_nat B < 2 ^ 32)%N →
  postings (foldl (ingest use_stem) st documents).1 !! term
  = extend (postings st.1 !! term) (containing_from use_stem term documents k).
Proof.
  intros Hid Hcount HB. revert st k Hid Hcount.
  induction documents as [|[id text] documents IH]; intros [idx doc_id] k Hid Hcount;
    cbn [foldl containing_from length fst snd] in *; [done|].
  rewrite (IH _ (S k)).
  - rewrite ingest_lookup. subst doc_id.
    case_bool_decide; [|done].
    destruct (containing_from use_stem term documents (S k)) as [|x l]; [done|].
    cbn [extend]. f_equal.
    change (default [] (Some ?v)) with v. by rewrite <- app_assoc.
  - destruct (ingest_docs use_stem (idx, doc_id) (id, text)) as [_ ->].
    cbn [snd]. subst doc_id. clear -Hcount HB. rewrite u32_small; lia.
  - clear -Hcount. lia.
Qed.

Lemma containing_from_increasing use_stem term documents k :
  StronglySorted N.lt (containing_from use_stem term documents k) ∧
  Forall (λ x, (N.of_nat k <= x)%N) (containing_from use_stem term documents k).
Proof.
  revert k. induction documents as [|record documents IH]; intros k;
    cbn [containing_from]; [split; constructor|].
  destruct (IH (S k)) as [Hs Hge].
  case_bool_decide.
  - split; constructor; [done| |lia|].
    + eapply Forall_impl; [exact Hge|]. cbn. lia.
    + eapply Forall_impl; [exact Hge|]. cbn. lia.
  - split; [done|]. eapply Forall_impl; [exact Hge|]. cbn. lia.
Qed.

Lemma containing_from_elem_of use_stem term documents k x :
  x ∈ containing_from use_stem term documents k ↔
  ∃ d record, x = N.of_nat (k + d) ∧ documents !! d = Some record ∧
              term ∈ terms_of use_stem record.2.
Proof.
  revert k. induction documents as [|record documents IH]; intros k;
    cbn [containing_from].
  { split; [by intros ?%elem_of_nil|by intros (d & r & _ & ? & _)]. }
  assert (x ∈ containing_from use_stem term documents (S k) ↔
          ∃ d record', x = N.of_nat (k + S d) ∧ documents !! d = Some record' ∧
                       term ∈ terms_of use_stem record'.2) as Hrest.
  { rewrite IH. split; intros (d & r & -> & ? & ?); exists d, r;
      (split; [f_equal; lia|done]). }
  case_bool_decide as Hterm; rewrite ?elem_of_cons, Hrest; split.
  - intros [->|(d & r & -> & ? & ?)].
    + exists 0, record. split; [f_equal; lia|done].
    + by exists (S d), r.
  - intros ([|d] & r & -> & Hr & ?).
    + left. f_equal. lia.
    + right. by exists d, r.
  - intros (d & r & -> & ? & ?). by exists (S d), r.
  - intros ([|d] & r & -> & Hr & ?).
    + cbn in Hr. by injection Hr as <-.
    + by exists d, r.
Qed.

Lemma sort_increasing (l : list N) : StronglySorted N.lt l → sort l = l.
Proof.
  intros Hl. apply (StronglySorted_unique_strong N.le).
  - intros x y _ _ ? ?. lia.
  - apply sort_sorted.
  - induction Hl as [|x l' _ IH Hx]; constructor; [done|].
    eapply Forall_impl; [exact Hx|]. cbn. lia.
  - apply merge_sort_Permutation.
Qed.

End IndexContents.

Section IndexExact.
Import Builder Contents.

Lemma unique_after_increasing prev (l : list N) :
  Forall (λ x, (prev < x)%N) l → StronglySorted N.lt l → unique_after prev l = l.
Proof.
  revert prev. induction l as [|x l IH]; intros prev Hprev Hl; [done|].
  apply Forall_cons in Hprev as [Hx _].
  apply StronglySorted_inv in Hl as [Hl Hxl].
  cbn [unique_after].
  destruct (N.eqb_spec x prev) as [->|_]; [lia|].
  by rewrite IH.
Qed.

Lemma unique_increasing (l : list N) : StronglySorted N.lt l → unique l = l.
Proof.
  destruct l as [|x l]; [done|]. intros [Hl Hx]%StronglySorted_inv.
  cbn [unique]. by rewrite unique_after_increasing.
Qed.

Lemma raw_postings documents use_stem term :
  (N.of_nat (length documents) < 2 ^ 32)%N →
  postings (foldl (ingest use_stem) start documents).1 !! term
  = extend None (containing use_stem documents term).
Proof.
  intros Hcount.
  by rewrite (ingest_all_lookup use_stem documents start 0 (length documents)).
Qed.

(** X12: with fewer than 2^32 documents, the index [main] builds maps a
    term to exactly the ids, in increasing order, of the documents whose
    text gives that term (a token of the text, stemmed when stemming is
    on, and not empty); a term of no document has no entry. Document [d]
    is the [d]-th record read. *)
Theorem build_postings (documents : list (str * str)) (use_stem : bool)
    (term : str) :
  (N.of_nat (length documents) < 2 ^ 32)%N →
  postings (Builder.build documents use_stem) !! term
  = match containing use_stem documents term with
    | [] => None
    | ids => Some ids
    end
  ∧ StronglySorted N.lt (containing use_stem documents term)
  ∧ ∀ d : nat,
      N.of_nat d ∈ containing use_stem documents term ↔
      ∃ record, documents !! d = Some record ∧
                term ∈ terms_of use_stem record.2.
Proof.
  intros Hcount. split; [|split].
  - unfold build, finalize. cbn [postings]. rewrite lookup_fmap.
    rewrite raw_postings by done.
    pose proof (containing_from_increasing use_stem term documents 0) as [Hs _].
    unfold containing in *.
    destruct (containing_from use_stem term documents 0) as [|x l] eqn:E; [done|].
    cbn [extend default fmap option_fmap option_map app].
    by rewrite sort_increasing, unique_increasing.
  - apply containing_from_increasing.
  - intros d. unfold containing. rewrite containing_from_elem_of. split.
    + intros (d' & record & Hd & ? & ?). apply Nat2N.inj in Hd. subst d.
      by exists record.
    + intros (record & ? & ?). by exists d, record.
Qed.

Lemma build_postings_witness :
  (N.of_nat (length Scenario.corpus) < 2 ^ 32)%N ∧
  postings (Builder.build Scenario.corpus true) !! lit "run"
  = match containing true Scenario.corpus (lit "run") with
    | [] => None
    | ids => Some ids
    end.
Proof.
  assert (N.of_nat (length Scenario.corpus) < 2 ^ 32)%N as H by (vm_compute; done).
  split; [exact H|]. exact (proj1 (build_postings Scenario.corpus true (lit "run") H)).
Defined.

(** X13: with fewer than 2^32 documents the finalization loop of [main]
    changes nothing: every posting list is already sorted and free of
    duplicates when the read loop ends. *)
Theorem finalize_changes_nothing (documents : list (str * str))
    (use_stem : bool) :
  (N.of_nat (length documents) < 2 ^ 32)%N →
  Builder.finalize (foldl (Builder.ingest use_stem) Builder.start documents).1
  = (foldl (Builder.ingest use_stem) Builder.start documents).1.
Proof.
  intros Hcount.
  set (raw := (foldl (ingest use_stem) start documents).1).
  assert (postings (finalize raw) = postings raw) as Hpost.
  { apply map_eq. intros term. unfold finalize. cbn [postings].
    rewrite lookup_fmap. subst raw. rewrite raw_postings by done.
    pose proof (containing_from_increasing use_stem term documents 0) as [Hs _].
    unfold containing.
    destruct (containing_from use_stem term documents 0) as [|x l] eqn:E; [done|].
    cbn [extend default fmap option_fmap option_map app].
    by rewrite sort_increasing, unique_increasing. }
  destruct raw as [raw_docs raw_postings]. unfold finalize in *.
  cbn [docs postings] in *. by rewrite Hpost.
Qed.

Lemma finalize_changes_nothing_witness :
  (N.of_nat (length Scenario.corpus) < 2 ^ 32)%N ∧
  Builder.finalize (foldl (Builder.ingest true) Builder.start Scenario.corpus).1
  = (foldl (Builder.ingest true) Builder.start Scenario.corpus).1.
Proof.
  assert (N.of_nat (length Scenario.corpus) < 2 ^ 32)%N as H by (vm_compute; done).
  split; [exact H|]. exact (finalize_changes_nothing Scenario.corpus true H).
Defined.

End IndexExact.

(** ** The JSONL field reader *)

Section FieldReader.
Import Builder.

Lemma starts_with_app s pat :
  starts_with s pat = true ↔ ∃ rest, s = pat ++ rest.
Proof.
  revert s. induction pat as [|p pat IH]; intros s.
  { destruct s; cbn; split; eauto. }
  destruct s as [|c s]; cbn [starts_with].
  { split; [done|]. by intros [rest ?]. }
  rewrite andb_true_iff, bool_decide_eq_true, IH. split.
  - intros [-> [rest ->]]. by exists rest.
  - intros [rest [= -> ->]]. eauto.
Qed.

Lemma find_in_step s pat p :
  find_in s pat p
  = if starts_with s pat then Some p
    else match s with
         | [] => None
         | _ :: s' => find_in s' pat (S p)
         end.
Proof. by destruct s. Qed.

Lemma find_in_first s pat p k :
  starts_with (drop k s) pat = true →
  (∀ j, j < k → starts_with (drop j s) pat = false) →
  find_in s pat p = Some (p + k).
Proof.
  revert s p. induction k as [|k IH]; intros s p Hk Hbefore;
    rewrite find_in_step.
  { rewrite drop_0 in Hk. rewrite Hk. f_equal. lia. }
  pose proof (Hbefore 0 ltac:(lia)) as H0. rewrite drop_0 in H0. rewrite H0.
  destruct s as [|c s].
  { cbn [drop] in Hk. congruence. }
  rewrite (IH s (S p)); [f_equal; lia|done|].
  intros j Hj. apply (Hbefore (S j)). lia.
Qed.

Lemma find_in_none s pat p :
  (∀ j, starts_with (drop j s) pat = false) → find_in s pat p = None.
Proof.
  revert p. induction s as [|c s IH]; intros p Hnone; rewrite find_in_step;
    pose proof (Hnone 0) as H0; rewrite drop_0 in H0; rewrite H0; [done|].
  apply IH. intros j. apply (Hnone (S j)).
Qed.

Lemma find_in_Some s pat p q :
  find_in s pat p = Some q →
  ∃ k, q = p + k ∧ k ≤ length s ∧ starts_with (drop k s) pat = true.
Proof.
  revert p. induction s as [|c s IH]; intros p; rewrite find_in_step.
  - destruct (starts_with [] pat) eqn:E; [|done].
    intros [= <-]. exists 0. by rewrite Nat.add_0_r.
  - destruct (starts_with (c :: s) pat) eqn:E.
    + intros [= <-]. exists 0. rewrite Nat.add_0_r. cbn. split; [done|].
      split; [lia|done].
    + intros (k & -> & ? & ?)%IH. exists (S k). cbn [drop length].
      split; [lia|]. split; [lia|done].
Qed.

Lemma find_in_char c mid rest p :
  c ∉ mid → find_in (mid ++ c :: rest) [c] p = Some (p + length mid).
Proof.
  intros Hc. apply find_in_first.
  - rewrite drop_app_length. apply starts_with_app. by exists rest.
  - intros j Hj. destruct (lookup_lt_is_Some_2 mid j Hj) as [x Hx].
    rewrite drop_app_le by lia.
    rewrite (drop_S mid x j Hx).
    destruct (starts_with _ _) eqn:E; [exfalso|done].
    apply starts_with_app in E as [after [= ->]].
    apply Hc. by eapply list_elem_of_lookup_2.
Qed.

Lemma advance_while_stop f l c rest p :
  Forall (λ x, f x = true) l → f c = false →
  advance_while f (l ++ c :: rest) p = p + length l.
Proof.
  intros Hl Hc. revert p. induction Hl as [|x l Hx _ IH]; intros p; cbn.
  - rewrite Hc. lia.
  - rewrite Hx, IH. lia.
Qed.

Lemma decode_from_step rest out :
  decode_from rest out
  = match rest with
    | [] => None
    | c :: rest1 =>
        if bool_decide (c = backslash) then
          match rest1 with
          | [] => None
          | esc :: rest2 => decode_from rest2 (out ++ [unescape esc])
          end
        else if bool_decide (c = quote) then Some out
        else decode_from rest1 (out ++ [c])
    end.
Proof. by destruct rest. Qed.

End FieldReader.

(** X14: on a line where the quoted key first occurs after [pre], followed
    by bytes [mid] without a colon, a colon, bytes [gap] without a double
    quote, and a double quote, [extract_field] returns what
    [decode_json_string] reads after that double quote: the text between
    the key and the colon, and between the colon and the opening quote,
    is skipped whatever it is. *)
Theorem extract_field_skips (key pre mid gap tail : str) :
  let pattern := [quote] ++ key ++ [quote] in
  let line := pre ++ pattern ++ mid ++ [":"%char] ++ gap ++ [quote] ++ tail in
  (∀ before after,
     line = before ++ pattern ++ after → length pre ≤ length before) →
  ":"%char ∉ mid → quote ∉ gap →
  Builder.extract_field line key = Builder.decode_from tail [].
Proof.
  intros pattern line Hfirst Hmid Hgap. unfold Builder.extract_field.
  fold pattern.
  assert (Builder.find line pattern 0 = Some (length pre)) as ->.
  { unfold Builder.find. cbn [Nat.ltb Nat.leb]. rewrite drop_0.
    apply (find_in_first line pattern 0 (length pre)).
    - unfold line. rewrite drop_app_length. apply starts_with_app. eauto.
    - intros j Hj. destruct (Builder.starts_with (drop j line) pattern) eqn:E;
        [exfalso|done].
      apply starts_with_app in E as [after E].
      specialize (Hfirst (take j line) after).
      rewrite <- E, take_drop in Hfirst. specialize (Hfirst eq_refl).
      rewrite length_take in Hfirst. lia. }
  set (rest1 := mid ++ [":"%char] ++ gap ++ [quote] ++ tail).
  assert (drop (length pre + length pattern) line = rest1) as Hdrop1.
  { unfold line. rewrite drop_app_add, drop_app_length. done. }
  assert (length line = length pre + length pattern + length rest1) as Hlen.
  { unfold line, rest1. rewrite !length_app. lia. }
  assert (Builder.find line [":"%char] (length pre + length pattern)
          = Some (length pre + length pattern + length mid)) as ->.
  { unfold Builder.find. rewrite Hdrop1.
    destruct (Nat.ltb_spec (length line) (length pre + length pattern)); [lia|].
    by apply find_in_char. }
  set (rest2 := gap ++ [quote] ++ tail).
  assert (drop (length pre + length pattern + length mid) line
          = ":"%char :: rest2) as Hdrop2.
  { rewrite <- drop_drop, Hdrop1.
    unfold rest1. by rewrite drop_app_length. }
  assert (length rest1 = length mid + S (length rest2)) as Hlen1.
  { unfold rest1. rewrite length_app. done. }
  rewrite Hdrop2. cbn [Builder.advance_while].
  change (Builder.isspace ":") with false. cbv iota.
  destruct (Nat.leb_spec (length line) (length pre + length pattern + length mid));
    [lia|].
  rewrite Hdrop2.
  change (":"%char :: rest2) with ((":"%char :: gap) ++ quote :: tail).
  rewrite advance_while_stop.
  2: { constructor; [done|]. apply Forall_forall. intros x Hx.
       apply negb_true_iff, bool_decide_eq_false_2. by intros ->. }
  2: { by rewrite bool_decide_eq_true_2. }
  assert (length rest2 = length gap + S (length tail)) as Hlen2.
  { unfold rest2. rewrite length_app. done. }
  cbn [length].
  destruct (Nat.leb_spec (length line)
              (length pre + length pattern + length mid + S (length gap)));
    [lia|].
  unfold Builder.decode_json_string.
  rewrite <- drop_drop, Hdrop2. cbn [drop]. unfold rest2.
  rewrite drop_app_length. cbn [app].
  by rewrite bool_decide_eq_true_2.
Qed.

Lemma extract_field_skips_witness :
  Builder.extract_field (json "{'id' : '7'}") (lit "id") = Some (lit "7").
Proof.
  apply (extract_field_skips (lit "id") (lit "{") (lit " ") (lit " ")
           (json "7'}")).
  - intros [|c before] after H;
      [|change (length (lit "{")) with 1; cbn [length]; lia].
    apply (f_equal head) in H. vm_compute in H. discriminate H.
  - vm_compute. by intros [= ?]%list_elem_of_singleton.
  - vm_compute. by intros [= ?]%list_elem_of_singleton.
Defined.

Section DecodeFacts.
Import Builder.

Lemma decode_from_app body rest out :
  quote ∉ body → backslash ∉ body →
  decode_from (body ++ rest) out = decode_from rest (out ++ body).
Proof.
  revert out. induction body as [|c body IH]; intros out Hq Hb.
  { by rewrite app_nil_r. }
  apply not_elem_of_cons in Hq as [Hcq Hq], Hb as [Hcb Hb].
  cbn [app]. rewrite decode_from_step.
  rewrite bool_decide_eq_false_2 by done.
  rewrite bool_decide_eq_false_2 by done.
  rewrite IH by done. by rewrite <- app_assoc.
Qed.

Lemma advance_while_ge f rest p : p ≤ advance_while f rest p.
Proof.
  revert p. induction rest as [|c rest IH]; intros p; cbn; [done|].
  destruct (f c); [|done]. specialize (IH (S p)). lia.
Qed.

Lemma decode_from_Some rest :
  (∀ out value, decode_from rest out = Some value →
     quote ∈ rest ∧ length value + 1 ≤ length out + length rest) ∧
  (∀ c out value, decode_from (c :: rest) out = Some value →
     quote ∈ c :: rest ∧ length value + 1 ≤ length out + length (c :: rest)).
Proof.
  induction rest as [|x rest [IHa IHb]].
  - split; [done|]. intros c out value. rewrite decode_from_step.
    case_bool_decide; [done|]. case_bool_decide as Hq; [|done].
    intros [= <-]. subst c. split; [left|cbn; lia].
  - split; [apply IHb|]. intros c out value. rewrite decode_from_step.
    case_bool_decide.
    { intros [? Hlen]%IHa. split; [by do 2 right|].
      rewrite length_app in Hlen. cbn [length] in *. lia. }
    case_bool_decide as Hq.
    { intros [= <-]. subst c. split; [left|cbn; lia]. }
    intros [? Hlen]%IHb. split; [by right|].
    rewrite length_app in Hlen. cbn [length] in *. lia.
Qed.

End DecodeFacts.

(** X15: [decode_json_string] started at the opening double quote of a
    string without backslash returns the bytes up to the next double
    quote, whatever follows it. *)
Theorem decode_json_string_plain (pre body post : str) :
  quote ∉ body → backslash ∉ body →
  Builder.decode_json_string (pre ++ [quote] ++ body ++ [quote] ++ post)
    (length pre)
  = Some body.
Proof.
  intros Hq Hb. unfold Builder.decode_json_string.
  rewrite drop_app_length. cbn [app].
  rewrite bool_decide_eq_true_2 by done.
  rewrite decode_from_app by done. rewrite decode_from_step.
  cbn [app]. rewrite bool_decide_eq_false_2 by done.
  by rewrite bool_decide_eq_true_2.
Qed.

Lemma decode_json_string_plain_witness :
  Builder.decode_json_string (json "{'id': 'a7', 'text': 'x'}") 7
  = Some (lit "a7").
Proof.
  apply (decode_json_string_plain (json "{'id': ") (lit "a7")
           (json ", 'text': 'x'}")).
  - vm_compute. intros H. apply list_elem_of_In in H. cbn in H.
    intuition discriminate.
  - vm_compute. intros H. apply list_elem_of_In in H. cbn in H.
    intuition discriminate.
Defined.

Lemma decode_json_string_Some src pos value :
  Builder.decode_json_string src pos = Some value →
  src !! pos = Some quote ∧ quote ∈ drop (S pos) src ∧
  length value + 2 + pos ≤ length src.
Proof.
  unfold Builder.decode_json_string.
  destruct (drop pos src) as [|c rest] eqn:E; [done|].
  case_bool_decide as Hc; [subst c|done].
  intros [Hq Hlen]%decode_from_Some.
  assert (src !! pos = Some quote) as Hpos.
  { rewrite <- (Nat.add_0_r pos), <- lookup_drop, E. done. }
  assert (drop (S pos) src = rest) as ->.
  { by rewrite <- Nat.add_1_r, <- drop_drop, E. }
  split; [done|]. split; [done|].
  apply (f_equal length) in E. rewrite length_drop in E.
  cbn [length] in *. lia.
Qed.

(** X16: [decode_json_string] succeeds only at a double quote that a
    later double quote closes: the source reads [before], a double quote,
    [body], a double quote, with [pos] the length of [before], and the
    value is no longer than [body]. A string that is not closed is
    refused. *)
Theorem decode_json_string_closed (src : str) (pos : nat) (value : str) :
  Builder.decode_json_string src pos = Some value →
  (∃ before body after,
     src = before ++ [quote] ++ body ++ [quote] ++ after ∧
     length before = pos ∧ length value ≤ length body) ∧
  length value + 2 + pos ≤ length src.
Proof.
  intros H. split; [|by apply decode_json_string_Some in H as (_ & _ & ?)].
  unfold Builder.decode_json_string in H.
  destruct (drop pos src) as [|c rest] eqn:E; [done|].
  case_bool_decide as Hc; [subst c|done].
  assert (∀ rest out value,
            Builder.decode_from rest out = Some value →
            ∃ body after, rest = body ++ [quote] ++ after ∧
                          length value ≤ length out + length body) as Hclosed.
  { clear. intros rest.
    assert ((∀ out value, Builder.decode_from rest out = Some value →
               ∃ body after, rest = body ++ [quote] ++ after ∧
                             length value ≤ length out + length body) ∧
            (∀ c out value, Builder.decode_from (c :: rest) out = Some value →
               ∃ body after, c :: rest = body ++ [quote] ++ after ∧
                             length value ≤ length out + length body))
      as [? _]; [|done].
    induction rest as [|x rest [IHa IHb]].
    - split; [done|]. intros c out value. rewrite decode_from_step.
      case_bool_decide; [done|]. case_bool_decide as Hq; [|done].
      intros [= <-]. subst c. exists [], []. split; [done|lia].
    - split; [apply IHb|]. intros c out value. rewrite decode_from_step.
      case_bool_decide.
      { intros (body & after & -> & Hlen)%IHa. exists (c :: x :: body), after.
        split; [done|]. rewrite length_app in Hlen. cbn [length] in *. lia. }
      case_bool_decide as Hq.
      { intros [= <-]. subst c. exists [], (x :: rest). split; [done|lia]. }
      intros (body & after & Hrest & Hlen)%IHb. exists (c :: body), after.
      split; [by rewrite Hrest|].
      rewrite length_app in Hlen. cbn [length] in *. lia. }
  apply Hclosed in H as (body & after & -> & Hlen).
  exists (take pos src), body, after. split; [|split; [|done]].
  - transitivity (take pos src ++ drop pos src);
      [by rewrite take_drop|by rewrite E].
  - rewrite length_take. apply (f_equal length) in E.
    rewrite length_drop in E. cbn [length] in E. lia.
Qed.

Lemma decode_json_string_closed_witness :
  Builder.decode_json_string (json "'ab' x") 0 = Some (lit "ab") ∧
  length (lit "ab") + 2 + 0 ≤ length (json "'ab' x").
Proof.
  assert (Builder.decode_json_string (json "'ab' x") 0 = Some (lit "ab")) as H
    by (vm_compute; reflexivity).
  split; [exact H|].
  exact (proj2 (decode_json_string_closed (json "'ab' x") 0 (lit "ab") H)).
Defined.

(** X17: [extract_field] returns a value only for a line in which the key
    occurs between double quotes and a colon follows that occurrence; the
    line is at least four bytes longer than key and value together. A line without the quoted key, or
    without a colon after it, is refused. *)
Theorem extract_field_needs_key (line key value : str) :
  Builder.extract_field line key = Some value →
  (∃ before after,
     line = before ++ [quote] ++ key ++ [quote] ++ after ∧ ":"%char ∈ after) ∧
  length value + length key + 4 ≤ length line.
Proof.
  unfold Builder.extract_field.
  set (pattern := [quote] ++ key ++ [quote]).
  destruct (Builder.find line pattern 0) as [p|] eqn:Ekey; [|done].
  destruct (Builder.find line [":"%char] (p + length pattern)) as [p2|] eqn:Ecolon;
    [|done].
  pose proof (advance_while_ge Builder.isspace (drop p2 line) p2) as Hp3.
  set (p3 := Builder.advance_while Builder.isspace (drop p2 line) p2) in *.
  destruct (length line <=? p3); [done|].
  pose proof (advance_while_ge (λ c, negb (bool_decide (c = quote)))
                (drop p3 line) p3) as Hp4.
  set (p4 := Builder.advance_while _ (drop p3 line) p3) in *.
  destruct (length line <=? p4); [done|].
  intros (_ & _ & Hlen)%decode_json_string_Some.
  unfold Builder.find in Ekey, Ecolon.
  destruct (length line <? 0); [done|]. rewrite drop_0 in Ekey.
  apply find_in_Some in Ekey as (k & -> & Hk & Hpat).
  apply starts_with_app in Hpat as [after Hafter].
  destruct (length line <? 0 + k + length pattern); [done|].
  apply find_in_Some in Ecolon as (k2 & -> & _ & Hcolon).
  apply starts_with_app in Hcolon as [after2 Hafter2].
  split.
  2: { unfold pattern in *. rewrite !length_app in *. cbn [length] in *. lia. }
  exists (take k line), after. split.
  - unfold pattern in Hafter. rewrite <- !app_assoc in Hafter.
    by rewrite <- Hafter, take_drop.
  - cbn [Nat.add] in Hafter2.
    rewrite <- (drop_drop line (length pattern) k), Hafter in Hafter2.
    rewrite drop_app_length in Hafter2.
    rewrite <- (take_drop k2 after), Hafter2.
    apply elem_of_app. right. left.
Qed.

Lemma extract_field_needs_key_witness :
  Builder.extract_field (json "{'id' : '7'}") (lit "id") = Some (lit "7") ∧
  length (lit "7") + length (lit "id") + 4 ≤ length (json "{'id' : '7'}").
Proof.
  assert (Builder.extract_field (json "{'id' : '7'}") (lit "id")
          = Some (lit "7")) as H by (vm_compute; reflexivity).
  split; [exact H|].
  exact (proj2 (extract_field_needs_key _ _ _ H)).
Defined.

(** ** What the tokenizer returns *)

Section TokenFacts.
Import Tokenizer Words.

Lemma obind_Done {A B} (m : outcome A) (k : A → outcome B) b :
  obind m k = Done b → ∃ a, m = Done a ∧ k a = Done b.
Proof. destruct m as [a| |]; [eauto|done..]. Qed.

Lemma at_Done (s : str) i c : at_ s i = Done c ↔ s !! i = Some c.
Proof. unfold at_. destruct (s !! i); split; congruence. Qed.

Lemma utf8_width_le c : utf8_width c ≤ 4.
Proof.
  unfold utf8_width.
  destruct (code c <? 0x80); [lia|].
  destruct (Nat.land (code c) 0xE0 =? 0xC0); [lia|].
  destruct (Nat.land (code c) 0xF0 =? 0xE0); [lia|].
  destruct (Nat.land (code c) 0xF8 =? 0xF0); lia.
Qed.

Lemma utf8_count_from_bounds fuel s i n :
  utf8_count_from fuel s i = Done n →
  n ≤ length s - i ∧ length s - i ≤ 4 * n.
Proof.
  revert i n. induction fuel as [|fuel IH]; intros i n;
    cbn [utf8_count_from];
    (destruct (Nat.ltb_spec i (length s)) as [Hlt|Hge];
      [|intros [= <-]; lia]); [done|].
  intros (c & Hc & H)%obind_Done. apply obind_Done in H as (n' & Hn' & [= <-]).
  apply IH in Hn'. pose proof (utf8_width_pos c). pose proof (utf8_width_le c).
  lia.
Qed.

Lemma has_word_char_from_spec fuel token i found :
  has_word_char_from fuel token i = Done found →
  found = has_word (drop i token).
Proof.
  revert i found. induction fuel as [|fuel IH]; intros i found;
    cbn [has_word_char_from];
    (destruct (Nat.ltb_spec i (length token)) as [Hlt|Hge];
      [|intros [= <-]; by rewrite drop_ge by lia]); [done|].
  intros (c & Hc%at_Done & H)%obind_Done.
  rewrite (drop_S token c i Hc). cbn [has_word starts_word].
  destruct (is_ascii_letter c || is_digit c); [by injection H as <-|].
  cbn [orb].
  apply obind_Done in H as (cyr & Hcyr & H).
  assert (cyr = match drop (S i) token with
                | c2 :: _ => is_cyrillic_start c c2
                | [] => false
                end) as <-.
  { destruct (Nat.ltb_spec (i + 1) (length token)) as [Hlt2|Hge2].
    - apply obind_Done in Hcyr as (c2 & Hc2%at_Done & [= <-]).
      rewrite Nat.add_1_r in Hc2. by rewrite (drop_S token c2 (S i) Hc2).
    - injection Hcyr as <-. by rewrite drop_ge by lia. }
  destruct cyr; [by injection H as <-|]. by apply IH.
Qed.

Lemma is_valid_token_true t token :
  is_valid_token t token = Done true →
  token ≠ [] ∧ has_word token = true ∧
  ∃ n, utf8_char_count token = Done n ∧ min_token_length_ t ≤ n ≤ length token.
Proof.
  unfold is_valid_token. destruct token as [|c token]; [done|].
  intros (n & Hn & H)%obind_Done.
  destruct (Nat.ltb_spec n (min_token_length_ t)); [done|].
  apply has_word_char_from_spec in H. rewrite drop_0 in H.
  split; [done|]. split; [done|]. exists n. split; [done|].
  apply utf8_count_from_bounds in Hn. lia.
Qed.

Lemma is_upper_lowered c : is_upper c = true → is_upper (chr (code c + 32)) = false.
Proof.
  unfold is_upper. intros [H1 H2]%andb_true_iff.
  apply Nat.leb_le in H1, H2.
  change (code "A") with 65 in *. change (code "Z") with 90 in *.
  rewrite code_chr by lia.
  apply andb_false_iff. right. apply Nat.leb_gt. lia.
Qed.

Lemma is_upper_trail c2 :
  (0x90 <=? code c2) && (code c2 <=? 0xAF) = true →
  is_upper (chr (code c2 + 0x20)) = false.
Proof.
  unfold is_upper. intros [H1 H2]%andb_true_iff.
  apply Nat.leb_le in H1, H2.
  change (code "A") with 65 in *. change (code "Z") with 90 in *.
  rewrite code_chr by lia.
  apply andb_false_iff. right. apply Nat.leb_gt. lia.
Qed.

Lemma to_lower_from_no_upper fuel s i result r :
  to_lower_from fuel s i result = Done r →
  Forall (λ c, is_upper c = false) result →
  Forall (λ c, is_upper c = false) r.
Proof.
  revert i result. induction fuel as [|fuel IH]; intros i result;
    cbn [to_lower_from];
    (destruct (Nat.ltb_spec i (length s)) as [Hlt|Hge];
      [|by intros [= <-]]); [done|].
  intros (c & Hc & H)%obind_Done Hresult.
  destruct (is_upper c) eqn:Eupper.
  { apply IH in H; [done|]. apply Forall_app. split; [done|].
    constructor; [by apply is_upper_lowered|constructor]. }
  apply obind_Done in H as (capital & Hcapital & H).
  destruct capital.
  { apply obind_Done in H as (c2 & Hc2 & H).
    destruct ((i + 1 <? length s) && (code c =? 0xD0)); [|done].
    apply obind_Done in Hcapital as (c2' & Hc2' & [= Hrange]).
    assert (c2' = c2) as -> by congruence.
    apply IH in H; [done|]. apply Forall_app. split; [done|].
    constructor; [done|].
    constructor; [by apply is_upper_trail|constructor]. }
  apply obind_Done in H as (yo & Hyo & H).
  destruct yo.
  { apply IH in H; [done|]. apply Forall_app. split; [done|].
    by repeat constructor. }
  apply IH in H; [done|]. apply Forall_app. split; [done|].
  by repeat constructor.
Qed.

Lemma next_token_Some t text i i' w :
  next_token t text i = Done (i', Some w) →
  is_valid_token t w = Done true ∧
  (lowercase_ t = true → Forall (λ c, is_upper c = false) w).
Proof.
  unfold next_token. intros (i1 & _ & H)%obind_Done.
  destruct (i1 <? length text); [|done].
  apply obind_Done in H as (i2 & _ & H).
  apply obind_Done in H as (raw & _ & H).
  apply obind_Done in H as (token & Htoken & H).
  apply obind_Done in H as (valid & Hvalid & H).
  destruct valid; [|done]. injection H as _ <-.
  split; [done|]. intros Hlower. rewrite Hlower in Htoken.
  by eapply to_lower_from_no_upper.
Qed.

Lemma tokenize_from_Forall (P : str → Prop) t text fuel i tokens out :
  (∀ i i' w, next_token t text i = Done (i', Some w) → P w) →
  tokenize_from fuel t text i tokens = Done out →
  Forall P tokens → Forall P out.
Proof.
  intros Hnext. revert i tokens. induction fuel as [|fuel IH]; intros i tokens;
    cbn [tokenize_from];
    (destruct (Nat.ltb_spec i (length text)) as [Hlt|Hge];
      [|by intros [= <-]]); [done|].
  intros ([i' tok] & Htok & H)%obind_Done Htokens.
  apply IH in H; [done|]. apply Forall_app. split; [done|].
  destruct tok as [w|]; cbn; [|constructor].
  constructor; [by eapply Hnext|constructor].
Qed.

Lemma tokens_of_valid t text :
  Forall (λ w, is_valid_token t w = Done true ∧
               (lowercase_ t = true → Forall (λ c, is_upper c = false) w))
    (tokens_of t text).
Proof.
  destruct (tokenize_done t text) as (tokens & Htokens & -> & _).
  unfold tokenize in Htokens.
  eapply tokenize_from_Forall in Htokens; [done|apply next_token_Some|constructor].
Qed.

End TokenFacts.

(** X18: [utf8_char_count] finishes on every byte string, and what it
    counts lies between a quarter of the byte length and the byte length:
    every lead byte stands for one to four bytes, whatever follows it. *)
Theorem utf8_char_count_bounds (s : str) :
  ∃ n, Tokenizer.utf8_char_count s = Done n ∧ n ≤ length s ≤ 4 * n.
Proof.
  unfold Tokenizer.utf8_char_count.
  destruct (utf8_count_from_done (length s) s 0) as [n Hn]; [lia|].
  exists n. split; [done|]. apply utf8_count_from_bounds in Hn. lia.
Qed.

(** X19: [to_lower] finishes on every byte string, keeps the byte length
    and leaves no byte in the range A to Z. *)
Theorem to_lower_no_upper (s : str) :
  ∃ r, Tokenizer.to_lower s = Done r ∧ length r = length s ∧
       Forall (λ c, Tokenizer.is_upper c = false) r.
Proof.
  destruct (to_lower_done s) as (r & Hr & Hlen).
  exists r. split; [done|]. split; [done|].
  by eapply to_lower_from_no_upper.
Qed.

(** X20: every token [tokenize] returns is not empty, has a letter, a
    digit or a Cyrillic pair in it, counts at least [min_token_length_]
    code points (hence bytes), and has no byte in the range A to Z when
    lowercasing is on. *)
Theorem tokenize_tokens (t : Tokenizer.config) (text w : str) :
  w ∈ Tokenizer.tokens_of t text →
  w ≠ [] ∧ Words.has_word w = true ∧
  (∃ n, Tokenizer.utf8_char_count w = Done n ∧
        Tokenizer.min_token_length_ t ≤ n ≤ length w) ∧
  (Tokenizer.lowercase_ t = true →
   Forall (λ c, Tokenizer.is_upper c = false) w).
Proof.
  intros Hw. pose proof (tokens_of_valid t text) as Hall.
  rewrite Forall_forall in Hall. destruct (Hall w Hw) as [Hvalid Hlower].
  apply is_valid_token_true in Hvalid as (? & ? & ?). done.
Qed.

Lemma tokenize_tokens_witness :
  lit "run" ∈ Tokenizer.tokens_of Builder.tok (lit "Run, RUN!") ∧
  Words.has_word (lit "run") = true.
Proof.
  assert (lit "run" ∈ Tokenizer.tokens_of Builder.tok (lit "Run, RUN!")) as H
    by (vm_compute; left).
  split; [exact H|].
  exact (proj1 (proj2 (tokenize_tokens Builder.tok (lit "Run, RUN!") (lit "run") H))).
Defined.

(** X21: the empty-term test of [add_postings] never fires on what the
    tokenizer returns: no token is empty and stemming empties none, so
    the terms entered for a text are its tokens, stemmed when asked. *)
Theorem add_postings_skips_nothing (use_stem : bool) (text : str) :
  Contents.terms_of use_stem text
  = map (λ tok, if use_stem then Stemmer.stem_token tok else tok)
      (Tokenizer.tokens_of Builder.tok text).
Proof.
  unfold Contents.terms_of.
  assert (Forall (λ w, w ≠ []) (Tokenizer.tokens_of Builder.tok text)) as Hall.
  { eapply Forall_impl; [apply tokens_of_valid|]. cbn.
    by intros w [(? & _)%is_valid_token_true _]. }
  induction Hall as [|w tokens Hw _ IH]; [done|].
  cbn [map]. rewrite filter_cons_True; [by rewrite IH|].
  destruct use_stem; [|done]. unfold Stemmer.stem_token.
  destruct (length w <=? 2); [done|].
  intros Hnil.
  pose proof (strip_suffix_prefix w (if Stemmer.has_cyrillic w
                                     then Stemmer.ru else Stemmer.en))
    as [_ Hlen].
  destruct (Stemmer.has_cyrillic w); rewrite Hnil in Hlen;
    destruct w; try done; cbn in Hlen; lia.
Qed.

(** ** Tokens with positions *)

Section PositionFacts.
Import Tokenizer Words.

Lemma rev_reverse {A} (l : list A) : rev l = reverse l.
Proof. unfold reverse. apply rev_alt. Qed.

Lemma leading_le s : leading s ≤ length s.
Proof.
  induction s as [|c s IH]; cbn [leading length]; [lia|].
  destruct (is_dash_or_apostrophe c); lia.
Qed.

Lemma trim_front_leading s : trim_front s = drop (leading s) s.
Proof.
  induction s as [|c s IH]; cbn [trim_front leading]; [done|].
  by destruct (is_dash_or_apostrophe c).
Qed.

Lemma trim_back_leading s :
  trim_back s = take (length s - leading (rev s)) s.
Proof.
  unfold trim_back. rewrite trim_front_leading, !rev_reverse.
  rewrite reverse_drop, reverse_involutive. by rewrite length_reverse.
Qed.

Lemma trim_start_from_spec fuel raw k :
  length raw - k ≤ fuel →
  Positions.trim_start_from fuel raw k = Done (k + leading (drop k raw)).
Proof.
  revert k. induction fuel as [|fuel IH]; intros k Hfuel;
    cbn [Positions.trim_start_from];
    (destruct (Nat.ltb_spec k (length raw)) as [Hlt|Hge];
      [|rewrite drop_ge by lia; cbn [leading]; f_equal; lia]); [lia|].
  destruct (lookup_lt_is_Some_2 raw k Hlt) as [c Hc].
  rewrite (proj2 (at_Done raw k c) Hc). cbn [obind].
  rewrite (drop_S raw c k Hc). cbn [leading].
  destruct (is_dash_or_apostrophe c); [|f_equal; lia].
  rewrite IH by lia. f_equal. lia.
Qed.

Lemma trim_end_from_spec fuel raw ts k :
  ts ≤ length raw → length raw - ts - k ≤ fuel →
  Positions.trim_end_from fuel raw ts k
  = Done (k + leading (drop k (rev (drop ts raw)))).
Proof.
  intros Hts. revert k. induction fuel as [|fuel IH]; intros k Hfuel;
    cbn [Positions.trim_end_from];
    (destruct (Nat.ltb_spec k (length raw - ts)) as [Hlt|Hge];
      [|rewrite drop_ge by (rewrite length_rev, length_drop; lia);
        cbn [leading]; f_equal; lia]); [lia|].
  assert (length raw - 1 - k < length raw) as Hidx by lia.
  destruct (lookup_lt_is_Some_2 raw _ Hidx) as [c Hc].
  rewrite (proj2 (at_Done raw _ c) Hc). cbn [obind].
  assert (rev (drop ts raw) !! k = Some c) as Hrev.
  { rewrite rev_reverse, reverse_lookup by (rewrite length_drop; lia).
    rewrite lookup_drop, length_drop. rewrite <- Hc. f_equal. lia. }
  rewrite (drop_S _ c k Hrev). cbn [leading].
  destruct (is_dash_or_apostrophe c); [|f_equal; lia].
  rewrite IH by lia. f_equal. lia.
Qed.

Lemma in_order_le i j tokens : i ≤ j → in_order j tokens → in_order i tokens.
Proof. destruct tokens as [|tok rest]; [done|]. cbn. intros ? [? ?]. split; [lia|done]. Qed.

Lemma in_order_app i tokens j more :
  in_order i tokens →
  Forall (λ tok, Positions.position tok + Positions.length tok ≤ j) tokens →
  i ≤ j → in_order j more → in_order i (tokens ++ more).
Proof.
  revert i. induction tokens as [|tok rest IH]; intros i Hin Hall Hij Hmore.
  { by eapply in_order_le. }
  destruct Hin as [Hpos Hrest]. apply Forall_cons in Hall as [Htok Hall].
  cbn. split; [done|]. apply IH; [done..|lia|done].
Qed.

Lemma next_token_agree t text i :
  i < length text →
  ∃ i' tok,
    Positions.next_token t text i = Done (i', tok) ∧
    next_token t text i = Done (i', Positions.text <$> tok) ∧
    i < i' ≤ length text ∧
    ∀ token, tok = Some token →
      i ≤ Positions.position token ∧
      Positions.position token + Positions.length token ≤ i' ∧
      covers t text token.
Proof.
  intros Hi. unfold Positions.next_token, next_token.
  destruct (skip_separators_done t text (length text) i)
    as (i1 & -> & Hle1 & Hbound1 & Hchar1); [lia|]. cbn [obind].
  destruct (Nat.ltb_spec i1 (length text)) as [Hlt1|Hge1].
  2: { exists i1, None. split; [done|]. split; [done|].
       split; [specialize (Hbound1 ltac:(lia)); lia|done]. }
  destruct (scan_token_done t text (length text) i1)
    as (i2 & -> & Hle2 & Hadv2); [lia..|]. cbn [obind].
  specialize (Hadv2 Hlt1 (Hchar1 Hlt1)).
  unfold substr at 1 3. destruct (Nat.ltb_spec (length text) i1); [lia|].
  cbn [obind].
  set (raw := take (i2 - i1) (drop i1 text)).
  assert (length raw = i2 - i1) as Hraw
    by (subst raw; rewrite length_take, length_drop; lia).
  rewrite trim_start_from_spec by lia. cbn [obind]. rewrite drop_0.
  cbn [Nat.add].
  pose proof (leading_le raw) as Hts. set (ts := leading raw) in *.
  rewrite trim_end_from_spec by lia. cbn [obind]. rewrite drop_0.
  cbn [Nat.add].
  pose proof (leading_le (rev (drop ts raw))) as Hte.
  rewrite length_rev, length_drop in Hte.
  set (te := leading (rev (drop ts raw))) in *.
  unfold substr. destruct (Nat.ltb_spec (length raw) ts); [lia|].
  cbn [obind].
  assert (trim_back (trim_front raw)
          = take (length raw - ts - te) (drop ts raw)) as Htrim.
  { rewrite trim_front_leading. fold ts. rewrite trim_back_leading.
    fold te. by rewrite length_drop. }
  rewrite Htrim.
  set (bytes := take (length raw - ts - te) (drop ts raw)).
  assert (bytes = take (length raw - ts - te) (drop (i1 + ts) text)) as Hbytes.
  { assert (drop ts raw = take (i2 - i1 - ts) (drop (i1 + ts) text)) as Hdrop.
    { unfold raw. rewrite <- drop_drop.
      rewrite (take_drop_commute (drop i1 text) (i2 - i1 - ts) ts).
      by replace (ts + (i2 - i1 - ts)) with (i2 - i1) by lia. }
    unfold bytes. rewrite Hdrop, take_take. f_equal. lia. }
  assert (length bytes = length raw - ts - te) as Hlen.
  { rewrite Hbytes, length_take, length_drop. lia. }
  assert (∃ token_text,
            (if lowercase_ t then to_lower bytes else Done bytes)
            = Done token_text ∧ length token_text = length bytes)
    as (token_text & Hlower & Hlowerlen).
  { destruct (lowercase_ t); [apply to_lower_done|eauto]. }
  rewrite Hlower. cbn [obind].
  destruct (is_valid_token_done t token_text) as [valid Hvalid].
  rewrite Hvalid. cbn [obind].
  eexists _, _. split; [done|]. split; [by destruct valid|].
  split; [lia|].
  intros token Htoken. destruct valid; [|done]. injection Htoken as <-.
  cbn [Positions.position Positions.length Positions.text].
  split; [lia|]. split; [lia|].
  unfold covers, slice.
  cbn [Positions.position Positions.length Positions.text].
  split; [lia|]. split.
  - apply is_valid_token_true in Hvalid as (Hne & _).
    destruct token_text; [done|]. cbn [length] in Hlowerlen. lia.
  - by rewrite <- Hbytes.
Qed.

Lemma tokenize_from_agree t text fuel i tokens :
  length text - i ≤ fuel →
  ∃ new,
    Positions.tokenize_from fuel t text i tokens = Done (tokens ++ new) ∧
    tokenize_from fuel t text i (Positions.text <$> tokens)
    = Done (Positions.text <$> (tokens ++ new)) ∧
    in_order i new ∧ Forall (covers t text) new.
Proof.
  revert i tokens. induction fuel as [|fuel IH]; intros i tokens Hfuel;
    cbn [Positions.tokenize_from tokenize_from];
    (destruct (Nat.ltb_spec i (length text)) as [Hlt|Hge];
      [|exists []; rewrite app_nil_r; repeat split; constructor]); [lia|].
  destruct (next_token_agree t text i Hlt)
    as (i' & tok & -> & -> & Hi' & Htok).
  cbn [obind].
  destruct (IH i' (tokens ++ option_list tok))
    as (new & -> & Hagree & Horder & Hcovers); [lia|].
  exists (option_list tok ++ new). rewrite app_assoc. split; [done|].
  split.
  { rewrite <- Hagree. f_equal. rewrite fmap_app. f_equal. by destruct tok. }
  destruct tok as [token|]; cbn [option_list app].
  - destruct (Htok token eq_refl) as (Hpos & Hend & Hcover).
    split; [|by constructor].
    cbn [in_order]. split; [done|]. by eapply in_order_le.
  - split; [|done]. eapply in_order_le; [|done]. lia.
Qed.

End PositionFacts.

(** X22: [tokenize_with_positions] finishes on every text and finds the
    tokens [tokenize] finds: the texts of its tokens, in order, are the
    list [tokenize] returns. *)
Theorem tokenize_with_positions_texts (t : Tokenizer.config) (text : str) :
  ∃ tokens,
    Positions.tokenize_with_positions t text = Done tokens ∧
    Tokenizer.tokenize t text = Done (Positions.text <$> tokens).
Proof.
  destruct (tokenize_from_agree t text (length text) 0 [])
    as (tokens & Hpos & Hplain & _); [lia|].
  exists tokens. done.
Qed.

(** X23: the tokens of [tokenize_with_positions] come in reading order
    and do not overlap; each covers at least one byte, all of them inside
    the text, and its text is those bytes, lowered when lowercasing is
    on. *)
Theorem tokenize_with_positions_spans (t : Tokenizer.config) (text : str)
    (tokens : list Positions.Token) :
  Positions.tokenize_with_positions t text = Done tokens →
  Words.in_order 0 tokens ∧ Forall (Words.covers t text) tokens.
Proof.
  destruct (tokenize_from_agree t text (length text) 0 [])
    as (new & Hpos & _ & Horder & Hcovers); [lia|].
  unfold Positions.tokenize_with_positions. rewrite Hpos.
  by intros [= <-].
Qed.

Lemma tokenize_with_positions_spans_witness :
  Positions.tokenize_with_positions Builder.tok (lit "--Ab c' de-f")
  = Done [Positions.MkToken (lit "ab") 2 2; Positions.MkToken (lit "de-f") 8 4] ∧
  Words.in_order 0
    [Positions.MkToken (lit "ab") 2 2; Positions.MkToken (lit "de-f") 8 4].
Proof.
  assert (Positions.tokenize_with_positions Builder.tok (lit "--Ab c' de-f")
          = Done [Positions.MkToken (lit "ab") 2 2;
                  Positions.MkToken (lit "de-f") 8 4]) as H
    by (vm_compute; reflexivity).
  split; [exact H|].
  exact (proj1 (tokenize_with_positions_spans _ _ _ H)).
Defined.

(** ** Index files with bytes missing or added *)

Section Streams.
Import Codec.

Lemma read_forward prior : reads_forward (read prior).
Proof.
  intros [input g k]. unfold read, followed_by. cbn [good bytes short].
  destruct g; [|done].
  destruct (Nat.leb_spec (length prior) (length input)) as [Hfull|Hshort];
    [|done].
  intros _. split; [done|]. intros more. cbn [fst snd good bytes short].
  rewrite length_app.
  destruct (Nat.leb_spec (length prior) (length input + length more)); [|lia].
  by rewrite take_app_le, drop_app_le by lia.
Qed.

Lemma bind_forward {A B} (reader : stream → A * stream)
    (k : A → stream → B * stream) :
  reads_forward reader → (∀ a, reads_forward (k a)) →
  reads_forward (λ s, let '(a, s1) := reader s in k a s1).
Proof.
  intros Hreader Hk s. specialize (Hreader s).
  destruct (reader s) as [a s1]. intros Hgood.
  destruct (Hk a s1 Hgood) as [Hgood1 Hmore1].
  destruct (Hreader Hgood1) as [Hgood0 Hmore0].
  split; [done|]. intros more. by rewrite Hmore0, Hmore1.
Qed.

Lemma pure_forward {A B} (f : A → B) (a : A) :
  reads_forward (λ s, (f a, s)).
Proof. by intros s Hgood. Qed.

Lemma read_uint32_forward junk : reads_forward (read_uint32 junk).
Proof.
  intros s. unfold read_uint32.
  pose proof (read_forward (uninitialized junk s 4) s) as H.
  destruct (read (uninitialized junk s 4) s) as [buf s1].
  intros Hgood. destruct (H Hgood) as [Hgood0 Hmore].
  split; [done|]. intros more.
  change (uninitialized junk (followed_by s more) 4)
    with (uninitialized junk s 4).
  by rewrite Hmore.
Qed.

Lemma read_string_forward junk : reads_forward (read_string junk).
Proof.
  apply (bind_forward (read_uint32 junk) (λ len, read (zeros (N.to_nat len)))).
  - apply read_uint32_forward.
  - intros len. apply read_forward.
Qed.

Lemma read_many_forward {A} (item : stream → A * stream) count :
  reads_forward item → reads_forward (read_many item count).
Proof.
  intros Hitem. induction count as [|count IH].
  { by intros s Hgood. }
  apply (bind_forward item
           (λ x s, let '(xs, s1) := read_many item count s in (x :: xs, s1)));
    [done|].
  intros x.
  apply (bind_forward (read_many item count) (λ xs s, (x :: xs, s))); [done|].
  intros xs. by intros s Hgood.
Qed.

Lemma read_entry_forward junk : reads_forward (read_entry junk).
Proof.
  apply (bind_forward (read_string junk)
           (λ term s,
              let '(len, s) := read_uint32 junk s in
              let '(buf, s) := read (zeros (4 * N.to_nat len)) s in
              ((term, words buf), s))).
  { apply read_string_forward. }
  intros term.
  apply (bind_forward (read_uint32 junk)
           (λ len s,
              let '(buf, s) := read (zeros (4 * N.to_nat len)) s in
              ((term, words buf), s))).
  { apply read_uint32_forward. }
  intros len.
  apply (bind_forward (read (zeros (4 * N.to_nat len)))
           (λ buf s, ((term, words buf), s))).
  { apply read_forward. }
  intros buf. by intros s Hgood.
Qed.

(** All that follows the test of the first five bytes. *)
Lemma load_index_body_forward junk :
  reads_forward
    (λ s, let '(doc_count, s) := read_uint32 junk s in
          let '(term_count, s) := read_uint32 junk s in
          let '(ds, s) := read_many (read_string junk) (N.to_nat doc_count) s in
          let '(entries, s) :=
            read_many (read_entry junk) (N.to_nat term_count) s in
          ({| docs := ds; postings := foldl emplace ∅ entries |}, s)).
Proof.
  apply (bind_forward (read_uint32 junk)
           (λ doc_count s,
              let '(term_count, s) := read_uint32 junk s in
              let '(ds, s) :=
                read_many (read_string junk) (N.to_nat doc_count) s in
              let '(entries, s) :=
                read_many (read_entry junk) (N.to_nat term_count) s in
              ({| docs := ds; postings := foldl emplace ∅ entries |}, s))).
  { apply read_uint32_forward. }
  intros doc_count.
  apply (bind_forward (read_uint32 junk)
           (λ term_count s,
              let '(ds, s) :=
                read_many (read_string junk) (N.to_nat doc_count) s in
              let '(entries, s) :=
                read_many (read_entry junk) (N.to_nat term_count) s in
              ({| docs := ds; postings := foldl emplace ∅ entries |}, s))).
  { apply read_uint32_forward. }
  intros term_count.
  apply (bind_forward (read_many (read_string junk) (N.to_nat doc_count))
           (λ ds s,
              let '(entries, s) :=
                read_many (read_entry junk) (N.to_nat term_count) s in
              ({| docs := ds; postings := foldl emplace ∅ entries |}, s))).
  { apply read_many_forward, read_string_forward. }
  intros ds.
  apply (bind_forward (read_many (read_entry junk) (N.to_nat term_count))
           (λ entries s,
              ({| docs := ds; postings := foldl emplace ∅ entries |}, s))).
  { apply read_many_forward, read_entry_forward. }
  intros entries. by intros s Hgood.
Qed.

Lemma load_index_forward junk file more idx s :
  load_index junk file = Loaded idx s → good s = true →
  load_index junk (file ++ more) = Loaded idx (followed_by s more).
Proof.
  unfold load_index. intros Hload Hgood.
  pose proof (read_forward (uninitialized junk (open file) 5) (open file))
    as Hmagic.
  change (open (file ++ more)) with (followed_by (open file) more).
  change (uninitialized junk (followed_by (open file) more) 5)
    with (uninitialized junk (open file) 5).
  destruct (read (uninitialized junk (open file) 5) (open file))
    as [magic' s0].
  destruct (bool_decide (magic' = magic)) eqn:Ecmp; [|done].
  pose proof (load_index_body_forward junk s0) as Hbody. cbv beta in Hbody.
  destruct (read_uint32 junk s0) as [doc_count s1] eqn:E1.
  destruct (read_uint32 junk s1) as [term_count s2] eqn:E2.
  destruct (read_many (read_string junk) (N.to_nat doc_count) s2)
    as [ds s3] eqn:E3.
  destruct (read_many (read_entry junk) (N.to_nat term_count) s3)
    as [entries s4] eqn:E4.
  injection Hload as <- <-. cbn [fst snd] in *.
  destruct (Hbody Hgood) as [Hgood0 Hrest].
  destruct (Hmagic Hgood0) as [_ Hfirst].
  rewrite Hfirst. cbn [fst snd]. rewrite Ecmp.
  specialize (Hrest more).
  destruct (read_uint32 junk (followed_by s0 more)) as [doc_count' s1'].
  destruct (read_uint32 junk s1') as [term_count' s2'].
  destruct (read_many (read_string junk) (N.to_nat doc_count') s2')
    as [ds' s3'].
  destruct (read_many (read_entry junk) (N.to_nat term_count') s3')
    as [entries' s4'].
  pose proof (f_equal fst Hrest) as Hidx. pose proof (f_equal snd Hrest) as Hs.
  cbn [fst snd] in Hidx, Hs. by rewrite Hidx, Hs.
Qed.

End Streams.

(** X24: [load_index] looks at no byte behind the index it reads. When it
    gets through a file with the stream still good, bytes added at the
    end of that file change nothing of the index it returns and are left
    unread. (After a read that came short they can: the code then fills
    its buffers from the added bytes.) *)
Theorem load_index_ignores_trailing (junk : nat → nat → ascii)
    (file more : str) (idx : Index) (s : Codec.stream) :
  Codec.load_index junk file = Codec.Loaded idx s →
  Codec.good s = true →
  Codec.load_index junk (file ++ more) = Codec.Loaded idx (followed_by s more).
Proof. apply load_index_forward. Qed.

Lemma load_index_ignores_trailing_witness :
  Codec.load_index (λ _ _, "000"%char)
    (Codec.save_index Scenario.index (map_to_list (postings Scenario.index))
     ++ lit "tail")
  = Codec.Loaded Scenario.index (followed_by (Codec.Stream [] true 0) (lit "tail")).
Proof.
  apply load_index_ignores_trailing; [|reflexivity].
  vm_compute. reflexivity.
Defined.



(** X26: [read_string] on a stream that ends inside the string returns
    the bytes that are there followed by NUL bytes up to the announced
    length, and leaves the stream failed: the [std::string] is created
    with its full length before the read and never shortened. *)
Theorem read_string_pads (junk : nat → nat → ascii) (len : N) (body : str)
    (k : nat) :
  (len < 2 ^ 32)%N → length body < N.to_nat len →
  Codec.read_string junk
    (Codec.Stream (Codec.write_uint32 len ++ body) true k)
  = (body ++ Codec.zeros (N.to_nat len - length body),
     Codec.Stream [] false (S k)).
Proof.
  intros Hlen Hshort. unfold Codec.read_string.
  rewrite read_uint32_write by done.
  unfold Codec.read. cbn [Codec.good Codec.bytes Codec.short].
  rewrite zeros_length.
  destruct (Nat.leb_spec (N.to_nat len) (length body)); [lia|].
  unfold Codec.zeros. by rewrite drop_replicate.
Qed.

Lemma read_string_pads_witness :
  Codec.read_string (λ _ _, "000"%char)
    (Codec.Stream (Codec.write_uint32 5 ++ lit "ab") true 0)
  = (lit "ab" ++ Codec.zeros (N.to_nat 5 - length (lit "ab")),
     Codec.Stream [] false 1).
Proof.
  apply read_string_pads; [reflexivity|]. vm_compute. lia.
Defined.
